(** * neo4j-graph-memory: the project/summary graph and its hybrid search

    A shallow embedding of [mcp-scripts/semantic-knowledge-graph-rag.py].

    - The Neo4j store is a property graph: nodes carry an internal
      reference and the properties of their label, relationships are typed
      edges between references.  Each Cypher statement of the script is a
      function on that graph, written clause by clause over the rows the
      statement carries.
    - The Python tools run in a small monad over a [World]: the graph, the
      log of calls made to the collaborators ([model.encode],
      [session.run], [cross_encoder_model.predict]), the number of UUIDs
      drawn and the clock.  Exceptions keep the world.
    - The embedding model, the two index procedures, the cross-encoder and
      [uuid.uuid4] are parameters.
    - The RRF scores are Python floats.  The fusion is written over an
      arithmetic [Arith] and instantiated twice: [exact] (rationals, no
      rounding) and [binary64] (the machine's doubles).  General statements
      about score order are proved for [exact]; the concrete scenarios are
      evaluated in both. *)

From Stdlib Require Import List String Ascii Bool Arith ZArith QArith.
From Stdlib Require Import Lia Lqa Permutation Sorted.
From Stdlib Require Import Uint63 PrimFloat.
Import ListNotations.

Local Open Scope nat_scope.
Local Open Scope string_scope.
Local Open Scope list_scope.

(** ** Python values and dictionaries *)

(** What a record of a query result can hold: a property value or null. *)
Inductive Value : Type :=
| VNone
| VStr (s : string)
| VNum (q : Q)
| VTime (t : nat).

Definition value_eqb (a b : Value) : bool :=
  match a, b with
  | VNone, VNone => true
  | VStr s, VStr t => String.eqb s t
  | VNum p, VNum q => Z.eqb (Qnum p) (Qnum q) && Pos.eqb (Qden p) (Qden q)
  | VTime s, VTime t => Nat.eqb s t
  | _, _ => false
  end.

(** [str(v)] as an f-string renders it (only strings are ever rendered). *)
Definition str (v : Value) : string :=
  match v with
  | VStr s => s
  | VNone => "None"
  | _ => "<value>"
  end.

(** A dict with string keys, in insertion order. *)
Definition Dict : Type := list (string * Value).

Fixpoint lookup (k : string) (d : Dict) : option Value :=
  match d with
  | [] => None
  | (k', v) :: d' => if String.eqb k' k then Some v else lookup k d'
  end.

(** [d[k] = v]: overwrite in place, or append a new key. *)
Fixpoint set_key (k : string) (v : Value) (d : Dict) : Dict :=
  match d with
  | [] => [(k, v)]
  | (k', v') :: d' =>
      if String.eqb k' k then (k', v) :: d' else (k', v') :: set_key k v d'
  end.

(** ** The property graph *)

Definition Embedding : Type := list Q.

Inductive RelType : Type :=
| HAS_SUMMARY
| HAS_LATEST_SUMMARY
| PREVIOUS_VERSION.

Definition reltype_eqb (a b : RelType) : bool :=
  match a, b with
  | HAS_SUMMARY, HAS_SUMMARY => true
  | HAS_LATEST_SUMMARY, HAS_LATEST_SUMMARY => true
  | PREVIOUS_VERSION, PREVIOUS_VERSION => true
  | _, _ => false
  end.

(** The label of a node with the properties the script sets on it. *)
Inductive Props : Type :=
| Project (id name question : string) (updated_at : nat)
| Summary (id text : string) (embedding : Embedding) (created_at : nat).

Record Node : Type := mkNode { node_ref : nat; node_props : Props }.

Record Rel : Type := mkRel { rel_type : RelType; rel_src : nat; rel_dst : nat }.

Record Graph : Type := mkGraph { nodes : list Node; rels : list Rel }.

Definition empty_graph : Graph := mkGraph [] [].

Definition rel_eqb (a b : Rel) : bool :=
  reltype_eqb (rel_type a) (rel_type b)
  && Nat.eqb (rel_src a) (rel_src b)
  && Nat.eqb (rel_dst a) (rel_dst b).

Definition refs (g : Graph) : list nat := map node_ref (nodes g).

(** The reference a newly created node gets. *)
Definition fresh_ref (g : Graph) : nat := S (list_max (refs g)).

Definition mem_ref (r : nat) (rs : list nat) : bool := existsb (Nat.eqb r) rs.

(** Property access [n.id], [n.name], [n.question], [n.text]. *)
Definition prop_id (n : Node) : Value :=
  match node_props n with
  | Project id _ _ _ => VStr id
  | Summary id _ _ _ => VStr id
  end.

Definition prop_name (n : Node) : Value :=
  match node_props n with
  | Project _ name _ _ => VStr name
  | Summary _ _ _ _ => VNone
  end.

Definition prop_question (n : Node) : Value :=
  match node_props n with
  | Project _ _ question _ => VStr question
  | Summary _ _ _ _ => VNone
  end.

Definition prop_updated_at (n : Node) : Value :=
  match node_props n with
  | Project _ _ _ t => VTime t
  | Summary _ _ _ _ => VNone
  end.

Definition prop_text (n : Node) : Value :=
  match node_props n with
  | Project _ _ _ _ => VNone
  | Summary _ text _ _ => VStr text
  end.

Definition is_project (n : Node) : bool :=
  match node_props n with Project _ _ _ _ => true | _ => false end.

Definition is_summary (n : Node) : bool :=
  match node_props n with Summary _ _ _ _ => true | _ => false end.

(** The pattern [(p:Project {id: $project_id})]. *)
Definition is_project_with_id (pid : string) (n : Node) : bool :=
  match node_props n with
  | Project id _ _ _ => String.eqb id pid
  | Summary _ _ _ _ => false
  end.

Definition match_project (g : Graph) (pid : string) : list nat :=
  map node_ref (filter (is_project_with_id pid) (nodes g)).

Definition find_node (g : Graph) (r : nat) : option Node :=
  find (fun n => Nat.eqb (node_ref n) r) (nodes g).

(** Does some node with reference [r] satisfy [f]? *)
Definition node_at (g : Graph) (f : Node -> bool) (r : nat) : bool :=
  existsb (fun n => Nat.eqb (node_ref n) r && f n) (nodes g).

Definition is_rel (t : RelType) (e : Rel) : bool := reltype_eqb (rel_type e) t.

(** The pattern [(p)-[:HAS_LATEST_SUMMARY]->(s:Summary)] from a bound [p]:
    the targets, one per matching relationship. *)
Definition match_latest (g : Graph) (p : nat) : list nat :=
  map rel_dst
    (filter (fun e => is_rel HAS_LATEST_SUMMARY e
                      && Nat.eqb (rel_src e) p
                      && node_at g is_summary (rel_dst e))
            (rels g)).

Definition add_node (n : Node) (g : Graph) : Graph :=
  mkGraph (nodes g ++ [n]) (rels g).

Definition add_rels (es : list Rel) (g : Graph) : Graph :=
  mkGraph (nodes g) (rels g ++ es).

(** [MERGE (a)-[:T]->(b)] on bound endpoints: create the relationship
    unless one is there. *)
Definition merge_rel (e : Rel) (g : Graph) : Graph :=
  if existsb (rel_eqb e) (rels g) then g else add_rels [e] g.

Definition delete_rels (es : list Rel) (g : Graph) : Graph :=
  mkGraph (nodes g)
          (filter (fun e => negb (existsb (rel_eqb e) es)) (rels g)).

(** ** The upsert statement (lines 48-72) *)

(** [MERGE (p:Project {id: $project_id}) SET p.name = ..., p.question = ...,
    p.updated_at = datetime()]: the rows are the matching Project nodes, or
    the one created when there is none. *)
Definition merge_set_project (pid name question : string) (now : nat)
    (g : Graph) : Graph * list nat :=
  match match_project g pid with
  | [] =>
      let p := fresh_ref g in
      (add_node (mkNode p (Project pid name question now)) g, [p])
  | ps =>
      (mkGraph
         (map (fun n => if is_project_with_id pid n
                        then mkNode (node_ref n) (Project pid name question now)
                        else n)
              (nodes g))
         (rels g),
       ps)
  end.

(** [OPTIONAL MATCH (p)-[old_rel:HAS_LATEST_SUMMARY]->(old_s:Summary)]: a
    row per match, or one row with nulls. *)
Definition optional_match_latest (g : Graph) (ps : list nat)
    : list (nat * option nat) :=
  flat_map (fun p =>
              match match_latest g p with
              | [] => [(p, None)]
              | olds => map (fun o => (p, Some o)) olds
              end) ps.

(** [DELETE old_rel], for every row that has one. *)
Definition old_rels (rows : list (nat * option nat)) : list Rel :=
  flat_map (fun row =>
              match snd row with
              | Some o => [mkRel HAS_LATEST_SUMMARY (fst row) o]
              | None => []
              end) rows.

(** [CREATE (s:Summary {id: $summary_id}) SET s.text = ..., s.embedding =
    ..., s.created_at = datetime()]: one new node per row. *)
Fixpoint create_summaries (sid text : string) (emb : Embedding) (now : nat)
    (rows : list (nat * option nat)) (g : Graph)
    : Graph * list (nat * option nat * nat) :=
  match rows with
  | [] => (g, [])
  | (p, old) :: rows' =>
      let s := fresh_ref g in
      let '(g', out) :=
        create_summaries sid text emb now rows'
          (add_node (mkNode s (Summary sid text emb now)) g) in
      (g', (p, old, s) :: out)
  end.

Definition merge_rels (es : list Rel) (g : Graph) : Graph :=
  fold_left (fun g e => merge_rel e g) es g.

(** [FOREACH (_ IN CASE WHEN old_s IS NOT NULL THEN [1] ELSE [] END |
    MERGE (s)-[:PREVIOUS_VERSION]->(old_s))]. *)
Definition previous_rels (rows : list (nat * option nat * nat)) : list Rel :=
  flat_map (fun row =>
              match row with
              | (_, Some o, s) => [mkRel PREVIOUS_VERSION s o]
              | (_, None, _) => []
              end) rows.

Definition node_value (g : Graph) (f : Node -> Value) (r : nat) : Value :=
  match find_node g r with
  | Some n => f n
  | None => VNone
  end.

(** The statement after [WITH p]: unlink the old latest Summary, create the
    new one, link it, chain it to the old one, and return a record per row. *)
Definition attach_summary (now : nat) (summary : string)
    (embedding : Embedding) (summary_id : string) (ps : list nat) (g1 : Graph)
    : Graph * list Dict :=
  let rows := optional_match_latest g1 ps in
  let g2 := delete_rels (old_rels rows) g1 in
  let '(g3, rows') := create_summaries summary_id summary embedding now rows g2 in
  let g4 :=
    merge_rels (map (fun row => mkRel HAS_LATEST_SUMMARY (fst (fst row)) (snd row))
                    rows') g3 in
  let g5 :=
    merge_rels (map (fun row => mkRel HAS_SUMMARY (fst (fst row)) (snd row))
                    rows') g4 in
  let g6 := merge_rels (previous_rels rows') g5 in
  (g6,
   map (fun row =>
          [("project_id", node_value g6 prop_id (fst (fst row)));
           ("project_name", node_value g6 prop_name (fst (fst row)));
           ("summary_id", node_value g6 prop_id (snd row))])
       rows').

Definition cypher_upsert (now : nat)
    (project_id name question summary : string) (embedding : Embedding)
    (summary_id : string) (g : Graph) : Graph * list Dict :=
  let '(g1, ps) := merge_set_project project_id name question now g in
  attach_summary now summary embedding summary_id ps g1.

(** ** The read statements *)

(** Lines 100-103: [MATCH (p:Project)-[:HAS_SUMMARY]->(s:Summary {id:
    $summary_id}) RETURN p.id AS project_id, p.name AS project_name,
    p.question AS question, p.updated_at AS updated_at]. *)
Definition cypher_project_of_summary (summary_id : string) (g : Graph)
    : list Dict :=
  flat_map (fun e =>
              match find_node g (rel_src e), find_node g (rel_dst e) with
              | Some p, Some s =>
                  if is_rel HAS_SUMMARY e && is_project p && is_summary s
                     && value_eqb (prop_id s) (VStr summary_id)
                  then [[("project_id", prop_id p);
                         ("project_name", prop_name p);
                         ("question", prop_question p);
                         ("updated_at", prop_updated_at p)]]
                  else []
              | _, _ => []
              end) (rels g).

(** Lines 115-118: [MATCH (p:Project {id: $project_id})
    -[:HAS_LATEST_SUMMARY]->(s:Summary) RETURN p.id AS project_id,
    p.question AS project_name, s.text AS latest_summary, s.id AS
    summary_id]. *)
Definition cypher_latest (project_id : string) (g : Graph) : list Dict :=
  flat_map (fun p =>
              map (fun s =>
                     [("project_id", node_value g prop_id p);
                      ("project_name", node_value g prop_question p);
                      ("latest_summary", node_value g prop_text s);
                      ("summary_id", node_value g prop_id s)])
                  (match_latest g p))
           (match_project g project_id).

(** Lines 158-162: [MATCH (p:Project)-[:HAS_SUMMARY]->(n) WHERE n.id IN
    $node_ids RETURN p.id AS id, p.question AS question, n.text AS
    summary].  There is no ORDER BY: the rows come in the order in which
    the store holds the relationships. *)
Definition cypher_get_data (node_ids : list Value) (g : Graph) : list Dict :=
  flat_map (fun e =>
              match find_node g (rel_src e), find_node g (rel_dst e) with
              | Some p, Some n =>
                  if is_rel HAS_SUMMARY e && is_project p
                     && existsb (value_eqb (prop_id n)) node_ids
                  then [[("id", prop_id p);
                         ("question", prop_question p);
                         ("summary", prop_text n)]]
                  else []
              | _, _ => []
              end) (rels g).

(** Line 292: [MATCH (p:Project {id: $project_id}) DETACH DELETE p]: the
    matching Project nodes go, with every relationship that touches one. *)
Definition cypher_delete (project_id : string) (g : Graph) : Graph :=
  let ps := match_project g project_id in
  mkGraph
    (filter (fun n => negb (is_project_with_id project_id n)) (nodes g))
    (filter (fun e => negb (mem_ref (rel_src e) ps || mem_ref (rel_dst e) ps))
            (rels g)).

(** ** Sorting as [sorted(..., reverse=True)] does: descending and stable *)

Section Sorting.
Context {A K : Type} (ltb : K -> K -> bool) (key : A -> K).

(** [x] goes in front of the first element whose key is not above its
    own, so it stays in front of its equals. *)
Fixpoint insert_desc (x : A) (l : list A) : list A :=
  match l with
  | [] => [x]
  | y :: l' => if ltb (key x) (key y) then y :: insert_desc x l' else x :: l
  end.

Definition sorted_desc (l : list A) : list A := fold_right insert_desc [] l.
End Sorting.

(** The slice [l[:k]] for a Python integer [k]. *)
Definition slice_to {A : Type} (k : Z) (l : list A) : list A :=
  if (0 <=? k)%Z then firstn (Z.to_nat k) l
  else firstn (List.length l - Z.to_nat (- k)) l.

(** ** The arithmetic of the RRF scores *)

Record Arith : Type := mkArith {
  num : Type;
  zero : num;                       (* the integer 0 a score starts from *)
  one_over : Z -> num;              (* 1 / n for an integer n <> 0 *)
  add : num -> num -> num;
  ltb : num -> num -> bool
}.

Definition Qltb (x y : Q) : bool := negb (Qle_bool y x).

(** Rationals: what the floats approximate. *)
Definition exact : Arith :=
  mkArith Q 0%Q (fun n => (1 / inject_Z n)%Q) Qplus Qltb.

Definition float_of_Z (z : Z) : float :=
  match z with
  | Z0 => PrimFloat.of_uint63 (Uint63.of_Z 0)
  | Zpos _ => PrimFloat.of_uint63 (Uint63.of_Z z)
  | Zneg p => PrimFloat.opp (PrimFloat.of_uint63 (Uint63.of_Z (Zpos p)))
  end.

(** IEEE 754 doubles, as CPython computes [1 / n] and [+] for integers [n]
    below 2^53 in absolute value. *)
Definition binary64 : Arith :=
  mkArith float (float_of_Z 0)
          (fun n => PrimFloat.div (float_of_Z 1) (float_of_Z n))
          PrimFloat.add PrimFloat.ltb.

(** The dict [rrf_scores]: node ids to scores, in insertion order. *)
Section Scores.
Context {N : Type}.

Fixpoint scores_get (k : Value) (d : list (Value * N)) : option N :=
  match d with
  | [] => None
  | (k', v) :: d' => if value_eqb k' k then Some v else scores_get k d'
  end.

(** [d.setdefault(k, v)] *)
Definition setdefault (k : Value) (v : N) (d : list (Value * N))
    : list (Value * N) :=
  match scores_get k d with
  | Some _ => d
  | None => d ++ [(k, v)]
  end.

(** [d[k] = f(d[k])] for a key that is there. *)
Fixpoint scores_update (k : Value) (f : N -> N) (d : list (Value * N))
    : list (Value * N) :=
  match d with
  | [] => []
  | (k', v) :: d' =>
      if value_eqb k' k then (k', f v) :: d'
      else (k', v) :: scores_update k f d'
  end.
End Scores.

(** ** The collaborators and the world the tools run in *)

(** The statements the script sends through [session.run], with their
    parameters. *)
Inductive Query : Type :=
| QUpsert (project_id name question summary : string)
          (embedding : Embedding) (summary_id : string)
| QProjectOfSummary (summary_id : string)
| QLatest (project_id : string)
| QVector (top_k : Z) (embedding : Embedding) (min_score : Q)
| QGetData (node_ids : list Value)
| QFulltext (query_text : string) (top_k : Z) (min_score : Q)
| QDelete (project_id : string).

(** A call of the script to one of its collaborators. *)
Inductive Event : Type :=
| EvEncode (text : string)
| EvRun (q : Query)
| EvPredict (pairs : list (string * Value)).

(** The exceptions the tools can raise; [ClientError] is the store
    refusing a statement. *)
Inductive Exn : Type :=
| ZeroDivisionError
| KeyError (k : string)
| TypeError
| ClientError.

Inductive Outcome (A : Type) : Type :=
| Ok (a : A)
| Raise (e : Exn).
Arguments Ok {A} a.
Arguments Raise {A} e.

Record World : Type := mkWorld {
  graph : Graph;
  trace : list Event;
  draws : nat;          (* UUIDs drawn so far *)
  now : nat             (* what datetime() reads *)
}.

Definition initial_world : World := mkWorld empty_graph [] 0 0.

(** A tool or a step of one: it returns or raises, and leaves a world. *)
Definition Tool (A : Type) : Type := World -> Outcome A * World.

Definition ret {A : Type} (a : A) : Tool A := fun w => (Ok a, w).

Definition raise {A : Type} (e : Exn) : Tool A := fun w => (Raise e, w).

Definition bind {A B : Type} (c : Tool A) (k : A -> Tool B) : Tool B :=
  fun w =>
    match c w with
    | (Ok a, w') => k a w'
    | (Raise e, w') => (Raise e, w')
    end.

Declare Scope tool_scope.
Delimit Scope tool_scope with tool.
Notation "x <- c ;; k" := (bind c (fun x => k))
  (at level 61, c at next level, right associativity) : tool_scope.
Notation "c ;;; k" := (bind c (fun _ => k))
  (at level 61, right associativity) : tool_scope.
Local Open Scope tool_scope.

Definition emit (e : Event) : Tool unit :=
  fun w => (Ok tt, mkWorld (graph w) (trace w ++ [e]) (draws w) (now w)).

(** [d[k]] *)
Definition getitem (d : Dict) (k : string) : Tool Value :=
  match lookup k d with
  | Some v => ret v
  | None => raise (KeyError k)
  end.

Fixpoint mapM {A B : Type} (f : A -> Tool B) (l : list A) : Tool (list B) :=
  match l with
  | [] => ret []
  | x :: l' => y <- f x ;; ys <- mapM f l' ;; ret (y :: ys)
  end.

(** [result.single()]: the first record, if any. *)
Definition single (rows : list Dict) : option Dict := hd_error rows.

(** What a tool hands back where the script returns values of several
    types. *)
Inductive Returned : Type :=
| RNone
| RStr (s : string)
| RDict (d : Dict).

Definition newline : string := String (ascii_of_nat 10) EmptyString.

(** The collaborators the script calls, as functions. *)
Record Collaborators : Type := mkCollaborators {
  (* SentenceTransformer.encode(text).tolist() *)
  encode : string -> Embedding;
  (* db.index.vector.queryNodes('project_embedding_index', k, embedding) *)
  vector_index : Graph -> Z -> Embedding -> list (Node * Q);
  (* db.index.fulltext.queryNodes('project_summary_fulltext_index', text) *)
  fulltext_index : Graph -> string -> list (Node * Q);
  (* the cross-encoder's score of one (query, document) pair *)
  score_pair : string -> Value -> Q;
  (* the n-th value uuid.uuid4() returns, as a string *)
  uuid4_at : nat -> string
}.

Section Tools.
Variable C : Collaborators.

(** Lines 132-137: [CALL db.index.vector.queryNodes(...) YIELD node,
    score WHERE score >= $min_score RETURN node.id AS node_id, node.text
    AS summary, score]. *)
Definition cypher_vector (top_k : Z) (embedding : Embedding) (min_score : Q)
    (g : Graph) : list Dict :=
  map (fun hit =>
         [("node_id", prop_id (fst hit));
          ("summary", prop_text (fst hit));
          ("score", VNum (snd hit))])
      (filter (fun hit => Qle_bool min_score (snd hit))
              (vector_index C g top_k embedding)).

(** Lines 174-186: [CALL db.index.fulltext.queryNodes(...) YIELD node,
    score WHERE score >= $min_score RETURN node.id AS node_id, node.text
    AS summary, score ORDER BY score DESC LIMIT $top_k].  A negative
    LIMIT is refused by the store. *)
Definition fulltext_rows (query_text : string) (top_k : Z) (min_score : Q)
    (g : Graph) : list Dict :=
  map (fun hit =>
         [("node_id", prop_id (fst hit));
          ("summary", prop_text (fst hit));
          ("score", VNum (snd hit))])
      (firstn (Z.to_nat top_k)
         (sorted_desc Qltb snd
            (filter (fun hit => Qle_bool min_score (snd hit))
                    (fulltext_index C g query_text)))).

Definition cypher_fulltext (query_text : string) (top_k : Z) (min_score : Q)
    (g : Graph) : Outcome (list Dict) :=
  if (top_k <? 0)%Z then Raise ClientError
  else Ok (fulltext_rows query_text top_k min_score g).

(** One statement against the graph at time [t]. *)
Definition cypher (q : Query) (t : nat) (g : Graph)
    : Outcome (list Dict) * Graph :=
  match q with
  | QUpsert pid name question summary emb sid =>
      let '(g', rows) := cypher_upsert t pid name question summary emb sid g in
      (Ok rows, g')
  | QProjectOfSummary sid => (Ok (cypher_project_of_summary sid g), g)
  | QLatest pid => (Ok (cypher_latest pid g), g)
  | QVector k emb m => (Ok (cypher_vector k emb m g), g)
  | QGetData ids => (Ok (cypher_get_data ids g), g)
  | QFulltext text k m => (cypher_fulltext text k m g, g)
  | QDelete pid => (Ok [], cypher_delete pid g)
  end.

(** [with driver.session() as session: session.run(q, ...)] *)
Definition session_run (q : Query) : Tool (list Dict) :=
  fun w =>
    let '(r, g') := cypher q (now w) (graph w) in
    (r, mkWorld g' (trace w ++ [EvRun q]) (draws w) (S (now w))).

(** [str(uuid.uuid4())] *)
Definition uuid4 : Tool string :=
  fun w => (Ok (uuid4_at C (draws w)),
            mkWorld (graph w) (trace w) (S (draws w)) (now w)).

(** [model.encode(text).tolist()] *)
Definition model_encode (text : string) : Tool Embedding :=
  emit (EvEncode text) ;;; ret (encode C text).

(** [cross_encoder_model.predict(pairs)]: one call, a score per pair. *)
Definition cross_encoder_predict (pairs : list (string * Value))
    : Tool (list Q) :=
  emit (EvPredict pairs) ;;;
  ret (map (fun pair => score_pair C (fst pair) (snd pair)) pairs).

(** Lines 39-85.  [if not project_id] holds for [None] and for the empty
    string. *)
Definition upsert_project_tool (name question summary : string)
    (project_id : option string) : Tool string :=
  project_id <-
    match project_id with
    | None => uuid4
    | Some EmptyString => uuid4
    | Some pid => ret pid
    end ;;
  let text_for_embedding := (question ++ newline ++ summary)%string in
  embedding <- model_encode text_for_embedding ;;
  summary_id <- uuid4 ;;
  result <- session_run
    (QUpsert project_id name question summary embedding summary_id) ;;
  match single result with
  | None => raise TypeError
  | Some record =>
      project_name <- getitem record "project_name" ;;
      pid <- getitem record "project_id" ;;
      sid <- getitem record "summary_id" ;;
      ret ("Saved. Project: " ++ str project_name ++ " (" ++ str pid
           ++ "), Summary: " ++ str sid)%string
  end.

(** Lines 93-106. *)
Definition get_project_node (summary_id : string) : Tool Returned :=
  result <- session_run (QProjectOfSummary summary_id) ;;
  match single result with
  | Some record => ret (RDict record)
  | None => ret RNone
  end.

(** Lines 114-122. *)
Definition get_latest_summary_tool (project_id : string) : Tool Returned :=
  result <- session_run (QLatest project_id) ;;
  match single result with
  | Some record => ret (RDict record)
  | None => ret (RStr "No project found.")
  end.

(** Lines 127-145. *)
Definition get_semantic_matches (query_text : string) (top_k : Z)
    (min_score : Q) : Tool (list Dict) :=
  query_embedding <- model_encode query_text ;;
  session_run (QVector top_k query_embedding min_score).

(** Lines 151-165. *)
Definition get_data_tool (node_ids : list Value) : Tool (list Dict) :=
  match node_ids with
  | [] => ret []
  | _ => session_run (QGetData node_ids)
  end.

(** Lines 170-195. *)
Definition get_bm25_matches (query_text : string) (top_k : Z)
    (min_score : Q) : Tool (list Dict) :=
  session_run (QFulltext query_text top_k min_score).

(** Lines 287-295. *)
Definition delete_project_tool (project_id : string) : Tool bool :=
  session_run (QDelete project_id) ;;;
  ret true.

Section Fusion.
Variable A : Arith.

(** One of the two loops of lines 219-227:
    [for rank, item in enumerate(results, start=rank)]. *)
Fixpoint rrf_loop (rrf_k rank : Z) (results : list Dict)
    (rrf_scores : list (Value * num A)) : Tool (list (Value * num A)) :=
  match results with
  | [] => ret rrf_scores
  | item :: rest =>
      node_id <- getitem item "node_id" ;;
      let rrf_scores := setdefault node_id (zero A) rrf_scores in
      if (rrf_k + rank =? 0)%Z then raise ZeroDivisionError
      else
        let rrf_scores :=
          scores_update node_id
            (fun s => add A s (one_over A (rrf_k + rank))) rrf_scores in
        rrf_loop rrf_k (rank + 1) rest rrf_scores
  end.

(** Lines 229-235: sort the items of the dict by score, descending,
    and keep the ids of the first [top_k]. *)
Definition top_ranked (top_k : Z) (rrf_scores : list (Value * num A))
    : list Value :=
  map fst (slice_to top_k (sorted_desc (ltb A) snd rrf_scores)).

(** Lines 200-237. *)
Definition hybrid_rrf_search (query_text : string) (top_k rrf_k : Z)
    : Tool (list Dict) :=
  semantic_results <- get_semantic_matches query_text (top_k * 2) 0 ;;
  bm25_results <- get_bm25_matches query_text (top_k * 2) 0 ;;
  rrf_scores <- rrf_loop rrf_k 1 semantic_results [] ;;
  rrf_scores <- rrf_loop rrf_k 1 bm25_results rrf_scores ;;
  let top_ranked_ids := top_ranked top_k rrf_scores in
  get_data_tool top_ranked_ids.

(** A cross-encoder score read back from a candidate, as a number to
    sort by. *)
Definition as_number (v : Value) : Tool Q :=
  match v with
  | VNum q => ret q
  | _ => raise TypeError
  end.

(** Lines 258-279: the reranking pass over the candidates.  The loop
    [for c, s in zip(candidates, scores): c["cross_score"] = s] writes into
    the first [len(scores)] candidates and leaves the others alone. *)
Definition rerank (query_text : string) (candidates : list Dict)
    (top_k : Z) : Tool (list Dict) :=
  match candidates with
  | [] => ret []
  | _ =>
      query_doc_pairs <-
        mapM (fun c => s <- getitem c "summary" ;; ret (query_text, s))
             candidates ;;
      scores <- cross_encoder_predict query_doc_pairs ;;
      let candidates :=
        map (fun cs => set_key "cross_score" (VNum (snd cs)) (fst cs))
            (combine candidates scores)
        ++ skipn (List.length scores) candidates in
      keyed <-
        mapM (fun c => v <- getitem c "cross_score" ;;
                       k <- as_number v ;; ret (k, c))
             candidates ;;
      let reranked_results := map snd (sorted_desc Qltb fst keyed) in
      ret (slice_to top_k reranked_results)
  end.

(** Lines 245-279. *)
Definition hybrid_rerank_search (query_text : string) (top_k rrf_k : Z)
    : Tool (list Dict) :=
  candidates <- hybrid_rrf_search query_text (top_k * 3) rrf_k ;;
  rerank query_text candidates top_k.
End Fusion.
End Tools.

(** * The vocabulary of the statements *)

(** ** Order of a sorted list *)

Section Order.
Context {A K : Type} (ltb : K -> K -> bool) (key : A -> K).

(** [x] may stand before [y]: the key of [x] is not below that of [y]. *)
Definition not_below (x y : A) : Prop := ltb (key x) (key y) = false.

(** The key of [x] ties with [k]. *)
Definition tied (k : K) (x : A) : bool :=
  negb (ltb k (key x)) && negb (ltb (key x) k).
End Order.

(** A comparison [ltb] that is the strict part of a total preorder. *)
Record strict_weak {K : Type} (ltb : K -> K -> bool) : Prop := mkStrictWeak {
  sw_asym : forall x y, ltb x y = true -> ltb y x = false;
  sw_negtrans : forall x y z, ltb x z = true -> ltb x y = true \/ ltb y z = true
}.

(** ** Well-formed graphs and the worlds the tools can build *)

(** What every graph the tools build satisfies: references name one node,
    relationships join nodes that are there, a project id names at most
    one Project, and a Project has at most one latest Summary. *)
Record wf (g : Graph) : Prop := mkWf {
  wf_refs : NoDup (refs g);
  wf_closed : forall e, In e (rels g) ->
                        In (rel_src e) (refs g) /\ In (rel_dst e) (refs g);
  wf_project : forall pid, List.length (match_project g pid) <= 1;
  wf_latest : forall p, List.length (match_latest g p) <= 1
}.

(** The latest Summaries of the project [pid]: the targets of the
    HAS_LATEST_SUMMARY relationships of its Project node. *)
Definition latest_summaries (g : Graph) (pid : string) : list nat :=
  flat_map (match_latest g) (match_project g pid).

(** What [MATCH (p:Project)-[:HAS_SUMMARY]->(n)] finds on one relationship:
    the id of [n] and the record returned for the match. *)
Definition link_of (g : Graph) (e : Rel) : list (Value * Dict) :=
  match find_node g (rel_src e), find_node g (rel_dst e) with
  | Some p, Some n =>
      if is_rel HAS_SUMMARY e && is_project p
      then [(prop_id n,
             [("id", prop_id p);
              ("question", prop_question p);
              ("summary", prop_text n)])]
      else []
  | _, _ => []
  end.

(** The matches in the order of the store. *)
Definition summary_links (g : Graph) : list (Value * Dict) :=
  flat_map (link_of g) (rels g).

(** No id is reached twice: ids name one Summary, and a Summary belongs
    to one Project. *)
Definition unique_summary_ids (g : Graph) : Prop :=
  NoDup (map fst (summary_links g)).

Definition is_ok {A : Type} (r : Outcome A) : bool :=
  match r with Ok _ => true | Raise _ => false end.

(** The project id a call works on and the number of UUIDs drawn once it
    is chosen. *)
Definition chosen_project_id (C : Collaborators) (project_id : option string)
    (w : World) : string * nat :=
  match project_id with
  | None => (uuid4_at C (draws w), S (draws w))
  | Some EmptyString => (uuid4_at C (draws w), S (draws w))
  | Some pid => (pid, draws w)
  end.

(** The outcome and the world after each call of a sequence of
    [upsert_project_tool(name, question, summary, project_id=pid)]. *)
Fixpoint upsert_all (C : Collaborators) (pid : string)
    (calls : list (string * string * string)) (w : World)
    : list (Outcome string * World) :=
  match calls with
  | [] => []
  | (name, question, summary) :: rest =>
      let rw := upsert_project_tool C name question summary (Some pid) w in
      rw :: upsert_all C pid rest (snd rw)
  end.

(** The worlds the tools can build from the empty store when no UUID is
    drawn twice for a Summary: upserts and deletes, in any order. *)
Inductive reachable (C : Collaborators) : World -> Prop :=
| reachable_initial : reachable C initial_world
| reachable_upsert (w : World) (name question summary : string)
    (project_id : option string) :
    reachable C w ->
    ~ In (VStr (uuid4_at C (snd (chosen_project_id C project_id w))))
         (map prop_id (nodes (graph w))) ->
    reachable C (snd (upsert_project_tool C name question summary project_id w))
| reachable_delete (w : World) (project_id : string) :
    reachable C w ->
    reachable C (snd (delete_project_tool C project_id w)).

(** ** The upsert statement on a well-formed graph *)

(** The new Summary and the relationships the statement adds for one row. *)
Definition upsert_links (p s : nat) (olds : list nat) : list Rel :=
  [mkRel HAS_LATEST_SUMMARY p s; mkRel HAS_SUMMARY p s]
  ++ map (fun o => mkRel PREVIOUS_VERSION s o) olds.

Definition not_old_latest (p : nat) (olds : list nat) (e : Rel) : bool :=
  negb (existsb (rel_eqb e) (map (fun o => mkRel HAS_LATEST_SUMMARY p o) olds)).

(** What [MERGE (p:Project {id}) SET ...] leaves on a well-formed graph. *)
Record project_set (pid name question : string) (now : nat)
    (g g1 : Graph) (p : nat) : Prop := mkProjectSet {
  ps_wf : wf g1;
  ps_match : match_project g1 pid = [p];
  ps_old : match_project g pid = [] \/ match_project g pid = [p];
  ps_other : forall pid', pid' <> pid -> match_project g1 pid' = match_project g pid';
  ps_node : find_node g1 p = Some (mkNode p (Project pid name question now));
  ps_rels : rels g1 = rels g;
  ps_refs : forall r, In r (refs g) -> In r (refs g1);
  ps_summary : forall r n, is_summary n = true ->
                           (find_node g1 r = Some n <-> find_node g r = Some n);
  ps_latest : forall p', match_latest g1 p' = match_latest g p';
  ps_links : map fst (summary_links g1) = map fst (summary_links g)
}.

(** The graph after the statement, from the graph [g1] after its MERGE. *)
Definition attached (now : nat) (text : string) (emb : Embedding)
    (sid : string) (p : nat) (g1 : Graph) : Graph :=
  let s := fresh_ref g1 in
  let olds := match_latest g1 p in
  mkGraph (nodes g1 ++ [mkNode s (Summary sid text emb now)])
          (filter (not_old_latest p olds) (rels g1) ++ upsert_links p s olds).

(** ** The fusion as a fold, and the score of the specification *)

(** Lines 220-222 for one item: [setdefault], then [+=]. *)
Definition rrf_bump (A : Arith) (rrf_k rank : Z) (node_id : Value)
    (d : list (Value * num A)) : list (Value * num A) :=
  scores_update node_id (fun s => add A s (one_over A (rrf_k + rank)))
                (setdefault node_id (zero A) d).

(** The dict after one loop over items with these ids, from rank [rank]
    on, when nothing raises. *)
Fixpoint rrf_accumulate (A : Arith) (rrf_k rank : Z) (ids : list Value)
    (d : list (Value * num A)) : list (Value * num A) :=
  match ids with
  | [] => d
  | id :: rest => rrf_accumulate A rrf_k (rank + 1) rest (rrf_bump A rrf_k rank id d)
  end.

(** Lines 216-235 on the ids of the two result lists, [first] being the
    list whose loop runs first: the ranked ids handed to the hydration. *)
Definition fuse (A : Arith) (rrf_k top_k : Z) (first second : list Value)
    : list Value :=
  top_ranked A top_k
    (rrf_accumulate A rrf_k 1 second (rrf_accumulate A rrf_k 1 first [])).

Definition node_id_of (item : Dict) : Value :=
  match lookup "node_id" item with
  | Some v => v
  | None => VNone
  end.

Definition node_ids (results : list Dict) : list Value := map node_id_of results.

(** No rank of a list of [n] items makes the denominator [rrf_k + rank]
    zero. *)
Definition no_zero_division (rrf_k : Z) (n : nat) : Prop :=
  forall rank, (1 <= rank <= Z.of_nat n)%Z -> (rrf_k + rank <> 0)%Z.

(** The keys in the order in which they were first seen. *)
Definition first_seen (seen ids : list Value) : list Value :=
  fold_left (fun acc id => if existsb (value_eqb id) acc then acc else acc ++ [id])
            ids seen.

Definition score_of (d : list (Value * Q)) (id : Value) : Q :=
  match scores_get id d with
  | Some v => v
  | None => 0%Q
  end.

(** The ranks (counted from [rank]) at which [id] stands in [ids]. *)
Fixpoint ranks_from (rank : Z) (ids : list Value) (id : Value) : list Z :=
  match ids with
  | [] => []
  | x :: rest =>
      (if value_eqb x id then [rank] else []) ++ ranks_from (rank + 1) rest id
  end.

Definition Qsum (l : list Q) : Q := fold_right Qplus 0%Q l.

(** What one ranked list contributes to an item: [1 / (rrf_k + rank)] for
    each rank the item has in it, nothing when it is absent. *)
Definition rrf_contribution (rrf_k rank : Z) (ids : list Value) (id : Value) : Q :=
  Qsum (map (fun r => (1 / inject_Z (rrf_k + r))%Q) (ranks_from rank ids id)).

(** The RRF score of an item: the sum of what the two lists contribute. *)
Definition spec_rrf_score (rrf_k : Z) (first second : list Value) (id : Value) : Q :=
  (rrf_contribution rrf_k 1 first id + rrf_contribution rrf_k 1 second id)%Q.

(** No two items of the dict have the same score. *)
Fixpoint no_ties (d : list (Value * Q)) : bool :=
  match d with
  | [] => true
  | x :: rest =>
      forallb (fun y => negb (Qeq_bool (snd x) (snd y))) rest && no_ties rest
  end.

(** The world after the two searches and, when there are ids to look up,
    the hydration. *)
Definition after_hybrid (C : Collaborators) (query_text : string) (top_k : Z)
    (ids : list Value) (w : World) : World :=
  let searches :=
    [EvEncode query_text;
     EvRun (QVector (top_k * 2) (encode C query_text) 0);
     EvRun (QFulltext query_text (top_k * 2) 0)] in
  match ids with
  | [] => mkWorld (graph w) (trace w ++ searches) (draws w) (S (S (now w)))
  | _ => mkWorld (graph w) (trace w ++ searches ++ [EvRun (QGetData ids)])
                 (draws w) (S (S (S (now w))))
  end.

Definition asked_for (ids : list Value) (link : Value * Dict) : bool :=
  existsb (value_eqb (fst link)) ids.

(** ** The reranking pass *)

Definition summary_of (c : Dict) : Value :=
  match lookup "summary" c with
  | Some v => v
  | None => VNone
  end.

(** The candidate after [c["cross_score"] = s], [s] being the score of the
    pair (query, summary of [c]). *)
Definition scored (C : Collaborators) (query_text : string) (c : Dict) : Dict :=
  set_key "cross_score" (VNum (score_pair C query_text (summary_of c))) c.

Definition cross_score_of (c : Dict) : Q :=
  match lookup "cross_score" c with
  | Some (VNum s) => s
  | _ => 0%Q
  end.

(** ** Tools that only read *)

(** A step that leaves the store as it found it: the graph and the number
    of UUIDs drawn. *)
Definition keeps_store {A : Type} (t : Tool A) : Prop :=
  forall w, graph (snd (t w)) = graph w /\ draws (snd (t w)) = draws w.

(** The statements without a writing clause. *)
Definition reads_only (q : Query) : bool :=
  match q with
  | QUpsert _ _ _ _ _ _ => false
  | QDelete _ => false
  | _ => true
  end.


(** ** The rows of a search *)

(** The score a search row carries. *)
Definition row_score (row : Dict) : Q :=
  match lookup "score" row with
  | Some (VNum s) => s
  | _ => 0%Q
  end.

(** The row a search returns for a hit of an index. *)
Definition hit_row (hit : Node * Q) : Dict :=
  [("node_id", prop_id (fst hit)); ("summary", prop_text (fst hit));
   ("score", VNum (snd hit))].

(** ** The shape of the history *)

(** Relationships join nodes of the right labels: HAS_SUMMARY and
    HAS_LATEST_SUMMARY go from a Project to a Summary, PREVIOUS_VERSION
    from a Summary to a Summary. *)
Definition typed (g : Graph) : Prop :=
  forall e, In e (rels g) ->
    node_at g (match rel_type e with
               | PREVIOUS_VERSION => is_summary
               | _ => is_project
               end) (rel_src e) = true
    /\ node_at g is_summary (rel_dst e) = true.

(** The latest Summary of a Project is one of its Summaries. *)
Definition latest_is_linked (g : Graph) : Prop :=
  forall e, In e (rels g) -> rel_type e = HAS_LATEST_SUMMARY ->
    In (mkRel HAS_SUMMARY (rel_src e) (rel_dst e)) (rels g).

(** The PREVIOUS_VERSION relationships that leave the node [s]. *)
Definition previous_of (g : Graph) (s : nat) : list Rel :=
  filter (fun e => is_rel PREVIOUS_VERSION e && Nat.eqb (rel_src e) s) (rels g).

(** The PREVIOUS_VERSION relationships go down along [rank]: they form
    no cycle. *)
Definition versions_descend (rank : nat -> nat) (g : Graph) : Prop :=
  forall e, In e (rels g) -> rel_type e = PREVIOUS_VERSION ->
    rank (rel_dst e) < rank (rel_src e).

(** ** One item above another in a ranked list *)

(** [x] stands in [l], and [y] stands below it or not at all. *)
Definition ranked_above (l : list Value) (x y : Value) : Prop :=
  exists i, nth_error l i = Some x /\ forall j, nth_error l j = Some y -> i < j.

(** [x] does no worse than [y] in [l]: it is ranked above [y], or neither
    is in [l]. *)
Definition not_ranked_below (l : list Value) (x y : Value) : Prop :=
  ranked_above l x y \/ (~ In x l /\ ~ In y l).

(** ** The chain of versions *)

(** [version_chain g s l]: following PREVIOUS_VERSION from the node [s],
    one relationship at a time, until a node that has none, visits the
    nodes [l], [s] first. *)
Inductive version_chain (g : Graph) : nat -> list nat -> Prop :=
| version_chain_end (s : nat) :
    previous_of g s = [] -> version_chain g s [s]
| version_chain_step (s o : nat) (l : list nat) :
    previous_of g s = [mkRel PREVIOUS_VERSION s o] ->
    version_chain g o l -> version_chain g s (s :: l).

(** The world after a sequence of calls
    [upsert_project_tool(name, question, summary, project_id=pid)]. *)
Fixpoint after_upserts (C : Collaborators) (pid : string)
    (calls : list (string * string * string)) (w : World) : World :=
  match calls with
  | [] => w
  | (name, question, summary) :: rest =>
      after_upserts C pid rest
        (snd (upsert_project_tool C name question summary (Some pid) w))
  end.

(** The texts of the nodes [l]. *)
Definition texts (g : Graph) (l : list nat) : list Value :=
  map (node_value g prop_text) l.

(** ** Sample collaborators and worlds, for the concrete runs *)

(** An embedding that keeps the text: its character codes. *)
Fixpoint char_codes (s : string) : Embedding :=
  match s with
  | EmptyString => []
  | String c s' => inject_Z (Z.of_nat (nat_of_ascii c)) :: char_codes s'
  end.

Definition sample_uuid (n : nat) : string :=
  String "u" (String (ascii_of_nat (48 + n)) EmptyString).

Definition sample_collaborators : Collaborators :=
  mkCollaborators char_codes (fun _ _ _ => []) (fun _ _ => [])
                  (fun _ _ => 0%Q) sample_uuid.

(** A world with one project that has two summaries. *)
Definition two_summaries_world : World :=
  snd (upsert_project_tool sample_collaborators "A" "q2" "s2" (Some "P1")
         (snd (upsert_project_tool sample_collaborators "A" "q1" "s1" (Some "P1")
                 initial_world))).

(** The Summary nodes of [g] with the id [id], each with the score [sc]. *)
Definition hits_for (g : Graph) (ranking : list (string * Q)) : list (Node * Q) :=
  flat_map (fun entry =>
              map (fun n => (n, snd entry))
                  (filter (fun n => is_summary n
                                    && value_eqb (prop_id n) (VStr (fst entry)))
                          (nodes g)))
           ranking.

(** The vector index ranks u1 above u2, the full-text index scores u0 above
    u1, the cross-encoder scores a document by its first character. *)
Definition ranking_collaborators : Collaborators :=
  mkCollaborators
    char_codes
    (fun g _ _ => hits_for g [("u1", 9 # 10); ("u2", 1 # 2)]%Q)
    (fun g _ => hits_for g [("u1", 3 # 2); ("u0", 3 # 1)]%Q)
    (fun _ doc => match doc with
                  | VStr (String c _) => inject_Z (Z.of_nat (nat_of_ascii c))
                  | _ => 0%Q
                  end)
    sample_uuid.

(** One project with the summaries a (id u0), b (id u1), c (id u2), stored
    in this order. *)
Definition three_summaries_world : World :=
  snd (upsert_project_tool ranking_collaborators "A" "q" "c" (Some "P1")
    (snd (upsert_project_tool ranking_collaborators "A" "q" "b" (Some "P1")
      (snd (upsert_project_tool ranking_collaborators "A" "q" "a" (Some "P1")
              initial_world))))).

(** An encoder that reads the first three characters of the text only. *)
Definition prefix_codes (s : string) : Embedding :=
  char_codes (substring 0 3 s).

Definition prefix_collaborators : Collaborators :=
  mkCollaborators prefix_codes (fun _ _ _ => []) (fun _ _ => [])
                  (fun _ _ => 0%Q) sample_uuid.

(** Two ranked lists of 80 ids each: [x] stands at the ranks 3 and 80, [y]
    at the ranks 24 and 30, the other ids are numbers that come once. *)
Definition numbered (start n : nat) : list Value :=
  map (fun i => VNum (inject_Z (Z.of_nat i))) (seq start n).

(** [l] with [v] in the place of the item of rank [rank]. *)
Definition put (rank : nat) (v : Value) (l : list Value) : list Value :=
  firstn (rank - 1) l ++ v :: skipn rank l.

Definition tie_vector : list Value :=
  put 24 (VStr "y") (put 3 (VStr "x") (numbered 1 80)).

Definition tie_fulltext : list Value :=
  put 30 (VStr "y") (put 80 (VStr "x") (numbered 101 80)).

(** The items of [l] that are among [keep], in the order of [l]. *)
Definition only (keep : list Value) (l : list Value) : list Value :=
  filter (fun v => existsb (value_eqb v) keep) l.

(** * Properties *)

(** ** Equality tests *)

Lemma reltype_eqb_spec (a b : RelType) : reflect (a = b) (reltype_eqb a b).
Proof. destruct a, b; simpl; constructor; congruence. Qed.

Lemma rel_eqb_spec (a b : Rel) : reflect (a = b) (rel_eqb a b).
Proof.
  destruct a as [t s d], b as [t' s' d']; unfold rel_eqb; simpl.
  destruct (reltype_eqb_spec t t'), (Nat.eqb_spec s s'), (Nat.eqb_spec d d');
    simpl; constructor; congruence.
Qed.

Lemma value_eqb_spec (a b : Value) : reflect (a = b) (value_eqb a b).
Proof.
  destruct a as [|s|[n d]|t], b as [|s'|[n' d']|t']; simpl;
    try (constructor; congruence).
  - destruct (String.eqb_spec s s'); constructor; congruence.
  - destruct (Z.eqb_spec n n'), (Pos.eqb_spec d d'); simpl;
      constructor; congruence.
  - destruct (Nat.eqb_spec t t'); constructor; congruence.
Qed.

Lemma value_eqb_refl (a : Value) : value_eqb a a = true.
Proof. destruct (value_eqb_spec a a); congruence. Qed.

Lemma mem_ref_In (r : nat) (rs : list nat) : mem_ref r rs = true <-> In r rs.
Proof.
  unfold mem_ref. rewrite existsb_exists. split.
  - intros [x [Hx Heq]]. apply Nat.eqb_eq in Heq. now subst.
  - intros H. exists r. split; [assumption | apply Nat.eqb_refl].
Qed.

(** ** List facts used below *)

Lemma filter_all {A : Type} (f : A -> bool) (l : list A) :
  (forall x, In x l -> f x = true) -> filter f l = l.
Proof.
  induction l as [|x l IH]; simpl; intros H; [reflexivity|].
  rewrite (H x (or_introl eq_refl)). f_equal. apply IH. intros y Hy.
  apply H. now right.
Qed.

Lemma filter_none {A : Type} (f : A -> bool) (l : list A) :
  (forall x, In x l -> f x = false) -> filter f l = [].
Proof.
  induction l as [|x l IH]; simpl; intros H; [reflexivity|].
  rewrite (H x (or_introl eq_refl)). apply IH. intros y Hy.
  apply H. now right.
Qed.

Lemma existsb_none {A : Type} (f : A -> bool) (l : list A) :
  (forall x, In x l -> f x = false) -> existsb f l = false.
Proof.
  induction l as [|x l IH]; simpl; intros H; [reflexivity|].
  rewrite (H x (or_introl eq_refl)). apply IH. intros y Hy.
  apply H. now right.
Qed.

Lemma flat_map_ext_in {A B : Type} (f g : A -> list B) (l : list A) :
  (forall x, In x l -> f x = g x) -> flat_map f l = flat_map g l.
Proof.
  induction l as [|x l IH]; simpl; intros H; [reflexivity|].
  rewrite (H x (or_introl eq_refl)), IH; [reflexivity|].
  intros y Hy. apply H. now right.
Qed.

Lemma map_flat_map_ext_in {A B D : Type} (h : B -> D) (f g : A -> list B)
    (l : list A) :
  (forall x, In x l -> map h (f x) = map h (g x)) ->
  map h (flat_map f l) = map h (flat_map g l).
Proof.
  induction l as [|x l IH]; simpl; intros H; [reflexivity|].
  rewrite !map_app, (H x (or_introl eq_refl)), IH; [reflexivity|].
  intros y Hy. apply H. now right.
Qed.

Lemma length_le_1 {A : Type} (l : list A) :
  List.length l <= 1 -> l = [] \/ exists x, l = [x].
Proof.
  destruct l as [|x [|y l]]; simpl; intros H; [now left | right; now exists x | lia].
Qed.

(** ** Well-formed graphs *)

Lemma wf_empty_graph : wf empty_graph.
Proof.
  constructor; simpl; intros; try constructor; try contradiction; auto.
Qed.

Lemma fresh_ref_gt (g : Graph) (r : nat) : In r (refs g) -> r < fresh_ref g.
Proof.
  intros H. unfold fresh_ref.
  assert (Hle : list_max (refs g) <= list_max (refs g)) by lia.
  apply list_max_le in Hle. rewrite Forall_forall in Hle.
  specialize (Hle r H). lia.
Qed.

Lemma fresh_ref_not_in (g : Graph) : ~ In (fresh_ref g) (refs g).
Proof. intros H. apply fresh_ref_gt in H. lia. Qed.

Lemma find_node_In (g : Graph) (r : nat) (n : Node) :
  find_node g r = Some n -> In n (nodes g) /\ node_ref n = r.
Proof.
  unfold find_node. intros H. apply find_some in H.
  destruct H as [H1 H2]. apply Nat.eqb_eq in H2. now split.
Qed.

Lemma find_node_unique (g : Graph) (n : Node) :
  NoDup (refs g) -> In n (nodes g) -> find_node g (node_ref n) = Some n.
Proof.
  unfold find_node, refs. induction (nodes g) as [|m l IH]; simpl.
  - intros _ [].
  - intros Hnd [->|Hin].
    + now rewrite Nat.eqb_refl.
    + inversion Hnd as [|? ? Hm Hl]; subst.
      destruct (Nat.eqb_spec (node_ref m) (node_ref n)) as [E|E].
      * exfalso. apply Hm. rewrite E. now apply in_map.
      * now apply IH.
Qed.

Lemma find_node_none (g : Graph) (r : nat) :
  ~ In r (refs g) -> find_node g r = None.
Proof.
  unfold find_node, refs. intros H.
  destruct (find _ _) eqn:E; [|reflexivity].
  apply find_some in E. destruct E as [E1 E2]. apply Nat.eqb_eq in E2.
  exfalso. apply H. rewrite <- E2. now apply in_map.
Qed.

Lemma node_at_In (g : Graph) (f : Node -> bool) (r : nat) :
  node_at g f r = true <-> exists n, In n (nodes g) /\ node_ref n = r /\ f n = true.
Proof.
  unfold node_at. rewrite existsb_exists. split.
  - intros [n [Hn H]]. apply andb_true_iff in H. destruct H as [H1 H2].
    apply Nat.eqb_eq in H1. now exists n.
  - intros [n [Hn [H1 H2]]]. exists n. split; [assumption|].
    apply andb_true_iff. split; [now apply Nat.eqb_eq | assumption].
Qed.

Lemma node_at_refs (g : Graph) (f : Node -> bool) (r : nat) :
  node_at g f r = true -> In r (refs g).
Proof.
  intros H. apply node_at_In in H. destruct H as [n [Hn [<- _]]].
  now apply in_map.
Qed.
(** ** The upsert statement on a well-formed graph *)

Lemma match_latest_In (g : Graph) (p o : nat) :
  In o (match_latest g p) <->
  In (mkRel HAS_LATEST_SUMMARY p o) (rels g) /\ node_at g is_summary o = true.
Proof.
  unfold match_latest. rewrite in_map_iff. split.
  - intros [e [<- He]]. apply filter_In in He. destruct He as [He H].
    apply andb_true_iff in H. destruct H as [H H3].
    apply andb_true_iff in H. destruct H as [H1 H2].
    apply Nat.eqb_eq in H2. unfold is_rel in H1.
    destruct (reltype_eqb_spec (rel_type e) HAS_LATEST_SUMMARY) as [Ht|]; [|discriminate].
    destruct e as [t s d]; simpl in *. subst. now split.
  - intros [He Hs]. exists (mkRel HAS_LATEST_SUMMARY p o). split; [reflexivity|].
    apply filter_In. split; [assumption|]. simpl.
    now rewrite Nat.eqb_refl, Hs.
Qed.

Lemma merge_rel_new (e : Rel) (g : Graph) :
  ~ In e (rels g) -> merge_rel e g = add_rels [e] g.
Proof.
  intros H. unfold merge_rel.
  rewrite existsb_none; [reflexivity|].
  intros x Hx. destruct (rel_eqb_spec e x); [subst; contradiction | reflexivity].
Qed.

Lemma attach_summary_wf (now : nat) (text : string) (emb : Embedding)
    (sid : string) (p : nat) (g : Graph) :
  wf g -> In p (refs g) ->
  let s := fresh_ref g in
  let olds := match_latest g p in
  let g' :=
    mkGraph (nodes g ++ [mkNode s (Summary sid text emb now)])
            (filter (not_old_latest p olds) (rels g) ++ upsert_links p s olds) in
  attach_summary now text emb sid [p] g =
    (g', [[("project_id", node_value g' prop_id p);
           ("project_name", node_value g' prop_name p);
           ("summary_id", node_value g' prop_id s)]]).
Proof.
  intros Hwf Hp s olds g'. subst g'.
  assert (Hs : forall e, In e (rels g) -> rel_src e <> s /\ rel_dst e <> s).
  { intros e He. apply (wf_closed g Hwf) in He. destruct He as [H1 H2].
    apply fresh_ref_gt in H1, H2. fold s in H1, H2. lia. }
  unfold attach_summary, optional_match_latest. simpl. fold olds.
  rewrite app_nil_r.
  destruct (length_le_1 olds (wf_latest g Hwf p)) as [E|[o E]]; rewrite E; simpl.
  - unfold delete_rels. simpl.
    change (fresh_ref {| nodes := nodes g; rels := filter (fun _ => true) (rels g) |}) with s.
    unfold merge_rels. simpl.
    rewrite filter_all by reflexivity.
    rewrite (merge_rel_new (mkRel HAS_LATEST_SUMMARY p s)).
    2:{ simpl. intros H. apply Hs in H. simpl in H. lia. }
    rewrite (merge_rel_new (mkRel HAS_SUMMARY p s)).
    2:{ simpl. intros H. apply in_app_or in H. destruct H as [H|[H|[]]]; [|discriminate].
        apply Hs in H. simpl in H. lia. }
    unfold add_rels, add_node, not_old_latest, upsert_links. simpl.
    rewrite filter_all by reflexivity. now rewrite <- app_assoc.
  - unfold delete_rels. simpl.
    match goal with |- context [fresh_ref ?g'] => change (fresh_ref g') with s end.
    unfold merge_rels. simpl.
    rewrite (merge_rel_new (mkRel HAS_LATEST_SUMMARY p s)).
    2:{ simpl. intros H. apply filter_In in H. destruct H as [H _]. apply Hs in H. simpl in H. lia. }
    rewrite (merge_rel_new (mkRel HAS_SUMMARY p s)).
    2:{ simpl. intros H. apply in_app_or in H. destruct H as [H|[H|[]]]; [|discriminate].
        apply filter_In in H. destruct H as [H _]. apply Hs in H. simpl in H. lia. }
    rewrite (merge_rel_new (mkRel PREVIOUS_VERSION s o)).
    2:{ simpl. rewrite <- app_assoc. intros H. apply in_app_or in H.
        destruct H as [H|[H|[H|[]]]]; try discriminate.
        apply filter_In in H. destruct H as [H _]. apply Hs in H. simpl in H. lia. }
    unfold add_rels, add_node, not_old_latest, upsert_links. simpl.
    now rewrite <- !app_assoc.
Qed.

Lemma is_project_with_id_true (pid : string) (n : Node) :
  is_project_with_id pid n = true ->
  exists name question t, node_props n = Project pid name question t.
Proof.
  unfold is_project_with_id. destruct (node_props n) as [id name q t|]; [|discriminate].
  intros H. apply String.eqb_eq in H. subst. eauto.
Qed.

Lemma match_latest_ext (g g1 : Graph) :
  rels g1 = rels g ->
  (forall r, node_at g1 is_summary r = node_at g is_summary r) ->
  forall p, match_latest g1 p = match_latest g p.
Proof.
  intros Hr Hs p. unfold match_latest. rewrite Hr. f_equal.
  apply filter_ext. intros e. now rewrite Hs.
Qed.

Lemma find_node_app (ns ms : list Node) (es : list Rel) (r : nat) :
  find_node (mkGraph (ns ++ ms) es) r =
  match find_node (mkGraph ns es) r with
  | Some n => Some n
  | None => find_node (mkGraph ms es) r
  end.
Proof.
  unfold find_node. simpl. induction ns as [|n ns IH]; simpl; [reflexivity|].
  destruct (Nat.eqb (node_ref n) r); [reflexivity | apply IH].
Qed.

Lemma node_at_app (ns ms : list Node) (es : list Rel) (f : Node -> bool) (r : nat) :
  node_at (mkGraph (ns ++ ms) es) f r =
  node_at (mkGraph ns es) f r || node_at (mkGraph ms es) f r.
Proof. unfold node_at. simpl. apply existsb_app. Qed.

Lemma match_project_map (upd : Node -> Node) (ns : list Node) (es : list Rel)
    (pid : string) :
  (forall n, node_ref (upd n) = node_ref n) ->
  (forall n, is_project_with_id pid (upd n) = is_project_with_id pid n) ->
  match_project (mkGraph (map upd ns) es) pid = match_project (mkGraph ns es) pid.
Proof.
  intros Href Hid. unfold match_project. simpl.
  induction ns as [|n ns IH]; simpl; [reflexivity|].
  rewrite Hid. destruct (is_project_with_id pid n); simpl;
    [rewrite Href|]; now rewrite IH.
Qed.

Lemma node_at_map (upd : Node -> Node) (ns : list Node) (es : list Rel)
    (f : Node -> bool) (r : nat) :
  (forall n, node_ref (upd n) = node_ref n) ->
  (forall n, f (upd n) = f n) ->
  node_at (mkGraph (map upd ns) es) f r = node_at (mkGraph ns es) f r.
Proof.
  intros Href Hf. unfold node_at. simpl.
  induction ns as [|n ns IH]; simpl; [reflexivity|].
  now rewrite Href, Hf, IH.
Qed.

Lemma find_node_map (upd : Node -> Node) (ns : list Node) (es : list Rel)
    (r : nat) :
  (forall n, node_ref (upd n) = node_ref n) ->
  find_node (mkGraph (map upd ns) es) r
  = option_map upd (find_node (mkGraph ns es) r).
Proof.
  intros Href. unfold find_node. simpl.
  induction ns as [|n ns IH]; simpl; [reflexivity|].
  rewrite Href. destruct (Nat.eqb (node_ref n) r); [reflexivity | apply IH].
Qed.

Lemma merge_set_project_wf (pid name question : string) (now : nat) (g : Graph) :
  wf g ->
  exists g1 p,
    merge_set_project pid name question now g = (g1, [p])
    /\ project_set pid name question now g g1 p.
Proof.
  intros Hwf. unfold merge_set_project.
  destruct (length_le_1 _ (wf_project g Hwf pid)) as [E|[p E]]; rewrite E.
  - (* no Project with this id: one is created *)
    set (p := fresh_ref g).
    set (g1 := add_node (mkNode p (Project pid name question now)) g).
    exists g1, p.
    split; [reflexivity|].
    assert (Hsum : forall r, node_at g1 is_summary r = node_at g is_summary r).
    { intros r. unfold g1, add_node. rewrite node_at_app. destruct g as [ns es]; simpl.
      unfold node_at at 2. simpl. now rewrite andb_false_r, orb_false_r. }
    assert (Hmp : forall pid', match_project g1 pid'
                     = match_project g pid' ++ (if String.eqb pid pid' then [p] else [])).
    { intros pid'. unfold match_project, g1, add_node. simpl. rewrite filter_app, map_app.
      simpl. unfold is_project_with_id at 2. simpl. now destruct (String.eqb pid pid'). }
    constructor.
    + constructor.
      * unfold refs, g1, add_node. simpl. rewrite map_app. simpl.
        apply NoDup_app; [apply (wf_refs g Hwf) | repeat constructor; simpl; tauto |].
        intros x Hx [<-|[]]. now apply fresh_ref_not_in in Hx.
      * intros e He. simpl in He. apply (wf_closed g Hwf) in He.
        unfold refs, g1, add_node. simpl. rewrite map_app, !in_app_iff. tauto.
      * intros pid'. rewrite Hmp. rewrite length_app.
        destruct (String.eqb_spec pid pid') as [<-|Hne]; simpl.
        -- rewrite E. simpl. lia.
        -- pose proof (wf_project g Hwf pid'). lia.
      * intros p'. rewrite (match_latest_ext g g1 eq_refl Hsum). apply (wf_latest g Hwf).
    + rewrite Hmp, E, String.eqb_refl. reflexivity.
    + now left.
    + intros pid' Hne. rewrite Hmp.
      destruct (String.eqb_spec pid pid'); [congruence | apply app_nil_r].
    + unfold g1, add_node. clear g1 Hsum Hmp. destruct g as [ns es]. simpl. rewrite find_node_app.
      rewrite (find_node_none (mkGraph ns es) p) by apply fresh_ref_not_in.
      unfold find_node. simpl. now rewrite Nat.eqb_refl.
    + reflexivity.
    + intros r Hr. unfold refs, g1, add_node. simpl. rewrite map_app, in_app_iff. now left.
    + intros r n Hn. unfold g1, add_node. clear g1 Hsum Hmp. destruct g as [ns es]. simpl. rewrite find_node_app. simpl.
      destruct (find_node (mkGraph ns es) r) as [m|] eqn:Em; [tauto|].
      unfold find_node. simpl.
      match goal with |- context [if ?b then _ else _] => destruct b end;
        split; intros H; try discriminate.
      injection H as <-. discriminate.
    + apply match_latest_ext; [reflexivity | apply Hsum].
    + f_equal. unfold summary_links. change (rels g1) with (rels g).
      apply flat_map_ext_in. intros e He.
      destruct (wf_closed g Hwf e He) as [Hs Hd].
      assert (Hfind : forall r, In r (refs g) -> find_node g1 r = find_node g r).
      { intros r Hr. unfold g1, add_node. clear g1 Hsum Hmp.
        destruct g as [ns es]. simpl. rewrite find_node_app.
        destruct (find_node (mkGraph ns es) r) eqn:Ef; [reflexivity|].
        exfalso. unfold refs in Hr. simpl in Hr. apply in_map_iff in Hr.
        destruct Hr as [n [Hn Hin]]. unfold find_node in Ef. simpl in Ef.
        apply (find_none _ _ Ef) in Hin. rewrite Hn, Nat.eqb_refl in Hin.
        discriminate. }
      unfold link_of. now rewrite !Hfind.
  - (* the Project is there: its properties are set *)
    set (upd := fun n : Node => if is_project_with_id pid n
                                then mkNode (node_ref n) (Project pid name question now)
                                else n).
    set (g1 := mkGraph (map upd (nodes g)) (rels g)).
    exists g1, p. split; [reflexivity|].
    assert (Hupd_ref : forall n, node_ref (upd n) = node_ref n).
    { intros n. unfold upd. now destruct (is_project_with_id pid n). }
    assert (Hupd_id : forall pid' n, is_project_with_id pid' (upd n) = is_project_with_id pid' n).
    { intros pid' n. unfold upd. destruct (is_project_with_id pid n) eqn:En; [|reflexivity].
      apply is_project_with_id_true in En. destruct En as [nm [q [t En]]].
      unfold is_project_with_id. simpl. now rewrite En. }
    assert (Hupd_sum : forall n, is_summary n = true -> upd n = n).
    { intros n Hn. unfold upd. destruct (is_project_with_id pid n) eqn:En; [|reflexivity].
      apply is_project_with_id_true in En. destruct En as [nm [q [t En]]].
      unfold is_summary in Hn. rewrite En in Hn. discriminate. }
    assert (Hupd_sum' : forall n, is_summary (upd n) = is_summary n).
    { intros n. unfold upd. destruct (is_project_with_id pid n) eqn:En; [|reflexivity].
      apply is_project_with_id_true in En. destruct En as [nm [q [t En]]].
      unfold is_summary. simpl. now rewrite En. }
    assert (Hrefs : refs g1 = refs g).
    { unfold refs, g1. simpl. rewrite map_map. apply map_ext. apply Hupd_ref. }
    assert (Hmp : forall pid', match_project g1 pid' = match_project g pid').
    { intros pid'. unfold g1. destruct g as [ns es]. simpl.
      apply match_project_map; [apply Hupd_ref | apply Hupd_id]. }
    assert (Hsum : forall r, node_at g1 is_summary r = node_at g is_summary r).
    { intros r. unfold g1. destruct g as [ns es]. simpl.
      apply node_at_map; [apply Hupd_ref | apply Hupd_sum']. }
    assert (Hfind : forall r, find_node g1 r = option_map upd (find_node g r)).
    { intros r. unfold g1. destruct g as [ns es]. simpl.
      apply find_node_map. apply Hupd_ref. }
    constructor.
    + constructor.
      * rewrite Hrefs. apply (wf_refs g Hwf).
      * rewrite Hrefs. apply (wf_closed g Hwf).
      * intros pid'. rewrite Hmp. apply (wf_project g Hwf).
      * intros p'. rewrite (match_latest_ext g g1 eq_refl Hsum). apply (wf_latest g Hwf).
    + now rewrite Hmp.
    + now right.
    + intros pid' _. apply Hmp.
    + rewrite Hfind.
      assert (Hin : In p (match_project g pid)) by (rewrite E; now left).
      unfold match_project in Hin. apply in_map_iff in Hin.
      destruct Hin as [n [Hn Hin]]. apply filter_In in Hin. destruct Hin as [Hin Hid].
      subst p. rewrite (find_node_unique g n (wf_refs g Hwf) Hin). simpl.
      unfold upd. now rewrite Hid.
    + reflexivity.
    + intros r. now rewrite Hrefs.
    + intros r n Hn. rewrite Hfind. destruct (find_node g r) as [m|]; simpl; [|tauto].
      split; intros H; injection H as H.
      * assert (Hm : is_summary m = true) by (rewrite <- Hupd_sum', H; exact Hn).
        rewrite (Hupd_sum m Hm) in H. now subst.
      * subst m. now rewrite (Hupd_sum n Hn).
    + apply match_latest_ext; [reflexivity | apply Hsum].
    + unfold summary_links. change (rels g1) with (rels g).
      apply map_flat_map_ext_in. intros e _. unfold link_of. rewrite !Hfind.
      destruct (find_node g (rel_src e)) as [a|], (find_node g (rel_dst e)) as [b|];
        try reflexivity; simpl.
      assert (Hproj : is_project (upd a) = is_project a).
      { unfold upd. destruct (is_project_with_id pid a) eqn:Ea; [|reflexivity].
        apply is_project_with_id_true in Ea. destruct Ea as [nm [q [t Ea]]].
        unfold is_project. simpl. now rewrite Ea. }
      assert (Hid : prop_id (upd b) = prop_id b).
      { unfold upd. destruct (is_project_with_id pid b) eqn:Eb; [|reflexivity].
        apply is_project_with_id_true in Eb. destruct Eb as [nm [q [t Eb]]].
        unfold prop_id. simpl. now rewrite Eb. }
      rewrite Hproj. destruct (is_rel HAS_SUMMARY e && is_project a); simpl;
        [now rewrite Hid | reflexivity].
Qed.

Lemma not_old_latest_false (p : nat) (olds : list nat) (e : Rel) :
  not_old_latest p olds e = false <->
  exists o, In o olds /\ e = mkRel HAS_LATEST_SUMMARY p o.
Proof.
  unfold not_old_latest. rewrite negb_false_iff, existsb_exists. split.
  - intros [x [Hx He]]. apply in_map_iff in Hx. destruct Hx as [o [<- Ho]].
    exists o. split; [assumption|]. now destruct (rel_eqb_spec e (mkRel HAS_LATEST_SUMMARY p o)).
  - intros [o [Ho ->]]. exists (mkRel HAS_LATEST_SUMMARY p o). split.
    + now apply in_map.
    + now destruct (rel_eqb_spec (mkRel HAS_LATEST_SUMMARY p o) (mkRel HAS_LATEST_SUMMARY p o)).
Qed.

Lemma node_at_attached (now : nat) (text : string) (emb : Embedding)
    (sid : string) (p : nat) (g1 : Graph) (r : nat) :
  node_at (attached now text emb sid p g1) is_summary r
  = node_at g1 is_summary r || Nat.eqb (fresh_ref g1) r.
Proof.
  unfold attached. rewrite node_at_app. f_equal.
  unfold node_at. simpl. now rewrite andb_true_r, orb_false_r.
Qed.

Lemma match_latest_attached_self (now : nat) (text : string) (emb : Embedding)
    (sid : string) (p : nat) (g1 : Graph) :
  wf g1 -> In p (refs g1) ->
  match_latest (attached now text emb sid p g1) p = [fresh_ref g1].
Proof.
  intros Hwf Hp. unfold match_latest at 1.
  set (g' := attached now text emb sid p g1).
  change (rels g') with (filter (not_old_latest p (match_latest g1 p)) (rels g1)
                         ++ upsert_links p (fresh_ref g1) (match_latest g1 p)).
  rewrite filter_app, map_app.
  rewrite filter_none.
  - simpl. unfold upsert_links. simpl. rewrite Nat.eqb_refl. simpl.
    unfold g'. rewrite node_at_attached, Nat.eqb_refl, orb_true_r. simpl.
    rewrite filter_none; [reflexivity|].
    intros e He. apply in_map_iff in He. destruct He as [o [<- _]]. reflexivity.
  - intros e He. apply filter_In in He. destruct He as [He Hkeep].
    destruct (is_rel HAS_LATEST_SUMMARY e) eqn:Et; [|reflexivity].
    destruct (Nat.eqb_spec (rel_src e) p) as [Es|]; [|reflexivity]. simpl.
    unfold g'. rewrite node_at_attached.
    pose proof (wf_closed g1 Hwf e He) as [_ Hd]. apply fresh_ref_gt in Hd.
    destruct (Nat.eqb_spec (fresh_ref g1) (rel_dst e)) as [Ef|_]; [lia|].
    rewrite orb_false_r.
    destruct (node_at g1 is_summary (rel_dst e)) eqn:En; [|reflexivity].
    exfalso.
    assert (Hf : not_old_latest p (match_latest g1 p) e = false).
    { apply not_old_latest_false. exists (rel_dst e). split.
      - apply match_latest_In. split; [|assumption].
        unfold is_rel in Et.
        destruct (reltype_eqb_spec (rel_type e) HAS_LATEST_SUMMARY) as [Ht|]; [|discriminate].
        destruct e as [t a b]; simpl in *. now subst.
      - unfold is_rel in Et.
        destruct (reltype_eqb_spec (rel_type e) HAS_LATEST_SUMMARY) as [Ht|]; [|discriminate].
        destruct e as [t a b]; simpl in *. now subst. }
    congruence.
Qed.

Lemma filter_filter_ext {A : Type} (k f f' : A -> bool) (l : list A) :
  (forall x, In x l -> k x = true -> f x = f' x) ->
  (forall x, In x l -> k x = false -> f' x = false) ->
  filter f (filter k l) = filter f' l.
Proof.
  induction l as [|x l IH]; simpl; intros H1 H2; [reflexivity|].
  destruct (k x) eqn:Ek; simpl.
  - rewrite (H1 x (or_introl eq_refl) Ek).
    destruct (f' x); [f_equal|]; apply IH; auto.
  - rewrite (H2 x (or_introl eq_refl) Ek). apply IH; auto.
Qed.

Lemma match_latest_attached_other (now : nat) (text : string) (emb : Embedding)
    (sid : string) (p p' : nat) (g1 : Graph) :
  wf g1 -> p' <> p ->
  match_latest (attached now text emb sid p g1) p' = match_latest g1 p'.
Proof.
  intros Hwf Hne. unfold match_latest.
  set (g' := attached now text emb sid p g1).
  change (rels g') with (filter (not_old_latest p (match_latest g1 p)) (rels g1)
                         ++ upsert_links p (fresh_ref g1) (match_latest g1 p)).
  rewrite filter_app, map_app.
  rewrite (filter_none _ (upsert_links _ _ _)).
  - rewrite app_nil_r. f_equal. apply filter_filter_ext.
    + intros e He _. unfold g'. rewrite node_at_attached.
      pose proof (wf_closed g1 Hwf e He) as [_ Hd]. apply fresh_ref_gt in Hd.
      destruct (Nat.eqb_spec (fresh_ref g1) (rel_dst e)) as [Ef|_]; [lia|].
      now rewrite orb_false_r.
    + intros e He Hk. apply not_old_latest_false in Hk.
      destruct Hk as [o [_ ->]]. simpl.
      destruct (Nat.eqb_spec p p'); [congruence | reflexivity].
  - intros e He. unfold upsert_links in He. simpl in He.
    destruct He as [<-|[<-|He]]; simpl.
    + destruct (Nat.eqb_spec p p'); [congruence | reflexivity].
    + reflexivity.
    + apply in_map_iff in He. destruct He as [o [<- _]]. reflexivity.
Qed.

Lemma match_project_attached (now : nat) (text : string) (emb : Embedding)
    (sid : string) (p : nat) (g1 : Graph) (pid : string) :
  match_project (attached now text emb sid p g1) pid = match_project g1 pid.
Proof.
  unfold match_project, attached. simpl. rewrite filter_app, map_app. simpl.
  apply app_nil_r.
Qed.

Lemma attached_wf (now : nat) (text : string) (emb : Embedding)
    (sid : string) (p : nat) (g1 : Graph) :
  wf g1 -> In p (refs g1) -> wf (attached now text emb sid p g1).
Proof.
  intros Hwf Hp.
  assert (Hrefs : refs (attached now text emb sid p g1) = refs g1 ++ [fresh_ref g1]).
  { unfold refs, attached. simpl. now rewrite map_app. }
  constructor.
  - rewrite Hrefs. apply NoDup_app; [apply (wf_refs g1 Hwf) | repeat constructor; simpl; tauto |].
    intros x Hx [<-|[]]. now apply fresh_ref_not_in in Hx.
  - intros e He. rewrite Hrefs, !in_app_iff. unfold attached in He. simpl in He.
    apply in_app_or in He. destruct He as [He|He].
    + apply filter_In in He. destruct He as [He _].
      apply (wf_closed g1 Hwf) in He. tauto.
    + unfold upsert_links in He. simpl in He.
      destruct He as [<-|[<-|He]]; simpl; try tauto.
      apply in_map_iff in He. destruct He as [o [<- Ho]]. simpl.
      apply match_latest_In in Ho. destruct Ho as [_ Ho].
      apply node_at_refs in Ho. tauto.
  - intros pid. rewrite match_project_attached. apply (wf_project g1 Hwf).
  - intros p'. destruct (Nat.eq_dec p' p) as [->|Hne].
    + rewrite match_latest_attached_self by assumption. simpl. lia.
    + rewrite match_latest_attached_other by assumption. apply (wf_latest g1 Hwf).
Qed.

Lemma find_node_attached_old (now : nat) (text : string) (emb : Embedding)
    (sid : string) (p : nat) (g1 : Graph) (r : nat) :
  In r (refs g1) ->
  find_node (attached now text emb sid p g1) r = find_node g1 r.
Proof.
  intros Hr. unfold attached. rewrite find_node_app.
  destruct g1 as [ns es]. simpl.
  change (find_node (mkGraph ns (filter _ es ++ _)) r) with (find_node (mkGraph ns es) r).
  destruct (find_node (mkGraph ns es) r) eqn:E; [reflexivity|].
  exfalso. unfold find_node in E. simpl in E.
  unfold refs in Hr. simpl in Hr. apply in_map_iff in Hr. destruct Hr as [n [Hn Hin]].
  apply (find_none _ _ E) in Hin. rewrite Hn, Nat.eqb_refl in Hin. discriminate.
Qed.

Lemma find_node_attached_new (now : nat) (text : string) (emb : Embedding)
    (sid : string) (p : nat) (g1 : Graph) :
  find_node (attached now text emb sid p g1) (fresh_ref g1)
  = Some (mkNode (fresh_ref g1) (Summary sid text emb now)).
Proof.
  unfold attached. rewrite find_node_app.
  destruct g1 as [ns es]. simpl.
  change (find_node (mkGraph ns (filter _ es ++ _)) ?r) with (find_node (mkGraph ns es) r).
  rewrite find_node_none by apply fresh_ref_not_in.
  unfold find_node. simpl. now rewrite Nat.eqb_refl.
Qed.

(** The statement on a well-formed graph, in one equation. *)
Lemma cypher_upsert_wf (now : nat) (pid name question text : string)
    (emb : Embedding) (sid : string) (g : Graph) :
  wf g ->
  exists g1 p,
    project_set pid name question now g g1 p
    /\ cypher_upsert now pid name question text emb sid g
       = (attached now text emb sid p g1,
          [[("project_id", VStr pid);
            ("project_name", VStr name);
            ("summary_id", VStr sid)]]).
Proof.
  intros Hwf.
  destruct (merge_set_project_wf pid name question now g Hwf) as [g1 [p [Hm Hps]]].
  exists g1, p. split; [assumption|].
  assert (Hp : In p (refs g1)).
  { pose proof (ps_node _ _ _ _ _ _ _ Hps) as Hn. apply find_node_In in Hn.
    destruct Hn as [Hn _]. now apply (in_map node_ref) in Hn. }
  unfold cypher_upsert. rewrite Hm.
  rewrite (attach_summary_wf now text emb sid p g1 (ps_wf _ _ _ _ _ _ _ Hps) Hp).
  fold (attached now text emb sid p g1). f_equal. f_equal.
  unfold node_value.
  rewrite find_node_attached_new.
  rewrite find_node_attached_old by assumption.
  rewrite (ps_node _ _ _ _ _ _ _ Hps). reflexivity.
Qed.

Lemma node_at_find (g : Graph) (f : Node -> bool) (r : nat) :
  NoDup (refs g) -> node_at g f r = true ->
  exists n, find_node g r = Some n /\ f n = true.
Proof.
  intros Hnd H. apply node_at_In in H. destruct H as [n [Hn [<- Hf]]].
  exists n. split; [now apply find_node_unique | assumption].
Qed.

(** What one upsert statement does to the project's latest Summary. *)
Lemma attached_old_summary (now : nat) (text : string) (emb : Embedding)
    (sid : string) (p : nat) (g1 : Graph) (o : nat) :
  wf g1 -> In o (match_latest g1 p) ->
  let g' := attached now text emb sid p g1 in
  o <> fresh_ref g1
  /\ find_node g' o = find_node g1 o
  /\ (In (mkRel HAS_SUMMARY p o) (rels g1) -> In (mkRel HAS_SUMMARY p o) (rels g'))
  /\ ~ In (mkRel HAS_LATEST_SUMMARY p o) (rels g')
  /\ In (mkRel PREVIOUS_VERSION (fresh_ref g1) o) (rels g').
Proof.
  intros Hwf Ho g'.
  assert (Hin : In o (refs g1)).
  { apply match_latest_In in Ho. destruct Ho as [_ Ho]. now apply node_at_refs in Ho. }
  assert (Hne : o <> fresh_ref g1).
  { intros ->. now apply fresh_ref_not_in in Hin. }
  split; [assumption|]. split; [now apply find_node_attached_old|].
  unfold g', attached. simpl. split; [|split].
  - intros H. apply in_or_app. left. apply filter_In. split; [assumption|].
    destruct (not_old_latest p (match_latest g1 p) (mkRel HAS_SUMMARY p o)) eqn:E; [reflexivity|].
    apply not_old_latest_false in E. destruct E as [x [_ E]]. discriminate.
  - intros H. apply in_app_or in H. destruct H as [H|H].
    + apply filter_In in H. destruct H as [_ H].
      assert (E : not_old_latest p (match_latest g1 p) (mkRel HAS_LATEST_SUMMARY p o) = false).
      { apply not_old_latest_false. now exists o. }
      congruence.
    + unfold upsert_links in H. simpl in H. destruct H as [H|[H|H]]; try discriminate.
      * injection H as H. congruence.
      * apply in_map_iff in H. destruct H as [x [H _]]. discriminate.
  - apply in_or_app. right. unfold upsert_links. simpl. right. right.
    apply in_map_iff. now exists o.
Qed.

(** ** The tools on a well-formed graph *)

Lemma upsert_project_tool_wf (C : Collaborators) (name question summary : string)
    (project_id : option string) (w : World) :
  wf (graph w) ->
  let pid := fst (chosen_project_id C project_id w) in
  let d := snd (chosen_project_id C project_id w) in
  let sid := uuid4_at C d in
  let text := (question ++ newline ++ summary)%string in
  exists g1 p,
    project_set pid name question (now w) (graph w) g1 p
    /\ upsert_project_tool C name question summary project_id w
       = (Ok ("Saved. Project: " ++ name ++ " (" ++ pid ++ "), Summary: " ++ sid)%string,
          mkWorld (attached (now w) summary (encode C text) sid p g1)
                  (trace w ++ [EvEncode text;
                               EvRun (QUpsert pid name question summary
                                              (encode C text) sid)])
                  (S d) (S (now w))).
Proof.
  intros Hwf pid d sid text.
  destruct (cypher_upsert_wf (now w) pid name question summary (encode C text) sid
              (graph w) Hwf) as [g1 [p [Hps Heq]]].
  exists g1, p. split; [assumption|].
  unfold upsert_project_tool, bind.
  assert (Hid : (match project_id with
                 | None => uuid4 C
                 | Some EmptyString => uuid4 C
                 | Some pid0 => ret pid0
                 end) w = (Ok pid, mkWorld (graph w) (trace w) d (now w))).
  { unfold pid, d, chosen_project_id, uuid4, ret.
    destruct project_id as [[|a s]|]; simpl; try reflexivity.
    now destruct w. }
  rewrite Hid. unfold model_encode, bind, emit, ret, uuid4, session_run, cypher.
  cbn [graph trace draws now]. fold text. fold sid. rewrite Heq.
  simpl. rewrite <- app_assoc. reflexivity.
Qed.

(** ** Sequences of upserts on one project *)

Lemma chosen_project_id_some (C : Collaborators) (pid : string) (w : World) :
  pid <> EmptyString -> chosen_project_id C (Some pid) w = (pid, draws w).
Proof. destruct pid; [congruence | reflexivity]. Qed.

Lemma upsert_step (C : Collaborators) (pid name question summary : string)
    (w : World) :
  pid <> EmptyString -> wf (graph w) ->
  let rw := upsert_project_tool C name question summary (Some pid) w in
  let w' := snd rw in
  is_ok (fst rw) = true
  /\ wf (graph w')
  /\ exists p s,
       match_project (graph w') pid = [p]
       /\ latest_summaries (graph w') pid = [s]
       /\ ~ In s (refs (graph w))
       /\ find_node (graph w') s
          = Some (mkNode s (Summary (uuid4_at C (draws w)) summary
                                    (encode C (question ++ newline ++ summary)%string)
                                    (now w)))
       /\ In (mkRel HAS_SUMMARY p s) (rels (graph w'))
       /\ forall o, In o (latest_summaries (graph w) pid) ->
            o <> s
            /\ find_node (graph w') o = find_node (graph w) o
            /\ node_at (graph w') is_summary o = true
            /\ (In (mkRel HAS_SUMMARY p o) (rels (graph w)) ->
                In (mkRel HAS_SUMMARY p o) (rels (graph w')))
            /\ ~ In (mkRel HAS_LATEST_SUMMARY p o) (rels (graph w'))
            /\ In (mkRel PREVIOUS_VERSION s o) (rels (graph w')).
Proof.
  intros Hpid Hwf rw w'.
  destruct (upsert_project_tool_wf C name question summary (Some pid) w Hwf)
    as [g1 [p [Hps Heq]]].
  rewrite (chosen_project_id_some C pid w Hpid) in Hps, Heq. cbn [fst snd] in Hps, Heq.
  unfold w', rw. rewrite Heq. cbn [fst snd graph is_ok]. clear rw w'.
  set (text := (question ++ newline ++ summary)%string) in *.
  set (sid := uuid4_at C (draws w)) in *.
  set (g' := attached (now w) summary (encode C text) sid p g1).
  pose proof (ps_wf _ _ _ _ _ _ _ Hps) as Hwf1.
  assert (Hp : In p (refs g1)).
  { pose proof (ps_node _ _ _ _ _ _ _ Hps) as Hn. apply find_node_In in Hn.
    destruct Hn as [Hn _]. now apply (in_map node_ref) in Hn. }
  split; [reflexivity|]. split; [now apply attached_wf|].
  exists p, (fresh_ref g1).
  assert (Hmp : match_project g' pid = [p]).
  { unfold g'. rewrite match_project_attached. apply (ps_match _ _ _ _ _ _ _ Hps). }
  split; [assumption|]. split.
  { unfold latest_summaries. rewrite Hmp. simpl. rewrite app_nil_r.
    now apply match_latest_attached_self. }
  split.
  { intros H. apply (ps_refs _ _ _ _ _ _ _ Hps) in H. now apply fresh_ref_not_in in H. }
  split; [apply find_node_attached_new|]. split.
  { unfold g', attached. simpl. apply in_or_app. right. unfold upsert_links. simpl. tauto. }
  intros o Ho.
  assert (Ho1 : In o (match_latest g1 p)).
  { rewrite (ps_latest _ _ _ _ _ _ _ Hps). unfold latest_summaries in Ho.
    destruct (ps_old _ _ _ _ _ _ _ Hps) as [E|E]; rewrite E in Ho; simpl in Ho.
    - contradiction.
    - now rewrite app_nil_r in Ho. }
  destruct (attached_old_summary (now w) summary (encode C text) sid p g1 o Hwf1 Ho1)
    as [H1 [H2 [H3 [H4 H5]]]].
  assert (Hsum : node_at g1 is_summary o = true).
  { apply match_latest_In in Ho1. tauto. }
  destruct (node_at_find g1 is_summary o (wf_refs g1 Hwf1) Hsum) as [n [Hn Hns]].
  split; [assumption|]. split.
  { unfold g'. rewrite H2, Hn. symmetry. now apply (ps_summary _ _ _ _ _ _ _ Hps). }
  split.
  { unfold g'. rewrite node_at_attached. now rewrite Hsum. }
  split.
  { intros H. apply H3. now rewrite (ps_rels _ _ _ _ _ _ _ Hps). }
  split; assumption.
Qed.

(** C1. After every call of a sequence of [upsert_project_tool] calls on
    one project id, starting from a well-formed graph, the call has
    returned and exactly one Summary node is the target of the project's
    HAS_LATEST_SUMMARY relationship.  Each call creates a new Summary node
    with the given text, makes it the latest one and gives it the
    HAS_SUMMARY relationship; the Summary that was latest before keeps its
    node and its HAS_SUMMARY relationship, loses the HAS_LATEST_SUMMARY one
    and becomes the PREVIOUS_VERSION of the new one. *)
Theorem upsert_exactly_one_latest (C : Collaborators) (pid : string)
    (calls : list (string * string * string)) (w : World) :
  pid <> EmptyString -> wf (graph w) ->
  List.length (upsert_all C pid calls w) = List.length calls
  /\ Forall (fun rw =>
               is_ok (fst rw) = true
               /\ wf (graph (snd rw))
               /\ exists s, latest_summaries (graph (snd rw)) pid = [s]
                            /\ node_at (graph (snd rw)) is_summary s = true)
            (upsert_all C pid calls w)
  /\ forall name question summary,
       let w' := snd (upsert_project_tool C name question summary (Some pid) w) in
       exists p s,
         match_project (graph w') pid = [p]
         /\ latest_summaries (graph w') pid = [s]
         /\ ~ In s (refs (graph w))
         /\ find_node (graph w') s
            = Some (mkNode s (Summary (uuid4_at C (draws w)) summary
                                      (encode C (question ++ newline ++ summary)%string)
                                      (now w)))
         /\ In (mkRel HAS_SUMMARY p s) (rels (graph w'))
         /\ forall o, In o (latest_summaries (graph w) pid) ->
              o <> s
              /\ find_node (graph w') o = find_node (graph w) o
              /\ node_at (graph w') is_summary o = true
              /\ (In (mkRel HAS_SUMMARY p o) (rels (graph w)) ->
                  In (mkRel HAS_SUMMARY p o) (rels (graph w')))
              /\ ~ In (mkRel HAS_LATEST_SUMMARY p o) (rels (graph w'))
              /\ In (mkRel PREVIOUS_VERSION s o) (rels (graph w')).
Proof.
  intros Hpid Hwf. split; [|split].
  - revert w Hwf. induction calls as [|[[name question] summary] rest IH];
      intros w Hwf; simpl; [reflexivity|].
    f_equal. apply IH.
    now destruct (upsert_step C pid name question summary w Hpid Hwf) as [_ [H _]].
  - revert w Hwf. induction calls as [|[[name question] summary] rest IH];
      intros w Hwf; simpl; [constructor|].
    destruct (upsert_step C pid name question summary w Hpid Hwf)
      as [Hok [Hwf' [p [s [_ [Hl [_ [Hs _]]]]]]]].
    constructor.
    + split; [assumption|]. split; [assumption|]. exists s. split; [assumption|].
      apply node_at_In. apply find_node_In in Hs. destruct Hs as [Hs1 Hs2].
      eexists. split; [eassumption|]. split; [assumption | reflexivity].
    + now apply IH.
  - intros name question summary.
    now destruct (upsert_step C pid name question summary w Hpid Hwf) as [_ [_ H]].
Qed.

Lemma upsert_exactly_one_latest_witness :
  "P1" <> EmptyString /\ wf (graph initial_world)
  /\ Forall (fun rw =>
               is_ok (fst rw) = true
               /\ wf (graph (snd rw))
               /\ exists s, latest_summaries (graph (snd rw)) "P1" = [s]
                            /\ node_at (graph (snd rw)) is_summary s = true)
            (upsert_all sample_collaborators "P1"
               [("A", "q1", "s1"); ("A", "q2", "s2"); ("B", "q3", "s3")]
               initial_world).
Proof.
  split; [discriminate|]. split; [exact wf_empty_graph|].
  apply (upsert_exactly_one_latest sample_collaborators "P1"
           [("A", "q1", "s1"); ("A", "q2", "s2"); ("B", "q3", "s3")] initial_world).
  - discriminate.
  - exact wf_empty_graph.
Defined.

(** ** Deleting a project *)

Lemma match_project_nil (g : Graph) (pid : string) :
  match_project g pid = [] <->
  forall n, In n (nodes g) -> is_project_with_id pid n = false.
Proof.
  unfold match_project. split.
  - intros H n Hn. destruct (is_project_with_id pid n) eqn:E; [|reflexivity].
    assert (Hin : In n (filter (is_project_with_id pid) (nodes g)))
      by (apply filter_In; now split).
    apply (in_map node_ref) in Hin. rewrite H in Hin. contradiction.
  - intros H. now rewrite filter_none.
Qed.

Lemma cypher_delete_absent (g : Graph) (pid : string) :
  match_project g pid = [] -> cypher_delete pid g = g.
Proof.
  intros H. unfold cypher_delete. rewrite H.
  rewrite !filter_all; [now destruct g | reflexivity |].
  intros n Hn. apply match_project_nil with (n := n) in H; [|assumption].
  now rewrite H.
Qed.

Lemma match_project_deleted (g : Graph) (pid : string) :
  match_project (cypher_delete pid g) pid = [].
Proof.
  apply match_project_nil. intros n Hn. unfold cypher_delete in Hn. simpl in Hn.
  apply filter_In in Hn. destruct Hn as [_ Hn]. now apply negb_true_iff in Hn.
Qed.

(** The statement removes Project nodes only. *)
Lemma cypher_delete_keeps_summaries (g : Graph) (pid : string) (n : Node) :
  In n (nodes g) -> is_summary n = true -> In n (nodes (cypher_delete pid g)).
Proof.
  intros Hn Hs. unfold cypher_delete. simpl. apply filter_In. split; [assumption|].
  unfold is_summary in Hs. unfold is_project_with_id.
  now destruct (node_props n).
Qed.

Lemma delete_project_tool_run (C : Collaborators) (pid : string) (w : World) :
  delete_project_tool C pid w
  = (Ok true, mkWorld (cypher_delete pid (graph w))
                      (trace w ++ [EvRun (QDelete pid)]) (draws w) (S (now w))).
Proof. reflexivity. Qed.

(** C9. [delete_project_tool] returns [True] without raising, whatever
    the graph holds; on a project id that names no Project it leaves the
    graph as it is; and a second call right after the first returns the
    same value and leaves the graph the first call left. *)
Theorem delete_project_tool_idempotent (C : Collaborators) (pid : string)
    (w : World) :
  let once := delete_project_tool C pid w in
  let twice := delete_project_tool C pid (snd once) in
  fst once = Ok true
  /\ fst twice = fst once
  /\ graph (snd twice) = graph (snd once)
  /\ (match_project (graph w) pid = [] -> graph (snd once) = graph w).
Proof.
  intros once twice. unfold twice, once. rewrite !delete_project_tool_run.
  cbn [fst snd graph]. repeat split.
  - apply cypher_delete_absent. apply match_project_deleted.
  - apply cypher_delete_absent.
Qed.

(** C2. After [delete_project_tool("P1")] on a project with two summaries
    the Project node and its relationships are gone, and both Summary
    nodes and the PREVIOUS_VERSION relationship between them are still in
    the graph. *)
Theorem delete_project_tool_leaves_summaries :
  graph (snd (delete_project_tool sample_collaborators "P1" two_summaries_world))
  = mkGraph [mkNode 2 (Summary "u0" "s1" (char_codes ("q1" ++ newline ++ "s1")) 0);
             mkNode 3 (Summary "u1" "s2" (char_codes ("q2" ++ newline ++ "s2")) 1)]
            [mkRel PREVIOUS_VERSION 3 2].
Proof. reflexivity. Qed.

(** ** The latest summary of a project *)

Lemma get_latest_summary_tool_run (C : Collaborators) (pid : string) (w : World) :
  get_latest_summary_tool C pid w
  = (Ok (match single (cypher_latest pid (graph w)) with
         | Some record => RDict record
         | None => RStr "No project found."
         end),
     mkWorld (graph w) (trace w ++ [EvRun (QLatest pid)]) (draws w) (S (now w))).
Proof.
  unfold get_latest_summary_tool, bind, session_run, cypher. simpl.
  now destruct (single (cypher_latest pid (graph w))).
Qed.

(** C7, as the claim states it, fails: the record has no key ['question']
    (the question is under ['project_name']), and a project that is not
    there yields the string ["No project found."]. *)
Lemma get_latest_summary_tool_no_question_key :
  fst (get_latest_summary_tool sample_collaborators "P1" two_summaries_world)
  = Ok (RDict [("project_id", VStr "P1"); ("project_name", VStr "q2");
               ("latest_summary", VStr "s2"); ("summary_id", VStr "u1")])
  /\ lookup "question"
            [("project_id", VStr "P1"); ("project_name", VStr "q2");
             ("latest_summary", VStr "s2"); ("summary_id", VStr "u1")] = None
  /\ fst (get_latest_summary_tool sample_collaborators "P2" two_summaries_world)
     = Ok (RStr "No project found.").
Proof. repeat split. Qed.

(** C7, amended.  On a well-formed graph [get_latest_summary_tool] does
    not raise and leaves the graph alone.  When the project has a latest
    Summary it returns a record whose [project_id] is the id asked for and
    whose [latest_summary] and [summary_id] are the text and the id of that
    Summary; otherwise it returns the string ["No project found."]. *)
Theorem get_latest_summary_tool_result (C : Collaborators) (pid : string)
    (w : World) :
  wf (graph w) ->
  let r := get_latest_summary_tool C pid w in
  graph (snd r) = graph w
  /\ match latest_summaries (graph w) pid with
     | [] => fst r = Ok (RStr "No project found.")
     | s :: _ =>
         exists d sid text emb t,
           find_node (graph w) s = Some (mkNode s (Summary sid text emb t))
           /\ fst r = Ok (RDict d)
           /\ lookup "project_id" d = Some (VStr pid)
           /\ lookup "latest_summary" d = Some (VStr text)
           /\ lookup "summary_id" d = Some (VStr sid)
     end.
Proof.
  intros Hwf r. unfold r. rewrite get_latest_summary_tool_run. cbn [fst snd graph].
  split; [reflexivity|].
  unfold latest_summaries, cypher_latest.
  destruct (length_le_1 _ (wf_project (graph w) Hwf pid)) as [E|[p E]]; rewrite E; simpl.
  - reflexivity.
  - rewrite !app_nil_r.
    destruct (match_latest (graph w) p) as [|s olds] eqn:El; simpl; [reflexivity|].
    assert (Hs : In s (match_latest (graph w) p)) by (rewrite El; now left).
    apply match_latest_In in Hs. destruct Hs as [_ Hs].
    destruct (node_at_find _ _ _ (wf_refs _ Hwf) Hs) as [n [Hn Hns]].
    assert (Hp : In p (match_project (graph w) pid)) by (rewrite E; now left).
    unfold match_project in Hp. apply in_map_iff in Hp. destruct Hp as [m [Hm Hp]].
    apply filter_In in Hp. destruct Hp as [Hin Hid].
    apply is_project_with_id_true in Hid. destruct Hid as [nm [q [t Hid]]].
    pose proof (find_node_unique _ m (wf_refs _ Hwf) Hin) as Hfm. rewrite Hm in Hfm.
    destruct n as [r' [|sid text emb t']]; [discriminate|].
    pose proof (find_node_In _ _ _ Hn) as [_ Hr]. simpl in Hr. subst r'.
    eexists _, sid, text, emb, t'. split; [exact Hn|]. split; [reflexivity|].
    unfold node_value. rewrite Hfm, Hn. unfold prop_id, prop_text. rewrite Hid. simpl.
    repeat split.
Qed.

Lemma two_summaries_world_wf : wf (graph two_summaries_world).
Proof.
  unfold two_summaries_world.
  apply upsert_step; [discriminate|].
  apply upsert_step; [discriminate|].
  exact wf_empty_graph.
Qed.

Lemma get_latest_summary_tool_result_witness :
  wf (graph two_summaries_world)
  /\ exists d sid text emb t,
       find_node (graph two_summaries_world) 3 = Some (mkNode 3 (Summary sid text emb t))
       /\ fst (get_latest_summary_tool sample_collaborators "P1" two_summaries_world)
          = Ok (RDict d)
       /\ lookup "project_id" d = Some (VStr "P1")
       /\ lookup "latest_summary" d = Some (VStr text)
       /\ lookup "summary_id" d = Some (VStr sid).
Proof.
  split; [exact two_summaries_world_wf|].
  exact (proj2 (get_latest_summary_tool_result sample_collaborators "P1"
                  two_summaries_world two_summaries_world_wf)).
Defined.

(** ** The embedding a Summary is stored with *)

Lemma append_inj_r (a b c : string) : (a ++ c = b ++ c)%string -> a = b.
Proof.
  intros H.
  assert (Hlen : forall x y : string, String.length (x ++ y) = String.length x + String.length y).
  { induction x as [|ch x IH]; intros y; simpl; [reflexivity | now rewrite IH]. }
  revert b H. induction a as [|ch a IH]; intros b H.
  - destruct b as [|ch' b]; [reflexivity|]. simpl in H.
    apply (f_equal String.length) in H. simpl in H. rewrite Hlen in H. lia.
  - destruct b as [|ch' b]; simpl in H.
    + apply (f_equal String.length) in H. simpl in H. rewrite Hlen in H. lia.
    + injection H as -> H. f_equal. now apply IH.
Qed.

Lemma char_codes_inj (a b : string) : char_codes a = char_codes b -> a = b.
Proof.
  revert b. induction a as [|c a IH]; intros [|c' b] H; simpl in H;
    try discriminate; [reflexivity|].
  injection H as Hc H. f_equal; [|now apply IH].
  apply Nat2Z.inj in Hc.
  rewrite <- (ascii_nat_embedding c), <- (ascii_nat_embedding c'). now rewrite Hc.
Qed.

(** C10, as the claim states it, fails: nothing makes the encoder tell two
    strings apart.  Under an encoder that reads the first three characters
    only, the questions ["abcX"] and ["abcY"] with the same summary store
    the same embedding. *)
Lemma upsert_same_embedding_for_different_questions :
  find_node
    (graph (snd (upsert_project_tool prefix_collaborators "A" "abcX" "s" None
                   initial_world))) 2
  = Some (mkNode 2 (Summary "u1" "s" (char_codes "abc") 0))
  /\ find_node
       (graph (snd (upsert_project_tool prefix_collaborators "A" "abcY" "s" None
                      initial_world))) 2
     = Some (mkNode 2 (Summary "u1" "s" (char_codes "abc") 0))
  /\ "abcX" <> "abcY".
Proof. split; [reflexivity|]. split; [reflexivity | discriminate]. Qed.

(** C10, amended.  On a well-formed graph the call encodes the question,
    a newline and the summary text as one string and stores the result as
    the embedding of the Summary it creates, whose text is the summary
    alone.  So two calls with the same summary text and different
    questions encode different strings, and they store different
    embeddings whenever the encoder tells these two strings apart. *)
Theorem upsert_embedding_of_question_and_summary (C : Collaborators)
    (name question1 question2 summary : string) (pid1 pid2 : option string)
    (w1 w2 : World) :
  wf (graph w1) -> wf (graph w2) ->
  let w1' := snd (upsert_project_tool C name question1 summary pid1 w1) in
  let w2' := snd (upsert_project_tool C name question2 summary pid2 w2) in
  let text1 := (question1 ++ newline ++ summary)%string in
  let text2 := (question2 ++ newline ++ summary)%string in
  exists s1 s2 sid1 sid2,
    ~ In s1 (refs (graph w1))
    /\ find_node (graph w1') s1
       = Some (mkNode s1 (Summary sid1 summary (encode C text1) (now w1)))
    /\ ~ In s2 (refs (graph w2))
    /\ find_node (graph w2') s2
       = Some (mkNode s2 (Summary sid2 summary (encode C text2) (now w2)))
    /\ (exists tr q, trace w1' = tr ++ [EvEncode text1; EvRun q])
    /\ (exists tr q, trace w2' = tr ++ [EvEncode text2; EvRun q])
    /\ (question1 <> question2 -> text1 <> text2)
    /\ (question1 <> question2 ->
        (encode C text1 = encode C text2 -> text1 = text2) ->
        encode C text1 <> encode C text2).
Proof.
  intros Hwf1 Hwf2 w1' w2' text1 text2.
  destruct (upsert_project_tool_wf C name question1 summary pid1 w1 Hwf1)
    as [g1 [p1 [Hps1 Heq1]]].
  destruct (upsert_project_tool_wf C name question2 summary pid2 w2 Hwf2)
    as [g2 [p2 [Hps2 Heq2]]].
  unfold w1', w2'. rewrite Heq1, Heq2. cbn [snd graph trace].
  assert (Htext : question1 <> question2 -> text1 <> text2).
  { intros Hq H. unfold text1, text2 in H. apply append_inj_r in H. contradiction. }
  exists (fresh_ref g1), (fresh_ref g2). eexists. eexists.
  split.
  { intros H. apply (ps_refs _ _ _ _ _ _ _ Hps1) in H. now apply fresh_ref_not_in in H. }
  split; [apply find_node_attached_new|]. split.
  { intros H. apply (ps_refs _ _ _ _ _ _ _ Hps2) in H. now apply fresh_ref_not_in in H. }
  split; [apply find_node_attached_new|].
  split; [eexists; eexists; reflexivity|].
  split; [eexists; eexists; reflexivity|].
  split; [exact Htext|].
  intros Hq Hinj H. exact (Htext Hq (Hinj H)).
Qed.

Lemma upsert_embedding_of_question_and_summary_witness :
  wf (graph initial_world)
  /\ exists s1 s2 sid1 sid2,
    ~ In s1 (refs (graph initial_world))
    /\ find_node
         (graph (snd (upsert_project_tool sample_collaborators "A" "q1" "s" None
                        initial_world))) s1
       = Some (mkNode s1 (Summary sid1 "s" (char_codes ("q1" ++ newline ++ "s")) 0))
    /\ ~ In s2 (refs (graph initial_world))
    /\ find_node
         (graph (snd (upsert_project_tool sample_collaborators "A" "q2" "s" None
                        initial_world))) s2
       = Some (mkNode s2 (Summary sid2 "s" (char_codes ("q2" ++ newline ++ "s")) 0))
    /\ (exists tr q,
          trace (snd (upsert_project_tool sample_collaborators "A" "q1" "s" None
                        initial_world))
          = tr ++ [EvEncode ("q1" ++ newline ++ "s"); EvRun q])
    /\ (exists tr q,
          trace (snd (upsert_project_tool sample_collaborators "A" "q2" "s" None
                        initial_world))
          = tr ++ [EvEncode ("q2" ++ newline ++ "s"); EvRun q])
    /\ ("q1" <> "q2" -> ("q1" ++ newline ++ "s")%string <> ("q2" ++ newline ++ "s")%string)
    /\ ("q1" <> "q2" ->
        (char_codes ("q1" ++ newline ++ "s") = char_codes ("q2" ++ newline ++ "s") ->
         ("q1" ++ newline ++ "s")%string = ("q2" ++ newline ++ "s")%string) ->
        char_codes ("q1" ++ newline ++ "s") <> char_codes ("q2" ++ newline ++ "s")).
Proof.
  split; [exact wf_empty_graph|].
  exact (upsert_embedding_of_question_and_summary sample_collaborators
           "A" "q1" "q2" "s" None None initial_world initial_world
           wf_empty_graph wf_empty_graph).
Defined.

(** ** The descending stable sort *)

Section SortedDesc.
Context {A K : Type} (ltb : K -> K -> bool) (key : A -> K).
Hypothesis Hsw : strict_weak ltb.

Lemma not_below_trans (x y z : A) :
  not_below ltb key x y -> not_below ltb key y z -> not_below ltb key x z.
Proof.
  unfold not_below. intros Hxy Hyz.
  destruct (ltb (key x) (key z)) eqn:E; [|reflexivity].
  destruct (sw_negtrans ltb Hsw _ (key y) _ E); congruence.
Qed.

Lemma insert_desc_perm (x : A) (l : list A) :
  Permutation (insert_desc ltb key x l) (x :: l).
Proof.
  induction l as [|y l IH]; simpl; [reflexivity|].
  destruct (ltb (key x) (key y)); [|reflexivity].
  rewrite IH. apply perm_swap.
Qed.

Lemma sorted_desc_perm (l : list A) : Permutation (sorted_desc ltb key l) l.
Proof.
  induction l as [|x l IH]; simpl; [reflexivity|].
  rewrite insert_desc_perm. now constructor.
Qed.

Lemma sorted_desc_length (l : list A) :
  List.length (sorted_desc ltb key l) = List.length l.
Proof. apply Permutation_length, sorted_desc_perm. Qed.

Lemma insert_desc_sorted (x : A) (l : list A) :
  StronglySorted (not_below ltb key) l -> StronglySorted (not_below ltb key) (insert_desc ltb key x l).
Proof.
  induction l as [|y l IH]; simpl; intros Hs.
  - repeat constructor.
  - inversion Hs as [|? ? Hl Hy]; subst.
    destruct (ltb (key x) (key y)) eqn:E.
    + constructor; [now apply IH|].
      rewrite Forall_forall. intros z Hz.
      apply (Permutation_in _ (insert_desc_perm x l)) in Hz.
      destruct Hz as [<-|Hz].
      * apply (sw_asym ltb Hsw). exact E.
      * rewrite Forall_forall in Hy. now apply Hy.
    + constructor; [assumption|]. constructor; [exact E|].
      rewrite Forall_forall in *. intros z Hz.
      apply not_below_trans with y; [exact E | now apply Hy].
Qed.

Lemma sorted_desc_sorted (l : list A) :
  StronglySorted (not_below ltb key) (sorted_desc ltb key l).
Proof.
  induction l as [|x l IH]; simpl; [constructor | now apply insert_desc_sorted].
Qed.

(** Stability: the elements that tie with [k] keep the order they had. *)
Lemma insert_desc_stable (k : K) (x : A) (l : list A) :
  filter (tied ltb key k) (insert_desc ltb key x l) = filter (tied ltb key k) (x :: l).
Proof.
  induction l as [|y l IH]; [reflexivity|]. simpl insert_desc.
  destruct (ltb (key x) (key y)) eqn:E; [|reflexivity].
  simpl. rewrite IH. simpl.
  destruct (tied ltb key k x) eqn:Ex, (tied ltb key k y) eqn:Ey; try reflexivity.
  exfalso. unfold tied in Ex, Ey.
  apply andb_true_iff in Ex, Ey. destruct Ex as [Ex1 Ex2], Ey as [Ey1 Ey2].
  apply negb_true_iff in Ex1, Ex2, Ey1, Ey2.
  destruct (sw_negtrans ltb Hsw _ k _ E); congruence.
Qed.

Lemma sorted_desc_stable (k : K) (l : list A) :
  filter (tied ltb key k) (sorted_desc ltb key l) = filter (tied ltb key k) l.
Proof.
  induction l as [|x l IH]; [reflexivity|]. simpl sorted_desc.
  rewrite insert_desc_stable. simpl. now rewrite IH.
Qed.
End SortedDesc.

Lemma Qltb_lt (x y : Q) : Qltb x y = true <-> (x < y)%Q.
Proof.
  unfold Qltb. rewrite negb_true_iff. split.
  - intros H. apply Qnot_le_lt. intros Hle. apply Qle_bool_iff in Hle. congruence.
  - intros H. destruct (Qle_bool y x) eqn:E; [|reflexivity].
    apply Qle_bool_iff in E. exfalso. now apply (Qlt_not_le x y).
Qed.

Lemma Qltb_ge (x y : Q) : Qltb x y = false <-> (y <= x)%Q.
Proof.
  unfold Qltb. rewrite negb_false_iff. apply Qle_bool_iff.
Qed.

Lemma Qltb_strict_weak : strict_weak Qltb.
Proof.
  constructor.
  - intros x y H. apply Qltb_lt in H. apply Qltb_ge. now apply Qlt_le_weak.
  - intros x y z H. apply Qltb_lt in H.
    destruct (Qlt_le_dec x y) as [Hxy|Hyx].
    + left. now apply Qltb_lt.
    + right. apply Qltb_lt. now apply Qle_lt_trans with x.
Qed.

Lemma slice_to_length {A : Type} (k : Z) (l : list A) :
  (0 <= k)%Z -> List.length (slice_to k l) <= Z.to_nat k.
Proof.
  intros Hk. unfold slice_to.
  destruct (Z.leb_spec 0 k); [|lia].
  rewrite length_firstn. lia.
Qed.

Lemma slice_to_firstn {A : Type} (k : Z) (l : list A) :
  (0 <= k)%Z -> slice_to k l = firstn (Z.to_nat k) l.
Proof. intros Hk. unfold slice_to. destruct (Z.leb_spec 0 k); [reflexivity | lia]. Qed.

Lemma slice_to_map {A B : Type} (f : A -> B) (k : Z) (l : list A) :
  map f (slice_to k l) = slice_to k (map f l).
Proof.
  unfold slice_to. rewrite length_map. destruct (0 <=? k)%Z; symmetry; apply firstn_map.
Qed.

(** ** The two scoring loops as one fold *)

Lemma rrf_loop_accumulate (A : Arith) (rrf_k rank : Z) (results : list Dict)
    (d : list (Value * num A)) (w : World) :
  Forall (fun item => lookup "node_id" item <> None) results ->
  (forall i, (0 <= i < Z.of_nat (List.length results))%Z -> (rrf_k + (rank + i) <> 0)%Z) ->
  rrf_loop A rrf_k rank results d w
  = (Ok (rrf_accumulate A rrf_k rank (node_ids results) d), w).
Proof.
  revert rank d. induction results as [|item rest IH]; intros rank d Hid Hz.
  - reflexivity.
  - inversion Hid as [|? ? Hitem Hrest]; subst.
    simpl. unfold bind, getitem, node_id_of.
    destruct (lookup "node_id" item) as [v|] eqn:E; [|congruence].
    unfold ret at 1. cbn beta iota.
    destruct (Z.eqb_spec (rrf_k + rank) 0) as [E0|_].
    + exfalso. apply (Hz 0%Z); [simpl; lia | now rewrite Z.add_0_r].
    + rewrite IH; [reflexivity | assumption |].
      intros i Hi. replace (rank + 1 + i)%Z with (rank + (i + 1))%Z by lia.
      apply Hz. simpl List.length. lia.
Qed.

(** The first loop that hits a zero denominator raises. *)
Lemma rrf_loop_zero_division (A : Arith) (rrf_k rank : Z) (item : Dict)
    (rest : list Dict) (d : list (Value * num A)) (w : World) :
  lookup "node_id" item <> None -> (rrf_k + rank = 0)%Z ->
  rrf_loop A rrf_k rank (item :: rest) d w = (Raise ZeroDivisionError, w).
Proof.
  intros Hid Hz. simpl. unfold bind, getitem.
  destruct (lookup "node_id" item); [|congruence].
  unfold ret. cbn beta iota. rewrite Hz. reflexivity.
Qed.

(** *** Keys and values of the dict *)

Section ScoresFacts.
Context {N : Type}.
Implicit Types d : list (Value * N).

Lemma scores_get_None d (k : Value) :
  scores_get k d = None <-> ~ In k (map fst d).
Proof.
  induction d as [|[k' v] d IH]; simpl; [tauto|].
  destruct (value_eqb_spec k' k) as [->|Hne].
  - split; [discriminate | tauto].
  - rewrite IH. tauto.
Qed.

Lemma scores_get_app d d' (k : Value) :
  scores_get k (d ++ d') =
  match scores_get k d with Some v => Some v | None => scores_get k d' end.
Proof.
  induction d as [|[k' v] d IH]; simpl; [reflexivity|].
  destruct (value_eqb k' k); [reflexivity | apply IH].
Qed.

Lemma scores_get_setdefault d (k x : Value) (z : N) :
  scores_get x (setdefault k z d) =
  match scores_get x d with
  | Some v => Some v
  | None => if value_eqb k x then Some z else None
  end.
Proof.
  unfold setdefault. destruct (scores_get k d) as [v|] eqn:E.
  - destruct (scores_get x d) eqn:Ex; [reflexivity|].
    destruct (value_eqb_spec k x) as [->|]; [congruence | reflexivity].
  - rewrite scores_get_app. simpl. now destruct (scores_get x d).
Qed.

Lemma scores_get_update d (k x : Value) (f : N -> N) :
  scores_get x (scores_update k f d) =
  if value_eqb k x then option_map f (scores_get x d) else scores_get x d.
Proof.
  induction d as [|[k' v] d IH]; simpl.
  - now destruct (value_eqb k x).
  - destruct (value_eqb_spec k' k) as [->|Hne]; simpl.
    + destruct (value_eqb_spec k x); reflexivity.
    + destruct (value_eqb_spec k' x) as [->|Hx].
      * destruct (value_eqb_spec k x); [congruence | reflexivity].
      * apply IH.
Qed.

Lemma keys_update d (k : Value) (f : N -> N) :
  map fst (scores_update k f d) = map fst d.
Proof.
  induction d as [|[k' v] d IH]; simpl; [reflexivity|].
  destruct (value_eqb k' k); simpl; [reflexivity | now rewrite IH].
Qed.

Lemma keys_setdefault d (k : Value) (z : N) :
  map fst (setdefault k z d) =
  if existsb (value_eqb k) (map fst d) then map fst d else map fst d ++ [k].
Proof.
  unfold setdefault. destruct (scores_get k d) as [v|] eqn:E.
  - assert (Hin : In k (map fst d)).
    { destruct (in_dec (fun a b => reflect_dec _ _ (value_eqb_spec a b)) k (map fst d))
        as [H|H]; [assumption|].
      apply scores_get_None in H. congruence. }
    assert (Hex : existsb (value_eqb k) (map fst d) = true).
    { apply existsb_exists. exists k. split; [assumption | apply value_eqb_refl]. }
    now rewrite Hex.
  - apply scores_get_None in E.
    rewrite existsb_none.
    + now rewrite map_app.
    + intros y Hy. destruct (value_eqb_spec k y); [subst; contradiction | reflexivity].
Qed.
End ScoresFacts.

Lemma keys_rrf_bump (A : Arith) (rrf_k rank : Z) (id : Value)
    (d : list (Value * num A)) :
  map fst (rrf_bump A rrf_k rank id d) = first_seen (map fst d) [id].
Proof. unfold rrf_bump. rewrite keys_update, keys_setdefault. reflexivity. Qed.

Lemma keys_rrf_accumulate (A : Arith) (rrf_k rank : Z) (ids : list Value)
    (d : list (Value * num A)) :
  map fst (rrf_accumulate A rrf_k rank ids d) = first_seen (map fst d) ids.
Proof.
  revert rank d. induction ids as [|id ids IH]; intros rank d; [reflexivity|].
  simpl. rewrite IH, keys_rrf_bump. reflexivity.
Qed.

Lemma first_seen_app (seen ids ids' : list Value) :
  first_seen seen (ids ++ ids') = first_seen (first_seen seen ids) ids'.
Proof. unfold first_seen. apply fold_left_app. Qed.

Lemma first_seen_In (seen ids : list Value) (x : Value) :
  In x (first_seen seen ids) <-> In x seen \/ In x ids.
Proof.
  revert seen. induction ids as [|id ids IH]; intros seen; simpl; [tauto|].
  fold (first_seen (if existsb (value_eqb id) seen then seen else seen ++ [id]) ids).
  rewrite IH. destruct (existsb (value_eqb id) seen) eqn:E.
  - apply existsb_exists in E. destruct E as [y [Hy Heq]].
    destruct (value_eqb_spec id y); [subst y | discriminate].
    split; [tauto|]. intros [H|[<-|H]]; tauto.
  - rewrite in_app_iff. simpl. tauto.
Qed.

Lemma first_seen_NoDup (seen ids : list Value) :
  NoDup seen -> NoDup (first_seen seen ids).
Proof.
  revert seen. induction ids as [|id ids IH]; intros seen Hnd; simpl; [assumption|].
  fold (first_seen (if existsb (value_eqb id) seen then seen else seen ++ [id]) ids).
  apply IH. destruct (existsb (value_eqb id) seen) eqn:E; [assumption|].
  apply NoDup_app; [assumption | repeat constructor; simpl; tauto |].
  intros x Hx [Heq|[]]. subst x.
  assert (Hex : existsb (value_eqb id) seen = true).
  { apply existsb_exists. exists id. split; [assumption | apply value_eqb_refl]. }
  congruence.
Qed.

Lemma scores_get_rrf_bump (A : Arith) (rrf_k rank : Z) (id x : Value)
    (d : list (Value * num A)) :
  scores_get x (rrf_bump A rrf_k rank id d) =
  if value_eqb id x
  then Some (add A (match scores_get x d with Some v => v | None => zero A end)
                   (one_over A (rrf_k + rank)))
  else scores_get x d.
Proof.
  unfold rrf_bump. rewrite scores_get_update, scores_get_setdefault.
  destruct (value_eqb_spec id x) as [->|Hne].
  - destruct (scores_get x d); reflexivity.
  - destruct (scores_get x d); reflexivity.
Qed.

(** ** The fused scores in exact arithmetic *)

Lemma Qsum_app (l l' : list Q) : (Qsum (l ++ l') == Qsum l + Qsum l')%Q.
Proof.
  induction l as [|x l IH]; simpl.
  - now rewrite Qplus_0_l.
  - rewrite IH. apply Qplus_assoc.
Qed.

Lemma rrf_contribution_cons (rrf_k rank : Z) (x : Value) (ids : list Value)
    (id : Value) :
  (rrf_contribution rrf_k rank (x :: ids) id
   == (if value_eqb x id then 1 / inject_Z (rrf_k + rank) else 0)
      + rrf_contribution rrf_k (rank + 1) ids id)%Q.
Proof.
  unfold rrf_contribution. simpl. rewrite map_app, Qsum_app.
  destruct (value_eqb x id); simpl; [|reflexivity].
  now rewrite Qplus_0_r.
Qed.

Lemma score_of_rrf_bump (rrf_k rank : Z) (id x : Value) (d : list (Value * Q)) :
  (score_of (rrf_bump exact rrf_k rank id d) x
   == score_of d x + (if value_eqb id x then 1 / inject_Z (rrf_k + rank) else 0))%Q.
Proof.
  pose proof (scores_get_rrf_bump exact rrf_k rank id x d) as H.
  cbn [num exact zero add one_over] in H. unfold score_of. rewrite H.
  destruct (value_eqb id x); simpl.
  - reflexivity.
  - now rewrite Qplus_0_r.
Qed.

Lemma score_of_rrf_accumulate (rrf_k rank : Z) (ids : list Value)
    (d : list (Value * Q)) (x : Value) :
  (score_of (rrf_accumulate exact rrf_k rank ids d) x
   == score_of d x + rrf_contribution rrf_k rank ids x)%Q.
Proof.
  revert rank d. induction ids as [|id ids IH]; intros rank d.
  - unfold rrf_contribution. simpl. now rewrite Qplus_0_r.
  - simpl. rewrite IH, score_of_rrf_bump, rrf_contribution_cons.
    now rewrite Qplus_assoc.
Qed.

(** The accumulated score is the score of the specification. *)
Lemma score_of_fused (rrf_k : Z) (first second : list Value) (x : Value) :
  (score_of (rrf_accumulate exact rrf_k 1 second
               (rrf_accumulate exact rrf_k 1 first [])) x
   == spec_rrf_score rrf_k first second x)%Q.
Proof.
  rewrite !score_of_rrf_accumulate. unfold spec_rrf_score, score_of. simpl.
  now rewrite Qplus_0_l.
Qed.

Lemma ranks_from_absent (rank : Z) (ids : list Value) (id : Value) :
  ~ In id ids -> ranks_from rank ids id = [].
Proof.
  revert rank. induction ids as [|x ids IH]; intros rank H; [reflexivity|].
  simpl. destruct (value_eqb_spec x id) as [->|_].
  - exfalso. apply H. now left.
  - apply IH. intros Hin. apply H. now right.
Qed.

(** In a list without repetition an item has one rank: its position,
    counted from 1. *)
Lemma ranks_from_nth (rank : Z) (ids : list Value) (id : Value) (i : nat) :
  NoDup ids -> nth_error ids i = Some id ->
  ranks_from rank ids id = [(rank + Z.of_nat i)%Z].
Proof.
  revert rank i. induction ids as [|x ids IH]; intros rank i Hnd Hi.
  - destruct i; discriminate.
  - inversion Hnd as [|? ? Hx Hids]; subst. simpl.
    destruct i as [|i]; simpl in Hi.
    + injection Hi as ->. rewrite value_eqb_refl.
      rewrite ranks_from_absent by assumption. simpl. now rewrite Z.add_0_r.
    + destruct (value_eqb_spec x id) as [->|_].
      * exfalso. apply Hx. eapply nth_error_In. eassumption.
      * simpl. rewrite (IH (rank + 1)%Z i Hids Hi). f_equal. lia.
Qed.

(** ** [hybrid_rrf_search], run *)

Lemma flat_map_nil {A B : Type} (f : A -> list B) (l : list A) :
  (forall x, In x l -> f x = []) -> flat_map f l = [].
Proof.
  induction l as [|x l IH]; simpl; intros H; [reflexivity|].
  rewrite (H x (or_introl eq_refl)). apply IH. intros y Hy. apply H. now right.
Qed.

Lemma cypher_get_data_nil (g : Graph) : cypher_get_data [] g = [].
Proof.
  unfold cypher_get_data. apply flat_map_nil. intros e _.
  destruct (find_node g (rel_src e)), (find_node g (rel_dst e)); try reflexivity.
  simpl. now rewrite andb_false_r.
Qed.

Lemma has_node_id_vector (C : Collaborators) (k : Z) (emb : Embedding) (m : Q)
    (g : Graph) :
  Forall (fun item => lookup "node_id" item <> None) (cypher_vector C k emb m g).
Proof.
  unfold cypher_vector. rewrite Forall_forall. intros item H.
  apply in_map_iff in H. destruct H as [hit [<- _]]. discriminate.
Qed.

Lemma has_node_id_fulltext (C : Collaborators) (q : string) (k : Z) (m : Q)
    (g : Graph) :
  Forall (fun item => lookup "node_id" item <> None) (fulltext_rows C q k m g).
Proof.
  unfold fulltext_rows. rewrite Forall_forall. intros item H.
  apply in_map_iff in H. destruct H as [hit [<- _]]. discriminate.
Qed.

Lemma hybrid_rrf_search_run (C : Collaborators) (A : Arith) (query_text : string)
    (top_k rrf_k : Z) (w : World) :
  (0 <= top_k)%Z ->
  let sem := cypher_vector C (top_k * 2) (encode C query_text) 0 (graph w) in
  let bm := fulltext_rows C query_text (top_k * 2) 0 (graph w) in
  no_zero_division rrf_k (List.length sem) ->
  no_zero_division rrf_k (List.length bm) ->
  let ids := fuse A rrf_k top_k (node_ids sem) (node_ids bm) in
  hybrid_rrf_search C A query_text top_k rrf_k w
  = (Ok (cypher_get_data ids (graph w)), after_hybrid C query_text top_k ids w).
Proof.
  intros Hk sem bm Hz1 Hz2 ids.
  unfold hybrid_rrf_search, bind at 1.
  unfold get_semantic_matches, model_encode, bind, emit, ret, session_run, cypher.
  cbn [graph trace draws now]. fold sem.
  unfold get_bm25_matches, session_run, cypher, cypher_fulltext.
  cbn [graph trace draws now].
  destruct (Z.ltb_spec (top_k * 2) 0) as [Hneg|_]; [lia|]. fold bm.
  rewrite (rrf_loop_accumulate A rrf_k 1 sem []).
  2:{ apply has_node_id_vector. }
  2:{ intros i Hi. apply Hz1. lia. }
  rewrite (rrf_loop_accumulate A rrf_k 1 bm).
  2:{ apply has_node_id_fulltext. }
  2:{ intros i Hi. apply Hz2. lia. }
  fold (fuse A rrf_k top_k (node_ids sem) (node_ids bm)). fold ids.
  unfold get_data_tool, after_hybrid.
  destruct ids as [|id ids'].
  - rewrite cypher_get_data_nil. unfold ret. rewrite <- !app_assoc. reflexivity.
  - unfold session_run, cypher. cbn [graph trace draws now].
    rewrite <- !app_assoc. reflexivity.
Qed.

(** ** Hydration *)

Lemma flat_map_filter_map {A B D : Type} (h : A -> list B) (keep : B -> bool)
    (f : B -> D) (l : list A) :
  map f (filter keep (flat_map h l))
  = flat_map (fun x => map f (filter keep (h x))) l.
Proof.
  induction l as [|x l IH]; simpl; [reflexivity|].
  now rewrite filter_app, map_app, IH.
Qed.

(** The hydration returns the matches whose id is asked for, in the order
    of the store. *)
Lemma cypher_get_data_links (ids : list Value) (g : Graph) :
  cypher_get_data ids g = map snd (filter (asked_for ids) (summary_links g)).
Proof.
  unfold cypher_get_data, summary_links, link_of. rewrite flat_map_filter_map.
  apply flat_map_ext. intros e.
  destruct (find_node g (rel_src e)) as [p|], (find_node g (rel_dst e)) as [n|];
    try reflexivity.
  destruct (is_rel HAS_SUMMARY e && is_project p); simpl; [|reflexivity].
  unfold asked_for. simpl. now destruct (existsb (value_eqb (prop_id n)) ids).
Qed.

Lemma asked_for_In (ids : list Value) (link : Value * Dict) :
  asked_for ids link = true <-> In (fst link) ids.
Proof.
  unfold asked_for. rewrite existsb_exists. split.
  - intros [y [Hy Heq]]. now destruct (value_eqb_spec (fst link) y); [subst|discriminate].
  - intros H. exists (fst link). split; [assumption | apply value_eqb_refl].
Qed.

Lemma cypher_get_data_bound (ids : list Value) (g : Graph) :
  unique_summary_ids g ->
  List.length (cypher_get_data ids g) <= List.length ids.
Proof.
  intros Hu. rewrite cypher_get_data_links, length_map.
  rewrite <- (length_map fst).
  apply NoDup_incl_length.
  - unfold unique_summary_ids in Hu.
    induction (summary_links g) as [|l ls IH]; simpl; [constructor|].
    inversion Hu as [|? ? Hl Hls]; subst.
    destruct (asked_for ids l); simpl; [|now apply IH].
    constructor; [|now apply IH].
    intros H. apply Hl. apply in_map_iff in H. destruct H as [x [Hx Hin]].
    apply filter_In in Hin. rewrite <- Hx. apply in_map. tauto.
  - intros v Hv. apply in_map_iff in Hv. destruct Hv as [l [<- Hl]].
    apply filter_In in Hl. now apply asked_for_In.
Qed.

(** The result depends on which ids are asked for, not on their order. *)
Lemma cypher_get_data_ext (ids ids' : list Value) (g : Graph) :
  (forall v, In v ids <-> In v ids') ->
  cypher_get_data ids g = cypher_get_data ids' g.
Proof.
  intros H. rewrite !cypher_get_data_links. f_equal. apply filter_ext.
  intros l. apply eq_true_iff_eq. rewrite !asked_for_In. apply H.
Qed.

Lemma top_ranked_length (A : Arith) (top_k : Z) (d : list (Value * num A)) :
  (0 <= top_k)%Z -> List.length (top_ranked A top_k d) <= Z.to_nat top_k.
Proof.
  intros Hk. unfold top_ranked. rewrite length_map. now apply slice_to_length.
Qed.

(** ** The worlds the tools can build *)

Lemma NoDup_map_filter {A B : Type} (f : A -> B) (keep : A -> bool) (l : list A) :
  NoDup (map f l) -> NoDup (map f (filter keep l)).
Proof.
  induction l as [|x l IH]; simpl; intros H; [constructor|].
  inversion H as [|? ? Hx Hl]; subst.
  destruct (keep x); simpl; [|now apply IH].
  constructor; [|now apply IH].
  intros Hin. apply Hx. apply in_map_iff in Hin. destruct Hin as [y [Hy Hin]].
  apply filter_In in Hin. rewrite <- Hy. apply in_map. tauto.
Qed.

Lemma filter_length_le {A : Type} (f g : A -> bool) (l : list A) :
  (forall x, In x l -> f x = true -> g x = true) ->
  List.length (filter f l) <= List.length (filter g l).
Proof.
  induction l as [|x l IH]; simpl; intros H; [lia|].
  assert (IH' : List.length (filter f l) <= List.length (filter g l)).
  { apply IH. intros y Hy. apply H. now right. }
  destruct (f x) eqn:Ef.
  - rewrite (H x (or_introl eq_refl) Ef). simpl. lia.
  - destruct (g x); simpl; lia.
Qed.

Lemma filter_filter_and {A : Type} (f g : A -> bool) (l : list A) :
  filter f (filter g l) = filter (fun x => g x && f x) l.
Proof.
  induction l as [|x l IH]; simpl; [reflexivity|].
  destruct (g x); simpl; [destruct (f x)|]; now rewrite IH.
Qed.

Lemma node_at_deleted (g : Graph) (pid : string) (f : Node -> bool) (r : nat) :
  node_at (cypher_delete pid g) f r = true -> node_at g f r = true.
Proof.
  rewrite !node_at_In. intros [n [Hn H]]. exists n. split; [|assumption].
  unfold cypher_delete in Hn. simpl in Hn. apply filter_In in Hn. tauto.
Qed.

Lemma cypher_delete_wf (g : Graph) (pid : string) :
  wf g -> wf (cypher_delete pid g).
Proof.
  intros Hwf. constructor.
  - unfold refs, cypher_delete. simpl. apply NoDup_map_filter, (wf_refs g Hwf).
  - intros e He. unfold cypher_delete in He. simpl in He.
    apply filter_In in He. destruct He as [He Hkeep].
    apply negb_true_iff, orb_false_iff in Hkeep. destruct Hkeep as [Hs Hd].
    destruct (wf_closed g Hwf e He) as [Hsrc Hdst].
    assert (Hstay : forall r, In r (refs g) -> mem_ref r (match_project g pid) = false ->
                              In r (refs (cypher_delete pid g))).
    { intros r Hr Hm. unfold refs in Hr. apply in_map_iff in Hr.
      destruct Hr as [n [<- Hn]]. unfold refs, cypher_delete. simpl.
      apply in_map. apply filter_In. split; [assumption|].
      destruct (is_project_with_id pid n) eqn:E; [|reflexivity].
      exfalso. assert (Hin : In (node_ref n) (match_project g pid)).
      { unfold match_project. apply in_map. apply filter_In. now split. }
      apply mem_ref_In in Hin. congruence. }
    split; now apply Hstay.
  - intros pid'. unfold match_project, cypher_delete. simpl.
    rewrite !length_map. rewrite filter_filter_and.
    pose proof (wf_project g Hwf pid') as H. unfold match_project in H.
    rewrite length_map in H.
    apply Nat.le_trans with (2 := H). apply filter_length_le.
    intros x _ Hx. apply andb_true_iff in Hx. tauto.
  - intros p. unfold match_latest. rewrite !length_map.
    pose proof (wf_latest g Hwf p) as H. unfold match_latest in H.
    rewrite length_map in H. apply Nat.le_trans with (2 := H).
    unfold cypher_delete at 2. simpl rels. rewrite filter_filter_and.
    apply filter_length_le. intros e _ He.
    apply andb_true_iff in He. destruct He as [_ He].
    apply andb_true_iff in He. destruct He as [He Hn].
    rewrite He. simpl. now apply node_at_deleted in Hn.
Qed.

Lemma upsert_project_tool_keeps_wf (C : Collaborators)
    (name question summary : string) (project_id : option string) (w : World) :
  wf (graph w) ->
  wf (graph (snd (upsert_project_tool C name question summary project_id w))).
Proof.
  intros Hwf.
  destruct (upsert_project_tool_wf C name question summary project_id w Hwf)
    as [g1 [p [Hps Heq]]].
  rewrite Heq. cbn [snd graph].
  apply attached_wf; [apply (ps_wf _ _ _ _ _ _ _ Hps)|].
  pose proof (ps_node _ _ _ _ _ _ _ Hps) as Hn. apply find_node_In in Hn.
  destruct Hn as [Hn _]. now apply (in_map node_ref) in Hn.
Qed.

(** Every world the tools can build holds a well-formed graph. *)
Lemma reachable_wf (C : Collaborators) (w : World) :
  reachable C w -> wf (graph w).
Proof.
  induction 1 as [|w name question summary project_id _ IH _|w project_id _ IH].
  - exact wf_empty_graph.
  - now apply upsert_project_tool_keeps_wf.
  - rewrite delete_project_tool_run. cbn [snd graph]. now apply cypher_delete_wf.
Qed.

Lemma NoDup_app_parts {A : Type} (a b : list A) :
  NoDup (a ++ b) -> NoDup a /\ NoDup b /\ forall x, In x a -> ~ In x b.
Proof.
  induction a as [|y a IH]; simpl; intros H.
  - repeat split; [constructor | assumption | tauto].
  - inversion H as [|? ? Hy Hab]; subst. destruct (IH Hab) as [Ha [Hb Hd]].
    repeat split; try assumption.
    + constructor; [|assumption]. intros Hin. apply Hy. apply in_or_app. now left.
    + intros x [<-|Hx] Hin; [|now apply (Hd x)].
      apply Hy. apply in_or_app. now right.
Qed.

Lemma NoDup_map_flat_map_filter {A B D : Type} (h : B -> D) (f : A -> list B)
    (keep : A -> bool) (l : list A) :
  NoDup (map h (flat_map f l)) -> NoDup (map h (flat_map f (filter keep l))).
Proof.
  intros H.
  assert (Hincl : forall l' x, In x (map h (flat_map f (filter keep l'))) ->
                               In x (map h (flat_map f l'))).
  { intros l' x Hx. apply in_map_iff in Hx. destruct Hx as [y [<- Hy]].
    apply in_map. apply in_flat_map in Hy. destruct Hy as [a [Ha Hy]].
    apply in_flat_map. exists a. apply filter_In in Ha. tauto. }
  induction l as [|x l IH]; simpl in *; [constructor|].
  rewrite map_app in H. destruct (NoDup_app_parts _ _ H) as [Hx [Hl Hd]].
  destruct (keep x); simpl; [|now apply IH].
  rewrite map_app. apply NoDup_app; [assumption | now apply IH |].
  intros y Hy Hin. apply (Hd y Hy). now apply Hincl.
Qed.

Lemma summary_links_ids_in_nodes (g : Graph) (v : Value) :
  In v (map fst (summary_links g)) -> In v (map prop_id (nodes g)).
Proof.
  intros H. apply in_map_iff in H. destruct H as [[v' d] [Hv H]]. simpl in Hv. subst v'.
  unfold summary_links, link_of in H. apply in_flat_map in H. destruct H as [e [_ H]].
  destruct (find_node g (rel_src e)) as [p|]; [|contradiction].
  destruct (find_node g (rel_dst e)) as [n|] eqn:En; [|contradiction].
  destruct (is_rel HAS_SUMMARY e && is_project p); [|contradiction].
  destruct H as [H|[]]. injection H as <- _.
  apply find_node_In in En. apply in_map. tauto.
Qed.

Lemma flat_map_filter_nil {A B : Type} (f : A -> list B) (keep : A -> bool)
    (l : list A) :
  (forall x, In x l -> keep x = false -> f x = []) ->
  flat_map f (filter keep l) = flat_map f l.
Proof.
  induction l as [|x l IH]; simpl; intros H; [reflexivity|].
  assert (IH' : flat_map f (filter keep l) = flat_map f l).
  { apply IH. intros y Hy. apply H. now right. }
  destruct (keep x) eqn:E; simpl.
  - now rewrite IH'.
  - now rewrite (H x (or_introl eq_refl) E), IH'.
Qed.

Lemma link_of_other_type (g : Graph) (e : Rel) :
  is_rel HAS_SUMMARY e = false -> link_of g e = [].
Proof.
  intros H. unfold link_of. rewrite H.
  destruct (find_node g (rel_src e)), (find_node g (rel_dst e)); reflexivity.
Qed.

Lemma summary_links_attached (now : nat) (text : string) (emb : Embedding)
    (sid : string) (p : nat) (g1 : Graph) (props : Props) :
  wf g1 -> find_node g1 p = Some (mkNode p props) -> is_project (mkNode p props) = true ->
  map fst (summary_links (attached now text emb sid p g1))
  = map fst (summary_links g1) ++ [VStr sid].
Proof.
  intros Hwf Hp Hproj.
  assert (Hpin : In p (refs g1)).
  { apply find_node_In in Hp. destruct Hp as [Hp _]. now apply (in_map node_ref) in Hp. }
  set (g' := attached now text emb sid p g1).
  change (summary_links g') with (flat_map (link_of g') (rels g')).
  change (summary_links g1) with (flat_map (link_of g1) (rels g1)).
  change (rels g') with (filter (not_old_latest p (match_latest g1 p)) (rels g1)
                         ++ upsert_links p (fresh_ref g1) (match_latest g1 p)).
  rewrite flat_map_app, map_app. f_equal.
  - assert (E : flat_map (link_of g') (filter (not_old_latest p (match_latest g1 p)) (rels g1))
                = flat_map (link_of g1) (filter (not_old_latest p (match_latest g1 p)) (rels g1))).
    { apply flat_map_ext_in. intros e He. apply filter_In in He. destruct He as [He _].
      destruct (wf_closed g1 Hwf e He) as [Hs Hd]. unfold link_of, g'.
      now rewrite !find_node_attached_old by assumption. }
    rewrite E. f_equal. apply flat_map_filter_nil.
    intros e _ Ek. apply not_old_latest_false in Ek. destruct Ek as [o [_ ->]].
    now apply link_of_other_type.
  - unfold upsert_links. cbn [app flat_map].
    rewrite (link_of_other_type g' (mkRel HAS_LATEST_SUMMARY p (fresh_ref g1))) by reflexivity.
    rewrite (flat_map_nil (link_of g')).
    2:{ intros e He. apply in_map_iff in He. destruct He as [o [<- _]].
        now apply link_of_other_type. }
    unfold link_of. cbn [rel_src rel_dst].
    unfold g'. rewrite find_node_attached_new, find_node_attached_old by assumption.
    rewrite Hp. cbn [is_rel rel_type reltype_eqb andb]. rewrite Hproj. reflexivity.
Qed.

Lemma upsert_project_tool_keeps_unique_ids (C : Collaborators)
    (name question summary : string) (project_id : option string) (w : World) :
  wf (graph w) -> unique_summary_ids (graph w) ->
  ~ In (VStr (uuid4_at C (snd (chosen_project_id C project_id w))))
       (map prop_id (nodes (graph w))) ->
  unique_summary_ids
    (graph (snd (upsert_project_tool C name question summary project_id w))).
Proof.
  intros Hwf Hu Hfresh.
  destruct (upsert_project_tool_wf C name question summary project_id w Hwf)
    as [g1 [p [Hps Heq]]].
  rewrite Heq. cbn [snd graph]. unfold unique_summary_ids.
  rewrite (summary_links_attached _ _ _ _ p g1 _ (ps_wf _ _ _ _ _ _ _ Hps)
             (ps_node _ _ _ _ _ _ _ Hps) eq_refl).
  rewrite (ps_links _ _ _ _ _ _ _ Hps).
  apply NoDup_app; [exact Hu | repeat constructor; simpl; tauto |].
  intros v Hv [<-|[]]. apply Hfresh. now apply summary_links_ids_in_nodes.
Qed.

Lemma find_node_deleted (g : Graph) (pid : string) (r : nat) :
  NoDup (refs g) -> mem_ref r (match_project g pid) = false ->
  find_node (cypher_delete pid g) r = find_node g r.
Proof.
  intros Hnd Hr. destruct (find_node g r) as [n|] eqn:E.
  - destruct (find_node_In g r n E) as [Hin Href]. subst r.
    apply find_node_unique.
    + unfold refs, cypher_delete. simpl. now apply NoDup_map_filter.
    + unfold cypher_delete. simpl. apply filter_In. split; [assumption|].
      destruct (is_project_with_id pid n) eqn:Ep; [|reflexivity].
      exfalso. assert (H : In (node_ref n) (match_project g pid)).
      { unfold match_project. apply in_map. apply filter_In. now split. }
      apply mem_ref_In in H. congruence.
  - apply find_node_none. intros H. unfold refs, cypher_delete in H. simpl in H.
    apply in_map_iff in H. destruct H as [n [Hn H]]. apply filter_In in H.
    destruct H as [H _]. unfold find_node in E. apply (find_none _ _ E) in H.
    rewrite Hn, Nat.eqb_refl in H. discriminate.
Qed.

Lemma cypher_delete_keeps_unique_ids (g : Graph) (pid : string) :
  wf g -> unique_summary_ids g -> unique_summary_ids (cypher_delete pid g).
Proof.
  intros Hwf Hu. unfold unique_summary_ids, summary_links.
  set (keep := fun e => negb (mem_ref (rel_src e) (match_project g pid)
                              || mem_ref (rel_dst e) (match_project g pid))).
  change (rels (cypher_delete pid g)) with (filter keep (rels g)).
  rewrite (flat_map_ext_in (link_of (cypher_delete pid g)) (link_of g)).
  - now apply NoDup_map_flat_map_filter.
  - intros e He. apply filter_In in He. destruct He as [_ He]. unfold keep in He.
    apply negb_true_iff, orb_false_iff in He. destruct He as [Hs Hd].
    unfold link_of.
    now rewrite !find_node_deleted by (try apply (wf_refs g Hwf); assumption).
Qed.

(** In every world the tools can build no id is reached twice by the
    hydration. *)
Lemma reachable_unique_summary_ids (C : Collaborators) (w : World) :
  reachable C w -> unique_summary_ids (graph w).
Proof.
  induction 1 as [|w name question summary project_id Hr IH Hfresh|w project_id Hr IH].
  - constructor.
  - apply upsert_project_tool_keeps_unique_ids; [now apply (reachable_wf C) | exact IH | exact Hfresh].
  - rewrite delete_project_tool_run. cbn [snd graph].
    apply cypher_delete_keeps_unique_ids; [now apply (reachable_wf C) | exact IH].
Qed.

Lemma three_summaries_world_reachable :
  reachable ranking_collaborators three_summaries_world.
Proof.
  unfold three_summaries_world.
  apply reachable_upsert; [|vm_compute; intuition discriminate].
  apply reachable_upsert; [|vm_compute; intuition discriminate].
  apply reachable_upsert; [|vm_compute; intuition discriminate].
  apply reachable_initial.
Qed.

(** ** The requests and the result of [hybrid_rrf_search] *)

Lemma rrf_loop_world (A : Arith) (rrf_k rank : Z) (results : list Dict)
    (d : list (Value * num A)) (w : World) :
  snd (rrf_loop A rrf_k rank results d w) = w.
Proof.
  revert rank d. induction results as [|item rest IH]; intros rank d; [reflexivity|].
  simpl. unfold bind, getitem.
  destruct (lookup "node_id" item); [|reflexivity].
  unfold ret at 1. cbn beta iota.
  destruct (rrf_k + rank =? 0)%Z; [reflexivity | apply IH].
Qed.

(** The two searches are asked for, whatever happens next. *)
Lemma hybrid_rrf_search_requests (C : Collaborators) (A : Arith)
    (query_text : string) (top_k rrf_k : Z) (w : World) :
  exists rest,
    trace (snd (hybrid_rrf_search C A query_text top_k rrf_k w))
    = trace w
      ++ [EvEncode query_text;
          EvRun (QVector (top_k * 2) (encode C query_text) 0);
          EvRun (QFulltext query_text (top_k * 2) 0)]
      ++ rest.
Proof.
  unfold hybrid_rrf_search, bind at 1.
  unfold get_semantic_matches, model_encode, bind, emit, ret, session_run, cypher.
  cbn [graph trace draws now].
  unfold get_bm25_matches, session_run, cypher. cbn [graph trace draws now].
  rewrite <- !app_assoc. cbn [app].
  destruct (cypher_fulltext C query_text (top_k * 2) 0 (graph w)) as [bm|e].
  2:{ exists []. reflexivity. }
  match goal with
  | |- context [rrf_loop A rrf_k 1 ?rs [] ?w1] =>
      pose proof (rrf_loop_world A rrf_k 1 rs [] w1) as H1;
      destruct (rrf_loop A rrf_k 1 rs [] w1) as [[d1|e1] w1'];
      cbn [snd] in H1; subst w1'
  end.
  2:{ exists []. reflexivity. }
  match goal with
  | |- context [rrf_loop A rrf_k 1 bm d1 ?w1] =>
      pose proof (rrf_loop_world A rrf_k 1 bm d1 w1) as H2;
      destruct (rrf_loop A rrf_k 1 bm d1 w1) as [[d2|e2] w2'];
      cbn [snd] in H2; subst w2'
  end.
  2:{ exists []. reflexivity. }
  unfold get_data_tool. destruct (top_ranked A top_k d2) as [|id ids].
  - exists []. reflexivity.
  - eexists. unfold session_run, cypher. cbn [graph trace draws now snd].
    rewrite <- !app_assoc. reflexivity.
Qed.

(** The score of an item in the dict after the two loops over lists
    without repetition, whatever the arithmetic: the start value plus the
    contribution of its rank in the first list, plus that of its rank in
    the second, each when it is there. *)
Lemma scores_get_accumulate_absent (A : Arith) (rrf_k rank : Z)
    (ids : list Value) (d : list (Value * num A)) (x : Value) :
  ~ In x ids -> scores_get x (rrf_accumulate A rrf_k rank ids d) = scores_get x d.
Proof.
  revert rank d. induction ids as [|id ids IH]; intros rank d H; [reflexivity|].
  simpl. rewrite IH by (intros Hin; apply H; now right).
  rewrite scores_get_rrf_bump.
  destruct (value_eqb_spec id x) as [->|_]; [|reflexivity].
  exfalso. apply H. now left.
Qed.

Lemma scores_get_accumulate_nth (A : Arith) (rrf_k rank : Z)
    (ids : list Value) (d : list (Value * num A)) (x : Value) (i : nat) :
  NoDup ids -> nth_error ids i = Some x ->
  scores_get x (rrf_accumulate A rrf_k rank ids d)
  = Some (add A (match scores_get x d with Some v => v | None => zero A end)
                (one_over A (rrf_k + (rank + Z.of_nat i)))).
Proof.
  revert rank d i. induction ids as [|id ids IH]; intros rank d i Hnd Hi.
  - destruct i; discriminate.
  - inversion Hnd as [|? ? Hid Hids]; subst. destruct i as [|i]; simpl in Hi.
    + injection Hi as ->. simpl.
      rewrite scores_get_accumulate_absent by assumption.
      rewrite scores_get_rrf_bump, value_eqb_refl.
      now rewrite Z.add_0_r.
    + simpl rrf_accumulate. rewrite (IH (rank + 1)%Z _ i Hids Hi).
      rewrite scores_get_rrf_bump.
      destruct (value_eqb_spec id x) as [->|_].
      * exfalso. apply Hid. eapply nth_error_In. eassumption.
      * replace (rank + 1 + Z.of_nat i)%Z with (rank + Z.of_nat (S i))%Z by lia.
        reflexivity.
Qed.

(** C3. Whatever the arithmetic, [hybrid_rrf_search] asks the vector
    search and the full-text search for [2 * top_k] items each with
    [min_score = 0].  For [top_k >= 0] and an [rrf_k] that makes no
    denominator [rrf_k + rank] zero it returns the hydration of the ranked
    ids, and these are at most [top_k] (and so are the records returned,
    on a graph where no id is reached twice).  In lists without repetition
    an item at the 1-based ranks [i] and [j] of the two lists gets the
    score [(0 + 1/(rrf_k + i)) + 1/(rrf_k + j)], and an item that is in one
    list only gets the contribution of that list only.  In exact
    arithmetic, for any lists, the score is the sum over the two lists of
    [1 / (rrf_k + rank)] for every rank the item has. *)
Theorem hybrid_rrf_search_fusion (C : Collaborators) (query_text : string)
    (top_k rrf_k : Z) (w : World) :
  let sem := cypher_vector C (top_k * 2) (encode C query_text) 0 (graph w) in
  let bm := fulltext_rows C query_text (top_k * 2) 0 (graph w) in
  (forall A : Arith,
     exists rest,
       trace (snd (hybrid_rrf_search C A query_text top_k rrf_k w))
       = trace w
         ++ [EvEncode query_text;
             EvRun (QVector (top_k * 2) (encode C query_text) 0);
             EvRun (QFulltext query_text (top_k * 2) 0)]
         ++ rest)
  /\ ((0 <= top_k)%Z ->
      no_zero_division rrf_k (List.length sem) ->
      no_zero_division rrf_k (List.length bm) ->
      forall A : Arith,
        let r := hybrid_rrf_search C A query_text top_k rrf_k w in
        let ids := fuse A rrf_k top_k (node_ids sem) (node_ids bm) in
        fst r = Ok (cypher_get_data ids (graph w))
        /\ List.length ids <= Z.to_nat top_k
        /\ (unique_summary_ids (graph w) ->
            List.length (cypher_get_data ids (graph w)) <= Z.to_nat top_k))
  /\ (forall (A : Arith) (first second : list Value) (id : Value) (i j : nat),
        NoDup first -> NoDup second ->
        let scores := rrf_accumulate A rrf_k 1 second
                        (rrf_accumulate A rrf_k 1 first []) in
        let at_rank n := one_over A (rrf_k + (1 + Z.of_nat n)) in
        (nth_error first i = Some id -> nth_error second j = Some id ->
         scores_get id scores
         = Some (add A (add A (zero A) (at_rank i)) (at_rank j)))
        /\ (nth_error first i = Some id -> ~ In id second ->
            scores_get id scores = Some (add A (zero A) (at_rank i)))
        /\ (~ In id first -> nth_error second j = Some id ->
            scores_get id scores = Some (add A (zero A) (at_rank j)))
        /\ (~ In id first -> ~ In id second -> scores_get id scores = None))
  /\ (forall (first second : list Value) (id : Value),
        (score_of (rrf_accumulate exact rrf_k 1 second
                     (rrf_accumulate exact rrf_k 1 first [])) id
         == rrf_contribution rrf_k 1 first id
            + rrf_contribution rrf_k 1 second id)%Q).
Proof.
  intros sem bm. split; [|split; [|split]].
  - intros A. apply hybrid_rrf_search_requests.
  - intros Hk Hz1 Hz2 A r ids. unfold r.
    rewrite (hybrid_rrf_search_run C A query_text top_k rrf_k w Hk Hz1 Hz2).
    fold sem bm ids. cbn [fst]. split; [reflexivity|].
    assert (Hlen : List.length ids <= Z.to_nat top_k)
      by (apply top_ranked_length; assumption).
    split; [assumption|].
    intros Hu. pose proof (cypher_get_data_bound ids (graph w) Hu). lia.
  - intros A first second id i j Hnd1 Hnd2 scores at_rank. unfold scores, at_rank.
    repeat split.
    + intros Hi Hj. rewrite (scores_get_accumulate_nth A rrf_k 1 second _ id j Hnd2 Hj).
      now rewrite (scores_get_accumulate_nth A rrf_k 1 first [] id i Hnd1 Hi).
    + intros Hi Hj. rewrite (scores_get_accumulate_absent A rrf_k 1 second _ id Hj).
      now rewrite (scores_get_accumulate_nth A rrf_k 1 first [] id i Hnd1 Hi).
    + intros Hi Hj. rewrite (scores_get_accumulate_nth A rrf_k 1 second _ id j Hnd2 Hj).
      now rewrite (scores_get_accumulate_absent A rrf_k 1 first [] id Hi).
    + intros Hi Hj. rewrite (scores_get_accumulate_absent A rrf_k 1 second _ id Hj).
      now rewrite (scores_get_accumulate_absent A rrf_k 1 first [] id Hi).
  - intros first second id. apply score_of_fused.
Qed.

Lemma hybrid_rrf_search_fusion_witness :
  (0 <= 3)%Z
  /\ no_zero_division 60
       (List.length (cypher_vector ranking_collaborators (3 * 2)
                       (encode ranking_collaborators "x") 0
                       (graph three_summaries_world)))
  /\ no_zero_division 60
       (List.length (fulltext_rows ranking_collaborators "x" (3 * 2) 0
                       (graph three_summaries_world)))
  /\ unique_summary_ids (graph three_summaries_world)
  /\ fst (hybrid_rrf_search ranking_collaborators binary64 "x" 3 60
            three_summaries_world)
     = Ok (cypher_get_data
             (fuse binary64 60 3
                (node_ids (cypher_vector ranking_collaborators (3 * 2)
                             (encode ranking_collaborators "x") 0
                             (graph three_summaries_world)))
                (node_ids (fulltext_rows ranking_collaborators "x" (3 * 2) 0
                             (graph three_summaries_world))))
             (graph three_summaries_world))
  /\ List.length
       (cypher_get_data
          (fuse binary64 60 3
             (node_ids (cypher_vector ranking_collaborators (3 * 2)
                          (encode ranking_collaborators "x") 0
                          (graph three_summaries_world)))
             (node_ids (fulltext_rows ranking_collaborators "x" (3 * 2) 0
                          (graph three_summaries_world))))
          (graph three_summaries_world))
     <= Z.to_nat 3.
Proof.
  assert (Hz : forall n, no_zero_division 60 n) by (intros n rank H; lia).
  pose proof (reachable_unique_summary_ids _ _ three_summaries_world_reachable) as Hu.
  destruct (proj1 (proj2 (hybrid_rrf_search_fusion ranking_collaborators "x" 3 60
                            three_summaries_world))
                  ltac:(lia) (Hz _) (Hz _) binary64) as [Hr [_ Hb]].
  split; [lia|]. split; [apply Hz|]. split; [apply Hz|]. split; [exact Hu|].
  split; [exact Hr | exact (Hb Hu)].
Defined.

(** ** The order of the ranked ids and of the records returned *)

Lemma StronglySorted_weaken {A : Type} (R R' : A -> A -> Prop) (l : list A) :
  (forall x y, R x y -> R' x y) -> StronglySorted R l -> StronglySorted R' l.
Proof.
  intros H Hs. induction Hs as [|x l Hl IH Hx]; constructor; [assumption|].
  rewrite Forall_forall in *. auto.
Qed.

(** [sorted_desc] on rational keys: a permutation, descending, and the
    items of one key in the order they had. *)
Lemma sorted_desc_by_Q {A : Type} (key : A -> Q) (l : list A) :
  let ranked := sorted_desc Qltb key l in
  Permutation ranked l
  /\ StronglySorted (fun a b => (key b <= key a)%Q) ranked
  /\ forall q, filter (fun x => Qeq_bool (key x) q) ranked
               = filter (fun x => Qeq_bool (key x) q) l.
Proof.
  intros ranked. split; [apply sorted_desc_perm|]. split.
  - apply StronglySorted_weaken with (R := not_below Qltb key).
    + intros x y H. now apply Qltb_ge.
    + apply sorted_desc_sorted, Qltb_strict_weak.
  - intros q.
    assert (E : forall l' : list A,
                filter (fun x => Qeq_bool (key x) q) l'
                = filter (tied Qltb key q) l').
    { intros l'. apply filter_ext. intros x. unfold tied.
      apply eq_true_iff_eq. rewrite andb_true_iff, !negb_true_iff, !Qltb_ge.
      rewrite Qeq_bool_iff. split.
      - intros H. rewrite H. split; apply Qle_refl.
      - intros [H1 H2]. now apply Qle_antisym. }
    rewrite !E. apply sorted_desc_stable, Qltb_strict_weak.
Qed.

(** The items of the dict by score, descending, ties in the order of the
    dict. *)
Lemma ranked_by_score (d : list (Value * Q)) :
  let ranked := sorted_desc Qltb snd d in
  Permutation ranked d
  /\ StronglySorted (fun a b => (snd b <= snd a)%Q) ranked
  /\ forall q, filter (fun x => Qeq_bool (snd x) q) ranked
               = filter (fun x => Qeq_bool (snd x) q) d.
Proof. apply sorted_desc_by_Q. Qed.

(** C4, as the claim states it, fails: the fused ranking of the three
    summaries is b (u1), a (u0), c (u2), and the list returned is a, b, c,
    the order of the store, although a's score is below b's. *)
Lemma hybrid_rrf_search_returns_store_order :
  fuse exact 60 3 [VStr "u1"; VStr "u2"] [VStr "u0"; VStr "u1"]
  = [VStr "u1"; VStr "u0"; VStr "u2"]
  /\ fst (hybrid_rrf_search ranking_collaborators exact "x" 3 60
            three_summaries_world)
     = Ok [[("id", VStr "P1"); ("question", VStr "q"); ("summary", VStr "a")];
           [("id", VStr "P1"); ("question", VStr "q"); ("summary", VStr "b")];
           [("id", VStr "P1"); ("question", VStr "q"); ("summary", VStr "c")]]
  /\ fst (hybrid_rrf_search ranking_collaborators binary64 "x" 3 60
            three_summaries_world)
     = fst (hybrid_rrf_search ranking_collaborators exact "x" 3 60
              three_summaries_world)
  /\ (spec_rrf_score 60 [VStr "u1"; VStr "u2"] [VStr "u0"; VStr "u1"] (VStr "u0")
      < spec_rrf_score 60 [VStr "u1"; VStr "u2"] [VStr "u0"; VStr "u1"] (VStr "u1"))%Q.
Proof.
  split; [vm_compute; reflexivity|].
  split; [vm_compute; reflexivity|].
  split; [vm_compute; reflexivity|].
  vm_compute. reflexivity.
Qed.

(** C4, amended.  Whatever the arithmetic, the ids [hybrid_rrf_search]
    hands to [get_data_tool] are the first [top_k] keys of the score dict
    as its sort leaves them, the dict holding the node ids in first-seen
    order (vector results first, then full-text results); and the list
    returned holds the record of every HAS_SUMMARY match whose node id is
    among them, in the order of the store: it is the same for any list of
    the same ids.  In exact arithmetic the sort leaves the keys by
    accumulated score, descending, ties in first-seen order.  The doubles
    of the script round the scores, so they can part two items whose exact
    scores tie: with [rrf_k = 60], [x] at the ranks 3 and 80 and [y] at the
    ranks 24 and 30 both score 29/1260, exact arithmetic puts [x] first and
    the doubles put [y] first. *)
Theorem hybrid_rrf_search_ranking (C : Collaborators) (query_text : string)
    (top_k rrf_k : Z) (w : World) :
  (0 <= top_k)%Z ->
  let sem := cypher_vector C (top_k * 2) (encode C query_text) 0 (graph w) in
  let bm := fulltext_rows C query_text (top_k * 2) 0 (graph w) in
  no_zero_division rrf_k (List.length sem) ->
  no_zero_division rrf_k (List.length bm) ->
  let scores (A : Arith) :=
    rrf_accumulate A rrf_k 1 (node_ids bm)
      (rrf_accumulate A rrf_k 1 (node_ids sem) []) in
  let ranked (A : Arith) := sorted_desc (ltb A) snd (scores A) in
  let ids (A : Arith) := map fst (firstn (Z.to_nat top_k) (ranked A)) in
  (forall A : Arith,
     map fst (scores A) = first_seen [] (node_ids sem ++ node_ids bm)
     /\ Permutation (ranked A) (scores A)
     /\ fst (hybrid_rrf_search C A query_text top_k rrf_k w)
        = Ok (map snd (filter (asked_for (ids A)) (summary_links (graph w))))
     /\ (forall ids', (forall v, In v ids' <-> In v (ids A)) ->
                      cypher_get_data ids' (graph w)
                      = cypher_get_data (ids A) (graph w)))
  /\ StronglySorted (fun a b => (snd b <= snd a)%Q) (ranked exact)
  /\ (forall q, filter (fun x => Qeq_bool (snd x) q) (ranked exact)
                = filter (fun x => Qeq_bool (snd x) q) (scores exact))
  /\ (let x := VStr "x" in
      let y := VStr "y" in
      let exact_scores :=
        rrf_accumulate exact 60 1 tie_fulltext
          (rrf_accumulate exact 60 1 tie_vector []) in
      nth_error tie_vector 2 = Some x /\ nth_error tie_fulltext 79 = Some x
      /\ nth_error tie_vector 23 = Some y /\ nth_error tie_fulltext 29 = Some y
      /\ (score_of exact_scores x == 29 # 1260)%Q
      /\ (score_of exact_scores y == 29 # 1260)%Q
      /\ only [x; y] (fuse exact 60 197 tie_vector tie_fulltext) = [x; y]
      /\ only [x; y] (fuse binary64 60 197 tie_vector tie_fulltext) = [y; x]).
Proof.
  intros Hk sem bm Hz1 Hz2 scores ranked ids.
  split; [|split; [|split]].
  - intros A. split.
    { unfold scores. rewrite !keys_rrf_accumulate, first_seen_app. reflexivity. }
    split; [apply sorted_desc_perm|]. split.
    + rewrite (hybrid_rrf_search_run C A query_text top_k rrf_k w Hk Hz1 Hz2).
      cbn [fst]. rewrite cypher_get_data_links. unfold fuse, top_ranked.
      rewrite slice_to_firstn by assumption. reflexivity.
    + intros ids' H. now apply cypher_get_data_ext.
  - exact (proj1 (proj2 (ranked_by_score (scores exact)))).
  - exact (proj2 (proj2 (ranked_by_score (scores exact)))).
  - repeat split; vm_compute; reflexivity.
Qed.

Lemma hybrid_rrf_search_ranking_witness :
  (0 <= 3)%Z
  /\ no_zero_division 60
       (List.length (cypher_vector ranking_collaborators (3 * 2)
                       (encode ranking_collaborators "x") 0
                       (graph three_summaries_world)))
  /\ no_zero_division 60
       (List.length (fulltext_rows ranking_collaborators "x" (3 * 2) 0
                       (graph three_summaries_world)))
  /\ map fst
       (rrf_accumulate binary64 60 1
          (node_ids (fulltext_rows ranking_collaborators "x" (3 * 2) 0
                       (graph three_summaries_world)))
          (rrf_accumulate binary64 60 1
             (node_ids (cypher_vector ranking_collaborators (3 * 2)
                          (encode ranking_collaborators "x") 0
                          (graph three_summaries_world))) []))
     = first_seen []
         (node_ids (cypher_vector ranking_collaborators (3 * 2)
                      (encode ranking_collaborators "x") 0
                      (graph three_summaries_world))
          ++ node_ids (fulltext_rows ranking_collaborators "x" (3 * 2) 0
                         (graph three_summaries_world))).
Proof.
  assert (Hz : forall n, no_zero_division 60 n) by (intros n rank H; lia).
  split; [lia|]. split; [apply Hz|]. split; [apply Hz|].
  exact (proj1 (proj1 (hybrid_rrf_search_ranking ranking_collaborators "x" 3 60
                         three_summaries_world ltac:(lia) (Hz _) (Hz _))
                      binary64)).
Defined.

(** ** Which list is processed first *)

Lemma no_ties_spec (d : list (Value * Q)) (x y : Value * Q) :
  no_ties d = true -> In x d -> In y d -> (snd x == snd y)%Q -> x = y.
Proof.
  induction d as [|a d IH]; simpl; [tauto|].
  intros H Hx Hy Heq. apply andb_true_iff in H. destruct H as [Ha Hd].
  rewrite forallb_forall in Ha.
  destruct Hx as [<-|Hx], Hy as [<-|Hy]; auto.
  - apply Ha in Hy. apply negb_true_iff in Hy.
    apply Qeq_bool_iff in Heq. congruence.
  - apply Ha in Hx. apply negb_true_iff in Hx.
    symmetry in Heq. apply Qeq_bool_iff in Heq. congruence.
Qed.

Lemma scores_get_In {N : Type} (d : list (Value * N)) (k : Value) (v : N) :
  NoDup (map fst d) -> In (k, v) d -> scores_get k d = Some v.
Proof.
  induction d as [|[k' v'] d IH]; simpl; [tauto|].
  intros Hnd [H|H].
  - injection H as -> ->. now rewrite value_eqb_refl.
  - inversion Hnd as [|? ? Hk Hd]; subst.
    destruct (value_eqb_spec k' k) as [->|_].
    + exfalso. apply Hk. now apply (in_map fst) in H.
    + now apply IH.
Qed.

Lemma NoDup_keys {N : Type} (d : list (Value * N)) :
  NoDup (map fst d) -> NoDup d.
Proof. apply NoDup_map_inv. Qed.

Lemma StronglySorted_In {A : Type} (R R' : A -> A -> Prop) (l : list A) :
  (forall x y, In x l -> In y l -> R x y -> R' x y) ->
  StronglySorted R l -> StronglySorted R' l.
Proof.
  intros H Hs. induction Hs as [|x l Hl IH Hx].
  - constructor.
  - constructor.
    + apply IH. intros a b Ha Hb. apply H; now right.
    + rewrite Forall_forall in *. intros y Hy. apply H; [now left | now right | auto].
Qed.

Lemma StronglySorted_NoDup {A : Type} (R : A -> A -> Prop) (l : list A) :
  NoDup l -> StronglySorted R l ->
  StronglySorted (fun x y => R x y /\ x <> y) l.
Proof.
  intros Hnd Hs. induction Hs as [|x l Hl IH Hx].
  - constructor.
  - inversion Hnd as [|? ? Hin Hnd']; subst. constructor; [now apply IH|].
    rewrite Forall_forall in *. intros y Hy. split; [now apply Hx|].
    intros ->. contradiction.
Qed.

Lemma StronglySorted_map {A B : Type} (f : A -> B) (R : B -> B -> Prop)
    (l : list A) :
  StronglySorted (fun x y => R (f x) (f y)) l -> StronglySorted R (map f l).
Proof.
  intros Hs. induction Hs as [|x l Hl IH Hx]; simpl; constructor; [assumption|].
  rewrite Forall_forall in *. intros y Hy. apply in_map_iff in Hy.
  destruct Hy as [a [<- Ha]]. now apply Hx.
Qed.

(** Two lists of the same elements, both in a strict order, are equal. *)
Lemma StronglySorted_unique {A : Type} (R : A -> A -> Prop) (l l' : list A) :
  (forall x y, R x y -> R y x -> False) ->
  (forall x, In x l <-> In x l') ->
  NoDup l -> NoDup l' ->
  StronglySorted R l -> StronglySorted R l' -> l = l'.
Proof.
  intros Hasym. revert l'. induction l as [|x l IH]; intros l' Hin Hnd Hnd' Hs Hs'.
  - destruct l' as [|y l']; [reflexivity|].
    exfalso. apply (Hin y). now left.
  - destruct l' as [|y l'].
    + exfalso. apply (Hin x). now left.
    + inversion Hs as [|? ? Hl Hx]; subst. inversion Hs' as [|? ? Hl' Hy]; subst.
      inversion Hnd as [|? ? Hxl Hndl]; subst. inversion Hnd' as [|? ? Hyl Hndl']; subst.
      rewrite Forall_forall in Hx, Hy.
      assert (Exy : x = y).
      { destruct (proj1 (Hin x) (or_introl eq_refl)) as [E|Hxl']; [now symmetry|].
        destruct (proj2 (Hin y) (or_introl eq_refl)) as [E|Hyl']; [assumption|].
        exfalso. apply (Hasym x y); [now apply Hx | now apply Hy]. }
      subst y. f_equal. apply IH; try assumption.
      intros z. split; intros Hz.
      * destruct (proj1 (Hin z) (or_intror Hz)) as [E|H]; [|assumption].
        subst z. contradiction.
      * destruct (proj2 (Hin z) (or_intror Hz)) as [E|H]; [|assumption].
        subst z. contradiction.
Qed.

Lemma keys_fused_NoDup (A : Arith) (rrf_k : Z) (first second : list Value) :
  NoDup (map fst (rrf_accumulate A rrf_k 1 second
                    (rrf_accumulate A rrf_k 1 first []))).
Proof. rewrite !keys_rrf_accumulate. apply first_seen_NoDup, first_seen_NoDup. constructor. Qed.

Lemma keys_fused_In (A : Arith) (rrf_k : Z) (first second : list Value) (x : Value) :
  In x (map fst (rrf_accumulate A rrf_k 1 second
                   (rrf_accumulate A rrf_k 1 first [])))
  <-> In x first \/ In x second.
Proof. rewrite !keys_rrf_accumulate, !first_seen_In. simpl. tauto. Qed.

Lemma score_of_swap (rrf_k : Z) (first second : list Value) (x : Value) :
  (score_of (rrf_accumulate exact rrf_k 1 first
               (rrf_accumulate exact rrf_k 1 second [])) x
   == score_of (rrf_accumulate exact rrf_k 1 second
                  (rrf_accumulate exact rrf_k 1 first [])) x)%Q.
Proof.
  rewrite !score_of_fused. unfold spec_rrf_score. apply Qplus_comm.
Qed.

(** The ranked ids of a dict without ties stand in the strict order of
    any score function that agrees with the dict. *)
Lemma ranked_ids_strict (d : list (Value * Q)) (f : Value -> Q) :
  NoDup (map fst d) ->
  (forall k v, In (k, v) d -> (v == f k)%Q) ->
  (forall x y, In x d -> In y d -> (snd x == snd y)%Q -> x = y) ->
  StronglySorted (fun a b => (f b < f a)%Q) (map fst (sorted_desc Qltb snd d)).
Proof.
  intros Hnd Hf Hties.
  destruct (ranked_by_score d) as [Hperm [Hsorted _]].
  apply StronglySorted_map.
  assert (Hnd' : NoDup (sorted_desc Qltb snd d)).
  { apply (Permutation_NoDup (Permutation_sym Hperm)). now apply NoDup_keys. }
  apply (StronglySorted_NoDup _ _ Hnd') in Hsorted.
  revert Hsorted. apply StronglySorted_In.
  intros [k v] [k' v'] Hx Hy [Hle Hne]. simpl in *.
  apply (Permutation_in _ Hperm) in Hx, Hy.
  rewrite <- (Hf k v Hx), <- (Hf k' v' Hy).
  destruct (Qlt_le_dec v' v) as [Hlt|Hge]; [assumption|].
  exfalso. apply Hne. apply Hties; try assumption. simpl.
  now apply Qle_antisym.
Qed.

Lemma score_of_In (d : list (Value * Q)) (k : Value) (v : Q) :
  NoDup (map fst d) -> In (k, v) d -> score_of d k = v.
Proof.
  intros Hnd H. unfold score_of. now rewrite (scores_get_In d k v Hnd H).
Qed.

Lemma In_score_of (d : list (Value * Q)) (k : Value) :
  NoDup (map fst d) -> In k (map fst d) -> In (k, score_of d k) d.
Proof.
  intros Hnd H. apply in_map_iff in H. destruct H as [[k' v] [Hk Hin]].
  simpl in Hk. subst k'. now rewrite (score_of_In d k v Hnd Hin).
Qed.

Lemma Permutation_In_iff {A : Type} (l l' : list A) (x : A) :
  Permutation l l' -> (In x l <-> In x l').
Proof.
  intros H. split; [apply (Permutation_in x H)|].
  apply (Permutation_in x (Permutation_sym H)).
Qed.

(** C5, as the claim states it, fails: the items a and b stand alone in
    one list each and tie at 1/61; the list whose loop runs first decides
    which of them comes first. *)
Lemma fuse_tie_follows_processing_order :
  fuse exact 60 5 [VStr "a"] [VStr "b"] = [VStr "a"; VStr "b"]
  /\ fuse exact 60 5 [VStr "b"] [VStr "a"] = [VStr "b"; VStr "a"]
  /\ fuse binary64 60 5 [VStr "a"] [VStr "b"] = [VStr "a"; VStr "b"]
  /\ fuse binary64 60 5 [VStr "b"] [VStr "a"] = [VStr "b"; VStr "a"]
  /\ (spec_rrf_score 60 [VStr "a"] [VStr "b"] (VStr "a")
      == spec_rrf_score 60 [VStr "a"] [VStr "b"] (VStr "b"))%Q.
Proof. repeat split; vm_compute; reflexivity. Qed.

(** C5, amended.  The ranked ids are a function of the two lists.
    Processing the lists in the other order gives every item the same
    accumulated score and the dict the same keys; and when no two items
    have the same score, it gives the same ranked ids.  (Items that tie
    come in first-seen order, which follows the order of processing.) *)
Theorem fuse_order_of_lists (rrf_k top_k : Z) (first second : list Value) :
  let d := rrf_accumulate exact rrf_k 1 second
             (rrf_accumulate exact rrf_k 1 first []) in
  let d' := rrf_accumulate exact rrf_k 1 first
              (rrf_accumulate exact rrf_k 1 second []) in
  (forall id, (score_of d' id == score_of d id)%Q)
  /\ (forall id, In id (map fst d') <-> In id (map fst d))
  /\ (no_ties d = true ->
      fuse exact rrf_k top_k second first = fuse exact rrf_k top_k first second).
Proof.
  intros d d'.
  assert (Hscore : forall id, (score_of d' id == score_of d id)%Q).
  { intros id. apply score_of_swap. }
  assert (Hkeys : forall id, In id (map fst d') <-> In id (map fst d)).
  { intros id. unfold d, d'. rewrite !keys_fused_In. tauto. }
  split; [exact Hscore|]. split; [exact Hkeys|].
  intros Hnt. unfold fuse, top_ranked. fold d d'.
  rewrite !slice_to_map. f_equal.
  pose proof (keys_fused_NoDup exact rrf_k first second) as Hnd. fold d in Hnd.
  pose proof (keys_fused_NoDup exact rrf_k second first) as Hnd'. fold d' in Hnd'.
  apply (StronglySorted_unique (fun a b => (score_of d b < score_of d a)%Q)).
  - intros x y H1 H2. apply (Qlt_irrefl (score_of d x)).
    now apply Qlt_trans with (score_of d y).
  - intros x.
    rewrite (Permutation_In_iff _ _ x (Permutation_map fst (sorted_desc_perm Qltb snd d'))).
    rewrite (Permutation_In_iff _ _ x (Permutation_map fst (sorted_desc_perm Qltb snd d))).
    apply Hkeys.
  - apply (Permutation_NoDup (Permutation_sym
             (Permutation_map fst (sorted_desc_perm Qltb snd d')))). exact Hnd'.
  - apply (Permutation_NoDup (Permutation_sym
             (Permutation_map fst (sorted_desc_perm Qltb snd d)))). exact Hnd.
  - apply ranked_ids_strict; [exact Hnd' | |].
    + intros k v H. rewrite <- (score_of_In d' k v Hnd' H). apply Hscore.
    + intros [k v] [k' v'] Hx Hy Heq. simpl in Heq.
      assert (Ek : k = k').
      { assert (Hk : In (k, score_of d k) d).
        { apply In_score_of; [exact Hnd|]. apply Hkeys. now apply (in_map fst) in Hx. }
        assert (Hk' : In (k', score_of d k') d).
        { apply In_score_of; [exact Hnd|]. apply Hkeys. now apply (in_map fst) in Hy. }
        assert (E : (k, score_of d k) = (k', score_of d k')).
        { apply (no_ties_spec d); try assumption. simpl.
          rewrite <- !Hscore.
          now rewrite (score_of_In d' k v Hnd' Hx), (score_of_In d' k' v' Hnd' Hy). }
        congruence. }
      subst k'. f_equal.
      rewrite <- (score_of_In d' k v Hnd' Hx). now apply score_of_In.
  - apply ranked_ids_strict; [exact Hnd | |].
    + intros k v H. now rewrite (score_of_In d k v Hnd H).
    + intros x y. now apply no_ties_spec.
Qed.

Lemma fuse_order_of_lists_witness :
  no_ties (rrf_accumulate exact 60 1 [VStr "a"; VStr "b"]
             (rrf_accumulate exact 60 1 [VStr "b"; VStr "c"] [])) = true
  /\ fuse exact 60 3 [VStr "a"; VStr "b"] [VStr "b"; VStr "c"]
     = fuse exact 60 3 [VStr "b"; VStr "c"] [VStr "a"; VStr "b"].
Proof.
  split; [vm_compute; reflexivity|].
  apply (proj2 (proj2 (fuse_order_of_lists 60 3 [VStr "b"; VStr "c"]
                         [VStr "a"; VStr "b"]))).
  vm_compute. reflexivity.
Defined.

(** ** First in both lists against first in one *)

Lemma inject_Z_pos (n : Z) : (0 < n)%Z -> (0 < inject_Z n)%Q.
Proof. intros H. unfold Qlt. simpl. lia. Qed.

Lemma one_over_lt (a b : Z) :
  (0 < a)%Z -> (a < b)%Z -> (1 / inject_Z b < 1 / inject_Z a)%Q.
Proof.
  intros Ha Hab. unfold Qdiv. rewrite !Qmult_1_l.
  assert (Hqa : (0 < inject_Z a)%Q) by now apply inject_Z_pos.
  assert (Hqb : (0 < inject_Z b)%Q) by (apply inject_Z_pos; lia).
  apply (proj1 (Qinv_lt_contravar (inject_Z a) (inject_Z b) Hqa Hqb)).
  now rewrite <- Zlt_Qlt.
Qed.

Lemma one_over_le (a b : Z) :
  (0 < a)%Z -> (a <= b)%Z -> (1 / inject_Z b <= 1 / inject_Z a)%Q.
Proof.
  intros Ha Hab. destruct (Z.eq_dec a b) as [->|Hne].
  - apply Qle_refl.
  - apply Qlt_le_weak. apply one_over_lt; lia.
Qed.

Lemma one_over_pos (a : Z) : (0 < a)%Z -> (0 < 1 / inject_Z a)%Q.
Proof.
  intros Ha. unfold Qdiv. rewrite Qmult_1_l. apply Qinv_lt_0_compat.
  now apply inject_Z_pos.
Qed.

Lemma rrf_contribution_head (rrf_k : Z) (ids : list Value) (x : Value) :
  NoDup ids -> hd_error ids = Some x ->
  (rrf_contribution rrf_k 1 ids x == 1 / inject_Z (rrf_k + 1))%Q.
Proof.
  intros Hnd Hx. unfold rrf_contribution.
  rewrite (ranks_from_nth 1 ids x 0 Hnd).
  - simpl. apply Qplus_0_r.
  - destruct ids; [discriminate | exact Hx].
Qed.

Lemma rrf_contribution_below_head (rrf_k : Z) (ids : list Value) (y : Value) :
  (0 < rrf_k)%Z -> NoDup ids -> hd_error ids <> Some y ->
  (rrf_contribution rrf_k 1 ids y <= 1 / inject_Z (rrf_k + 2))%Q.
Proof.
  intros Hk Hnd Hy. unfold rrf_contribution.
  destruct (in_dec (fun a b => reflect_dec _ _ (value_eqb_spec a b)) y ids) as [Hin|Hout].
  - apply In_nth_error in Hin. destruct Hin as [i Hi].
    rewrite (ranks_from_nth 1 ids y i Hnd Hi).
    unfold Qsum. cbn [map fold_right]. rewrite Qplus_0_r.
    destruct i as [|i].
    + exfalso. apply Hy. destruct ids; [discriminate | exact Hi].
    + apply one_over_le; lia.
  - rewrite (ranks_from_absent 1 ids y Hout). simpl.
    apply Qlt_le_weak, one_over_pos. lia.
Qed.

(** C6, as the claim states it, fails.  In its scenario b stands second
    in the lexical list, so its score is 1/61 + 1/62 and not 1/61 + 1/61.
    And in doubles the order is not strict for every [rrf_k > 0]: at
    [rrf_k = 3 * 2^51] the quotients 1/(rrf_k + 1) and 1/(rrf_k + 2) are the
    same double, so x, first in both lists, ties with y, first in one list
    and second in the other. *)
Lemma scenario_score_of_b :
  (score_of (rrf_accumulate exact 60 1 [VStr "a"; VStr "b"]
               (rrf_accumulate exact 60 1 [VStr "b"; VStr "c"] []))
            (VStr "b")
   == 1 / 61 + 1 / 62)%Q
  /\ ~ (score_of (rrf_accumulate exact 60 1 [VStr "a"; VStr "b"]
                    (rrf_accumulate exact 60 1 [VStr "b"; VStr "c"] []))
                 (VStr "b")
        == 1 / 61 + 1 / 61)%Q
  /\ scores_get (VStr "x")
       (rrf_accumulate binary64 6755399441055744 1 [VStr "x"]
          (rrf_accumulate binary64 6755399441055744 1 [VStr "x"] []))
     = scores_get (VStr "y")
         (rrf_accumulate binary64 6755399441055744 1 [VStr "z"; VStr "y"]
            (rrf_accumulate binary64 6755399441055744 1 [VStr "y"; VStr "z"] [])).
Proof.
  split; [vm_compute; reflexivity|]. split; [vm_compute; discriminate|].
  vm_compute. reflexivity.
Qed.

(** C6, amended.  In exact arithmetic, for [rrf_k > 0] and lists without
    repetition, an item first in both lists scores [2 / (rrf_k + 1)], and
    that is above the score of any item that is first in only one of two
    lists.  With the lexical list [a, b], the vector list [b, c] and
    [rrf_k = 60] the ranked ids are b, a, c, in exact arithmetic and in
    doubles: b scores 1/61 + 1/62, above a's 1/61, above c's 1/62. *)
Theorem rrf_first_in_both_wins (rrf_k : Z)
    (vector1 lexical1 vector2 lexical2 : list Value) (x y : Value) :
  (0 < rrf_k)%Z ->
  NoDup vector1 -> NoDup lexical1 -> NoDup vector2 -> NoDup lexical2 ->
  hd_error vector1 = Some x -> hd_error lexical1 = Some x ->
  (hd_error vector2 = Some y /\ hd_error lexical2 <> Some y)
  \/ (hd_error lexical2 = Some y /\ hd_error vector2 <> Some y) ->
  let score1 := score_of (rrf_accumulate exact rrf_k 1 lexical1
                            (rrf_accumulate exact rrf_k 1 vector1 [])) in
  let score2 := score_of (rrf_accumulate exact rrf_k 1 lexical2
                            (rrf_accumulate exact rrf_k 1 vector2 [])) in
  (score1 x == 1 / inject_Z (rrf_k + 1) + 1 / inject_Z (rrf_k + 1))%Q
  /\ (score2 y < score1 x)%Q
  /\ (let a := VStr "a" in
      let b := VStr "b" in
      let c := VStr "c" in
      let score := score_of (rrf_accumulate exact 60 1 [a; b]
                               (rrf_accumulate exact 60 1 [b; c] [])) in
      fuse exact 60 3 [b; c] [a; b] = [b; a; c]
      /\ fuse binary64 60 3 [b; c] [a; b] = [b; a; c]
      /\ (score b == 1 / 61 + 1 / 62)%Q
      /\ (score a == 1 / 61)%Q
      /\ (score c == 1 / 62)%Q
      /\ (score c < score a)%Q /\ (score a < score b)%Q).
Proof.
  intros Hk Hv1 Hl1 Hv2 Hl2 Hxv Hxl Hy score1 score2.
  assert (Hx : (score1 x == 1 / inject_Z (rrf_k + 1) + 1 / inject_Z (rrf_k + 1))%Q).
  { unfold score1. rewrite score_of_fused. unfold spec_rrf_score.
    now rewrite !rrf_contribution_head. }
  split; [exact Hx|]. split.
  - rewrite Hx. unfold score2. rewrite score_of_fused. unfold spec_rrf_score.
    assert (Hlt : (1 / inject_Z (rrf_k + 2) < 1 / inject_Z (rrf_k + 1))%Q)
      by (apply one_over_lt; lia).
    destruct Hy as [[Hy1 Hy2]|[Hy1 Hy2]].
    + rewrite (rrf_contribution_head rrf_k vector2 y Hv2 Hy1).
      pose proof (rrf_contribution_below_head rrf_k lexical2 y Hk Hl2 Hy2) as Hle.
      revert Hlt Hle.
      generalize (rrf_contribution rrf_k 1 lexical2 y) (1 / inject_Z (rrf_k + 1))%Q
                 (1 / inject_Z (rrf_k + 2))%Q.
      intros c u v Hlt Hle. clear - Hlt Hle. lra.
    + rewrite (rrf_contribution_head rrf_k lexical2 y Hl2 Hy1).
      pose proof (rrf_contribution_below_head rrf_k vector2 y Hk Hv2 Hy2) as Hle.
      revert Hlt Hle.
      generalize (rrf_contribution rrf_k 1 vector2 y) (1 / inject_Z (rrf_k + 1))%Q
                 (1 / inject_Z (rrf_k + 2))%Q.
      intros c u v Hlt Hle. clear - Hlt Hle. lra.
  - intros a b c score. repeat split; vm_compute; reflexivity.
Qed.

Lemma rrf_first_in_both_wins_witness :
  (0 < 60)%Z
  /\ NoDup [VStr "b"; VStr "c"] /\ NoDup [VStr "b"; VStr "a"]
  /\ NoDup [VStr "a"; VStr "b"]
  /\ (score_of (rrf_accumulate exact 60 1 [VStr "a"; VStr "b"]
                  (rrf_accumulate exact 60 1 [VStr "b"; VStr "c"] []))
               (VStr "b")
      < score_of (rrf_accumulate exact 60 1 [VStr "b"; VStr "a"]
                    (rrf_accumulate exact 60 1 [VStr "b"; VStr "c"] []))
                 (VStr "b"))%Q.
Proof.
  assert (Hbc : NoDup [VStr "b"; VStr "c"]).
  { repeat constructor; simpl; intuition discriminate. }
  assert (Hba : NoDup [VStr "b"; VStr "a"]).
  { repeat constructor; simpl; intuition discriminate. }
  assert (Hab : NoDup [VStr "a"; VStr "b"]).
  { repeat constructor; simpl; intuition discriminate. }
  split; [lia|]. split; [exact Hbc|]. split; [exact Hba|]. split; [exact Hab|].
  apply (rrf_first_in_both_wins 60 [VStr "b"; VStr "c"] [VStr "b"; VStr "a"]
           [VStr "b"; VStr "c"] [VStr "a"; VStr "b"] (VStr "b") (VStr "b"));
    try assumption; try reflexivity; try lia.
  left. split; [reflexivity | discriminate].
Defined.

(** ** The reranking pass *)

Lemma lookup_set_key (k : string) (v : Value) (d : Dict) :
  lookup k (set_key k v d) = Some v.
Proof.
  induction d as [|[k' v'] d IH]; simpl.
  - now rewrite String.eqb_refl.
  - destruct (String.eqb k' k) eqn:E; simpl; rewrite E; [reflexivity | exact IH].
Qed.

Lemma mapM_ok {A B : Type} (f : A -> Tool B) (g : A -> B) (l : list A) (w : World) :
  (forall x, In x l -> f x w = (Ok (g x), w)) ->
  mapM f l w = (Ok (map g l), w).
Proof.
  induction l as [|x l IH]; intros H; [reflexivity|].
  simpl. unfold bind. rewrite (H x (or_introl eq_refl)).
  rewrite IH; [reflexivity|]. intros y Hy. apply H. now right.
Qed.

Lemma combine_map_r {A B : Type} (f : A -> B) (l : list A) :
  combine l (map f l) = map (fun x => (x, f x)) l.
Proof. induction l as [|x l IH]; simpl; [reflexivity | now rewrite IH]. Qed.

Lemma filter_map_swap {A B : Type} (f : A -> B) (keep : B -> bool) (l : list A) :
  filter keep (map f l) = map f (filter (fun x => keep (f x)) l).
Proof.
  induction l as [|x l IH]; simpl; [reflexivity|].
  destruct (keep (f x)); simpl; now rewrite IH.
Qed.

Lemma rerank_run (C : Collaborators) (query_text : string)
    (candidates : list Dict) (top_k : Z) (w : World) :
  candidates <> [] ->
  Forall (fun c => lookup "summary" c <> None) candidates ->
  let keyed := map (fun c => (cross_score_of c, c))
                   (map (scored C query_text) candidates) in
  rerank C query_text candidates top_k w
  = (Ok (slice_to top_k (map snd (sorted_desc Qltb fst keyed))),
     mkWorld (graph w)
             (trace w ++ [EvPredict (map (fun c => (query_text, summary_of c))
                                         candidates)])
             (draws w) (now w)).
Proof.
  intros Hne Hsum keyed. subst keyed.
  unfold rerank. destruct candidates as [|c rest] eqn:E; [congruence|].
  rewrite <- E in *. clear E c rest. unfold bind at 1.
  rewrite (mapM_ok _ (fun c => (query_text, summary_of c)) candidates w).
  2:{ intros x Hx. rewrite Forall_forall in Hsum. specialize (Hsum x Hx).
      unfold bind, getitem, summary_of.
      destruct (lookup "summary" x); [reflexivity | congruence]. }
  unfold bind at 1. unfold cross_encoder_predict, bind, emit, ret.
  cbn [graph trace draws now fst snd].
  rewrite !map_map. cbn [fst snd].
  rewrite length_map, skipn_all, app_nil_r.
  rewrite (combine_map_r (fun c => score_pair C query_text (summary_of c)) candidates).
  rewrite map_map. cbn [fst snd]. fold (scored C query_text).
  set (w' := mkWorld _ _ _ _).
  rewrite (mapM_ok _ (fun c => (cross_score_of c, c))
                   (map (scored C query_text) candidates) w').
  - rewrite !map_map. reflexivity.
  - intros x Hx. apply in_map_iff in Hx. destruct Hx as [c0 [<- _]].
    unfold bind, getitem, cross_score_of, scored.
    rewrite lookup_set_key. reflexivity.
Qed.

(** C8. For [top_k >= 0] and candidates that carry a summary, the
    reranking pass of [hybrid_rerank_search] leaves the graph alone and,
    when there is no candidate, returns the empty list without calling the
    cross-encoder; otherwise it calls the cross-encoder once, on the batch
    that holds for each candidate, in order, its one pair (query, summary);
    gives each candidate the score of its pair; and returns the first
    [top_k] of the candidates by that score, descending (candidates with
    the same score in the order they came in). *)
Theorem rerank_scores_sorts_truncates (C : Collaborators) (query_text : string)
    (candidates : list Dict) (top_k : Z) (w : World) :
  (0 <= top_k)%Z ->
  Forall (fun c => lookup "summary" c <> None) candidates ->
  let r := rerank C query_text candidates top_k w in
  graph (snd r) = graph w
  /\ match candidates with
     | [] => fst r = Ok [] /\ trace (snd r) = trace w
     | _ =>
         let pairs := map (fun c => (query_text, summary_of c)) candidates in
         trace (snd r) = trace w ++ [EvPredict pairs]
         /\ List.length pairs = List.length candidates
         /\ exists ranked,
              fst r = Ok (firstn (Z.to_nat top_k) ranked)
              /\ Permutation ranked (map (scored C query_text) candidates)
              /\ (forall c, In c candidates ->
                    cross_score_of (scored C query_text c)
                    = score_pair C query_text (summary_of c))
              /\ StronglySorted
                   (fun a b => (cross_score_of b <= cross_score_of a)%Q) ranked
              /\ (forall s,
                    filter (fun c => Qeq_bool (cross_score_of c) s) ranked
                    = filter (fun c => Qeq_bool (cross_score_of c) s)
                             (map (scored C query_text) candidates))
     end.
Proof.
  intros Hk Hsum r. unfold r. destruct candidates as [|c rest].
  - simpl. auto.
  - rewrite (rerank_run C query_text (c :: rest) top_k w ltac:(discriminate) Hsum).
    cbn [fst snd graph trace].
    split; [reflexivity|]. split; [reflexivity|]. split; [apply length_map|].
    set (cands := map (scored C query_text) (c :: rest)).
    set (keyed := map (fun c => (cross_score_of c, c)) cands).
    destruct (sorted_desc_by_Q fst keyed) as [Hperm [Hsorted Hstable]].
    assert (Hkey : forall x, In x (sorted_desc Qltb fst keyed) ->
                             fst x = cross_score_of (snd x)).
    { intros x Hx. apply (Permutation_in _ Hperm) in Hx. unfold keyed in Hx.
      apply in_map_iff in Hx. destruct Hx as [c0 [<- _]]. reflexivity. }
    assert (Hsnd : map snd keyed = cands).
    { unfold keyed. rewrite map_map. cbn [snd]. apply map_id. }
    exists (map snd (sorted_desc Qltb fst keyed)).
    split; [now rewrite slice_to_firstn|]. split.
    { rewrite <- Hsnd. now apply Permutation_map. }
    split.
    { intros c0 _. unfold cross_score_of, scored. now rewrite lookup_set_key. }
    split.
    { apply StronglySorted_map. revert Hsorted. apply StronglySorted_In.
      intros x y Hx Hy H. now rewrite <- (Hkey x Hx), <- (Hkey y Hy). }
    intros s. rewrite filter_map_swap.
    rewrite (filter_ext_in (fun x => Qeq_bool (cross_score_of (snd x)) s)
                           (fun x => Qeq_bool (fst x) s)).
    2:{ intros x Hx. now rewrite (Hkey x Hx). }
    rewrite Hstable. rewrite <- Hsnd. rewrite filter_map_swap. f_equal.
    apply filter_ext_in. intros x Hx. unfold keyed in Hx.
    apply in_map_iff in Hx. destruct Hx as [c0 [<- _]]. reflexivity.
Qed.

Lemma rerank_scores_sorts_truncates_witness :
  (0 <= 2)%Z
  /\ Forall (fun c => lookup "summary" c <> None)
            [[("id", VStr "P1"); ("question", VStr "q"); ("summary", VStr "a")];
             [("id", VStr "P1"); ("question", VStr "q"); ("summary", VStr "c")];
             [("id", VStr "P1"); ("question", VStr "q"); ("summary", VStr "b")]]
  /\ trace (snd (rerank ranking_collaborators "x"
                   [[("id", VStr "P1"); ("question", VStr "q"); ("summary", VStr "a")];
                    [("id", VStr "P1"); ("question", VStr "q"); ("summary", VStr "c")];
                    [("id", VStr "P1"); ("question", VStr "q"); ("summary", VStr "b")]]
                   2 initial_world))
     = [EvPredict [("x", VStr "a"); ("x", VStr "c"); ("x", VStr "b")]].
Proof.
  assert (Hs : Forall (fun c => lookup "summary" c <> None)
            [[("id", VStr "P1"); ("question", VStr "q"); ("summary", VStr "a")];
             [("id", VStr "P1"); ("question", VStr "q"); ("summary", VStr "c")];
             [("id", VStr "P1"); ("question", VStr "q"); ("summary", VStr "b")]]).
  { repeat constructor; discriminate. }
  split; [lia|]. split; [exact Hs|].
  exact (proj1 (proj2 (rerank_scores_sorts_truncates ranking_collaborators "x" _ 2
                         initial_world ltac:(lia) Hs))).
Defined.

(** * Further properties of the tools *)

(** ** More on the upsert and delete statements *)

Lemma project_set_in_refs (pid name question : string) (t : nat)
    (g g1 : Graph) (p : nat) :
  project_set pid name question t g g1 p -> In p (refs g1).
Proof.
  intros Hps. pose proof (ps_node _ _ _ _ _ _ _ Hps) as Hn.
  apply find_node_In in Hn. destruct Hn as [Hn _]. now apply (in_map node_ref) in Hn.
Qed.

Lemma merge_set_project_other (pid name question : string) (t : nat) (g : Graph)
    (r : nat) (n : Node) :
  find_node g r = Some n -> is_project_with_id pid n = false ->
  find_node (fst (merge_set_project pid name question t g)) r = Some n.
Proof.
  intros Hn Hid. unfold merge_set_project.
  destruct (match_project g pid) as [|p ps]; cbn [fst].
  - unfold add_node. destruct g as [ns es]. cbn [nodes rels].
    rewrite find_node_app. now rewrite Hn.
  - destruct g as [ns es]. cbn [nodes rels]. rewrite find_node_map.
    + rewrite Hn. simpl. now rewrite Hid.
    + intros m. now destruct (is_project_with_id pid m).
Qed.

(** The graph the statement leaves, with the graph after its MERGE. *)
Lemma cypher_upsert_attached (t : nat) (pid name question text : string)
    (emb : Embedding) (sid : string) (g : Graph) :
  wf g ->
  exists g1 p,
    merge_set_project pid name question t g = (g1, [p])
    /\ project_set pid name question t g g1 p
    /\ fst (cypher_upsert t pid name question text emb sid g)
       = attached t text emb sid p g1.
Proof.
  intros Hwf.
  destruct (merge_set_project_wf pid name question t g Hwf) as [g1 [p [Hm Hps]]].
  exists g1, p. split; [assumption|]. split; [assumption|].
  unfold cypher_upsert. rewrite Hm.
  now rewrite (attach_summary_wf t text emb sid p g1 (ps_wf _ _ _ _ _ _ _ Hps)
                 (project_set_in_refs _ _ _ _ _ _ _ Hps)).
Qed.

(** The graph a call leaves is the one its statement leaves. *)
Lemma upsert_project_tool_graph (C : Collaborators) (name question summary : string)
    (project_id : option string) (w : World) :
  let pid := fst (chosen_project_id C project_id w) in
  let sid := uuid4_at C (snd (chosen_project_id C project_id w)) in
  graph (snd (upsert_project_tool C name question summary project_id w))
  = fst (cypher_upsert (now w) pid name question summary
           (encode C (question ++ newline ++ summary)%string) sid (graph w)).
Proof.
  intros pid sid. unfold upsert_project_tool, bind.
  assert (Hid : (match project_id with
                 | None => uuid4 C
                 | Some EmptyString => uuid4 C
                 | Some pid0 => ret pid0
                 end) w
                = (Ok pid, mkWorld (graph w) (trace w)
                                   (snd (chosen_project_id C project_id w)) (now w))).
  { unfold pid, chosen_project_id, uuid4, ret.
    destruct project_id as [[|a s]|]; simpl; try reflexivity. now destruct w. }
  rewrite Hid. unfold model_encode, bind, emit, ret, uuid4, session_run, cypher.
  cbn [graph trace draws now]. fold sid.
  destruct (cypher_upsert _ _ _ _ _ _ _ _) as [g' rows]. cbn [fst].
  destruct (single rows) as [record|]; [|reflexivity].
  unfold getitem.
  destruct (lookup "project_name" record); [|reflexivity].
  destruct (lookup "project_id" record); [|reflexivity].
  destruct (lookup "summary_id" record); reflexivity.
Qed.

Lemma match_project_node (g : Graph) (pid : string) (p : nat) :
  NoDup (refs g) -> In p (match_project g pid) ->
  exists n, find_node g p = Some n /\ is_project_with_id pid n = true.
Proof.
  intros Hnd Hp. unfold match_project in Hp. apply in_map_iff in Hp.
  destruct Hp as [n [<- Hn]]. apply filter_In in Hn. destruct Hn as [Hin Hid].
  exists n. split; [now apply find_node_unique | assumption].
Qed.

Lemma is_project_with_id_other (pid pid' : string) (n : Node) :
  pid' <> pid -> is_project_with_id pid' n = true -> is_project_with_id pid n = false.
Proof.
  intros Hne H. apply is_project_with_id_true in H. destruct H as [nm [q [t H]]].
  unfold is_project_with_id. rewrite H. now apply String.eqb_neq.
Qed.

Lemma mem_ref_match_project (g : Graph) (pid : string) (n : Node) :
  NoDup (refs g) -> In n (nodes g) ->
  mem_ref (node_ref n) (match_project g pid) = is_project_with_id pid n.
Proof.
  intros Hnd Hn. apply eq_true_iff_eq. rewrite mem_ref_In. split.
  - intros H. destruct (match_project_node g pid _ Hnd H) as [m [Hm Hid]].
    rewrite (find_node_unique g n Hnd Hn) in Hm. now injection Hm as ->.
  - intros H. unfold match_project. apply in_map. apply filter_In. now split.
Qed.

Lemma node_at_summary_deleted (g : Graph) (pid : string) (r : nat) :
  node_at (cypher_delete pid g) is_summary r = node_at g is_summary r.
Proof.
  unfold node_at, cypher_delete. cbn [nodes].
  induction (nodes g) as [|n ns IH]; [reflexivity|]. simpl.
  destruct (is_project_with_id pid n) eqn:E; simpl; rewrite IH; [|reflexivity].
  apply is_project_with_id_true in E. destruct E as [nm [q [t E]]].
  unfold is_summary. rewrite E. now rewrite andb_false_r.
Qed.

Lemma deleted_project_id (g : Graph) (pid : string) (p : Node) :
  In p (nodes (cypher_delete pid g)) -> is_project p = true ->
  prop_id p <> VStr pid.
Proof.
  intros Hp Hproj. unfold cypher_delete in Hp. simpl in Hp.
  apply filter_In in Hp. destruct Hp as [_ Hp]. apply negb_true_iff in Hp.
  unfold is_project_with_id in Hp. unfold prop_id. unfold is_project in Hproj.
  destruct (node_props p) as [id nm q t|]; [|discriminate].
  intros H. injection H as ->. now rewrite String.eqb_refl in Hp.
Qed.

(** ** The rows of the read statements *)

Lemma single_In (rows : list Dict) (record : Dict) :
  single rows = Some record -> In record rows.
Proof. destruct rows; simpl; [discriminate|]. intros H. injection H as ->. now left. Qed.

Lemma lookup_set_key_other (k k' : string) (v : Value) (d : Dict) :
  k' <> k -> lookup k' (set_key k v d) = lookup k' d.
Proof.
  intros Hne. induction d as [|[k0 v0] d IH]; simpl.
  - destruct (String.eqb_spec k k'); [congruence | reflexivity].
  - destruct (String.eqb_spec k0 k) as [->|Hk]; simpl.
    + destruct (String.eqb_spec k k'); [congruence | reflexivity].
    + destruct (String.eqb_spec k0 k'); [reflexivity | exact IH].
Qed.

(** The rows of the hydration statement: one per HAS_SUMMARY relationship
    from a Project node to a node whose id is asked for. *)
Lemma cypher_get_data_rows (ids : list Value) (g : Graph) (row : Dict) :
  In row (cypher_get_data ids g) <->
  exists e p n,
    In e (rels g) /\ is_rel HAS_SUMMARY e = true
    /\ find_node g (rel_src e) = Some p /\ is_project p = true
    /\ find_node g (rel_dst e) = Some n /\ In (prop_id n) ids
    /\ row = [("id", prop_id p); ("question", prop_question p);
              ("summary", prop_text n)].
Proof.
  unfold cypher_get_data. rewrite in_flat_map. split.
  - intros [e [He Hrow]].
    destruct (find_node g (rel_src e)) as [p|] eqn:Ep; [|contradiction].
    destruct (find_node g (rel_dst e)) as [n|] eqn:En; [|contradiction].
    destruct (is_rel HAS_SUMMARY e) eqn:E1; [|contradiction].
    destruct (is_project p) eqn:E2; [|contradiction].
    destruct (existsb (value_eqb (prop_id n)) ids) eqn:E3; [|contradiction].
    simpl in Hrow. destruct Hrow as [<-|[]].
    exists e, p, n. repeat split; try assumption.
    apply existsb_exists in E3. destruct E3 as [v [Hv E3]].
    destruct (value_eqb_spec (prop_id n) v); [now subst | discriminate].
  - intros [e [p [n [He [E1 [Ep [E2 [En [Hin ->]]]]]]]]].
    exists e. split; [assumption|]. rewrite Ep, En, E1, E2.
    replace (existsb (value_eqb (prop_id n)) ids) with true; [now left|].
    symmetry. apply existsb_exists. exists (prop_id n).
    split; [assumption | apply value_eqb_refl].
Qed.

Lemma cypher_project_of_summary_rows (sid : string) (g : Graph) (row : Dict) :
  In row (cypher_project_of_summary sid g) <->
  exists e p s,
    In e (rels g) /\ is_rel HAS_SUMMARY e = true
    /\ find_node g (rel_src e) = Some p /\ is_project p = true
    /\ find_node g (rel_dst e) = Some s /\ is_summary s = true
    /\ prop_id s = VStr sid
    /\ row = [("project_id", prop_id p); ("project_name", prop_name p);
              ("question", prop_question p); ("updated_at", prop_updated_at p)].
Proof.
  unfold cypher_project_of_summary. rewrite in_flat_map. split.
  - intros [e [He Hrow]].
    destruct (find_node g (rel_src e)) as [p|] eqn:Ep; [|contradiction].
    destruct (find_node g (rel_dst e)) as [s|] eqn:Es; [|contradiction].
    destruct (is_rel HAS_SUMMARY e) eqn:E1; [|contradiction].
    destruct (is_project p) eqn:E2; [|contradiction].
    destruct (is_summary s) eqn:E3; [|contradiction].
    destruct (value_eqb_spec (prop_id s) (VStr sid)) as [E4|]; [|contradiction].
    simpl in Hrow. destruct Hrow as [<-|[]].
    exists e, p, s. repeat split; assumption.
  - intros [e [p [s [He [E1 [Ep [E2 [Es [E3 [E4 ->]]]]]]]]]].
    exists e. split; [assumption|]. rewrite Ep, Es, E1, E2, E3, E4, value_eqb_refl.
    now left.
Qed.

Lemma flat_map_length_le {A B D : Type} (f : A -> list B) (h : A -> list D)
    (l : list A) :
  (forall x, In x l -> List.length (f x) <= List.length (h x)) ->
  List.length (flat_map f l) <= List.length (flat_map h l).
Proof.
  induction l as [|x l IH]; intros H; simpl; [lia|].
  rewrite !length_app. specialize (H x (or_introl eq_refl)) as Hx.
  assert (List.length (flat_map f l) <= List.length (flat_map h l))
    by (apply IH; intros y Hy; apply H; now right).
  lia.
Qed.

Lemma cypher_project_of_summary_le (sid : string) (g : Graph) :
  List.length (cypher_project_of_summary sid g)
  <= List.length (cypher_get_data [VStr sid] g).
Proof.
  unfold cypher_project_of_summary, cypher_get_data.
  apply flat_map_length_le. intros e _.
  destruct (find_node g (rel_src e)) as [p|]; [|simpl; lia].
  destruct (find_node g (rel_dst e)) as [s|]; [|simpl; lia].
  cbn [existsb]. rewrite orb_false_r.
  destruct (is_rel HAS_SUMMARY e && is_project p); [|simpl; lia].
  destruct (is_summary s); [|simpl; lia].
  cbn [andb]. destruct (value_eqb (prop_id s) (VStr sid)); simpl; lia.
Qed.

Lemma has_summary_get_data (ids : list Value) (g : Graph) :
  Forall (fun c => lookup "summary" c <> None) (cypher_get_data ids g).
Proof.
  rewrite Forall_forall. intros row H. apply cypher_get_data_rows in H.
  destruct H as [e [p [n [_ [_ [_ [_ [_ [_ ->]]]]]]]]]. discriminate.
Qed.

(** ** What the searches can return *)

Lemma slice_to_In {A : Type} (k : Z) (l : list A) (x : A) :
  In x (slice_to k l) -> In x l.
Proof.
  assert (Hf : forall n, In x (firstn n l) -> In x l).
  { intros n H. rewrite <- (firstn_skipn n l). apply in_or_app. now left. }
  unfold slice_to. destruct (0 <=? k)%Z; apply Hf.
Qed.

Lemma StronglySorted_firstn {A : Type} (R : A -> A -> Prop) (n : nat) (l : list A) :
  StronglySorted R l -> StronglySorted R (firstn n l).
Proof.
  intros Hs. revert n. induction Hs as [|x l Hl IH Hx]; intros [|n]; simpl;
    try constructor; [apply IH|].
  rewrite Forall_forall in *. intros y Hy. apply Hx.
  rewrite <- (firstn_skipn n l). apply in_or_app. now left.
Qed.

(** What [hybrid_rrf_search] returns is what the hydration statement
    gives on the graph it was called on, for some list of ids. *)
Lemma hybrid_rrf_search_ok (C : Collaborators) (A : Arith) (query_text : string)
    (top_k rrf_k : Z) (w : World) (rows : list Dict) :
  fst (hybrid_rrf_search C A query_text top_k rrf_k w) = Ok rows ->
  exists ids, rows = cypher_get_data ids (graph w).
Proof.
  unfold hybrid_rrf_search, bind at 1.
  unfold get_semantic_matches, model_encode, bind, emit, ret, session_run, cypher.
  cbn [graph trace draws now].
  unfold get_bm25_matches, session_run, cypher. cbn [graph trace draws now].
  destruct (cypher_fulltext C query_text (top_k * 2) 0 (graph w)) as [bm|e];
    [|discriminate].
  match goal with
  | |- context [rrf_loop A rrf_k 1 ?rs [] ?w1] =>
      pose proof (rrf_loop_world A rrf_k 1 rs [] w1) as H1;
      destruct (rrf_loop A rrf_k 1 rs [] w1) as [[d1|e1] w1'];
      cbn [snd] in H1; subst w1'
  end; [|discriminate].
  match goal with
  | |- context [rrf_loop A rrf_k 1 bm d1 ?w1] =>
      pose proof (rrf_loop_world A rrf_k 1 bm d1 w1) as H2;
      destruct (rrf_loop A rrf_k 1 bm d1 w1) as [[d2|e2] w2'];
      cbn [snd] in H2; subst w2'
  end; [|discriminate].
  unfold get_data_tool. destruct (top_ranked A top_k d2) as [|id ids].
  - cbn [fst]. intros H. injection H as <-. exists []. now rewrite cypher_get_data_nil.
  - unfold session_run, cypher. cbn [graph trace draws now fst].
    intros H. injection H as <-. now exists (id :: ids).
Qed.

(** The reranking pass returns candidates, each with its cross-encoder
    score written into it. *)
Lemma rerank_ok (C : Collaborators) (query_text : string)
    (candidates : list Dict) (top_k : Z) (w : World) :
  Forall (fun c => lookup "summary" c <> None) candidates ->
  exists rows,
    fst (rerank C query_text candidates top_k w) = Ok rows
    /\ forall row, In row rows ->
         exists c, In c candidates /\ row = scored C query_text c.
Proof.
  intros Hsum. destruct candidates as [|c rest] eqn:E.
  - exists []. split; [reflexivity | intros row []].
  - rewrite <- E in *.
    assert (Hne : candidates <> []) by (rewrite E; discriminate).
    rewrite (rerank_run C query_text candidates top_k w Hne Hsum). cbn [fst].
    eexists. split; [reflexivity|]. intros row Hrow.
    apply slice_to_In in Hrow. apply in_map_iff in Hrow.
    destruct Hrow as [[s row'] [<- Hrow]].
    apply (Permutation_in _ (sorted_desc_perm Qltb fst _)) in Hrow.
    apply in_map_iff in Hrow. destruct Hrow as [c0 [Heq Hc0]].
    injection Heq as _ <-. apply in_map_iff in Hc0.
    destruct Hc0 as [c1 [<- Hc1]]. now exists c1.
Qed.

Lemma hybrid_rerank_search_ok (C : Collaborators) (A : Arith) (query_text : string)
    (top_k rrf_k : Z) (w : World) (rows : list Dict) :
  fst (hybrid_rerank_search C A query_text top_k rrf_k w) = Ok rows ->
  exists ids, forall row, In row rows ->
    exists c, In c (cypher_get_data ids (graph w)) /\ row = scored C query_text c.
Proof.
  unfold hybrid_rerank_search, bind.
  pose proof (hybrid_rrf_search_ok C A query_text (top_k * 3) rrf_k w) as Hrrf.
  destruct (hybrid_rrf_search C A query_text (top_k * 3) rrf_k w) as [[cands|e] w1];
    [|discriminate].
  destruct (Hrrf cands eq_refl) as [ids ->]. intros H. exists ids.
  destruct (rerank_ok C query_text (cypher_get_data ids (graph w)) top_k w1
              (has_summary_get_data ids (graph w))) as [rows' [Heq Hrows]].
  rewrite Heq in H. injection H as <-. exact Hrows.
Qed.

(** ** Reading back what an upsert wrote *)

Lemma cypher_latest_attached (t : nat) (pid name question text : string)
    (emb : Embedding) (sid : string) (g g1 : Graph) (p : nat) :
  project_set pid name question t g g1 p ->
  cypher_latest pid (attached t text emb sid p g1)
  = [[("project_id", VStr pid); ("project_name", VStr question);
      ("latest_summary", VStr text); ("summary_id", VStr sid)]].
Proof.
  intros Hps. pose proof (project_set_in_refs _ _ _ _ _ _ _ Hps) as Hp.
  pose proof (ps_wf _ _ _ _ _ _ _ Hps) as Hwf1.
  unfold cypher_latest. rewrite match_project_attached, (ps_match _ _ _ _ _ _ _ Hps).
  cbn [flat_map]. rewrite match_latest_attached_self by assumption.
  cbn [map app]. unfold node_value.
  rewrite find_node_attached_new, find_node_attached_old by assumption.
  rewrite (ps_node _ _ _ _ _ _ _ Hps). reflexivity.
Qed.

(** X1. On a well-formed graph, [upsert_project_tool] followed by
    [get_latest_summary_tool] on the project id it worked on (the one
    given, or the UUID drawn when none or the empty string was given): the
    record holds that id, the summary text just written and the id of the
    new Summary, and, under the key [project_name], the question just
    written. *)
Theorem upsert_then_get_latest_summary (C : Collaborators)
    (name question summary : string) (project_id : option string) (w : World) :
  wf (graph w) ->
  let pid := fst (chosen_project_id C project_id w) in
  let sid := uuid4_at C (snd (chosen_project_id C project_id w)) in
  let w' := snd (upsert_project_tool C name question summary project_id w) in
  fst (get_latest_summary_tool C pid w')
  = Ok (RDict [("project_id", VStr pid); ("project_name", VStr question);
               ("latest_summary", VStr summary); ("summary_id", VStr sid)]).
Proof.
  intros Hwf pid sid w'.
  destruct (upsert_project_tool_wf C name question summary project_id w Hwf)
    as [g1 [p [Hps Heq]]].
  unfold w'. rewrite Heq. cbn [snd]. rewrite get_latest_summary_tool_run.
  cbn [fst graph]. fold pid. fold sid.
  now rewrite (cypher_latest_attached _ _ _ _ _ _ _ _ _ _ Hps).
Qed.

Lemma upsert_then_get_latest_summary_witness :
  wf (graph two_summaries_world)
  /\ fst (get_latest_summary_tool sample_collaborators "P1"
            (snd (upsert_project_tool sample_collaborators "B" "q3" "s3"
                    (Some "P1") two_summaries_world)))
     = Ok (RDict [("project_id", VStr "P1"); ("project_name", VStr "q3");
                  ("latest_summary", VStr "s3"); ("summary_id", VStr "u2")]).
Proof.
  split; [exact two_summaries_world_wf|].
  exact (upsert_then_get_latest_summary sample_collaborators "B" "q3" "s3"
           (Some "P1") two_summaries_world two_summaries_world_wf).
Defined.

Lemma cypher_project_of_summary_attached (t : nat) (pid name question text : string)
    (emb : Embedding) (sid : string) (g g1 : Graph) (p : nat) :
  project_set pid name question t g g1 p ->
  ~ In (VStr sid) (map prop_id (nodes g)) ->
  cypher_project_of_summary sid (attached t text emb sid p g1)
  = [[("project_id", VStr pid); ("project_name", VStr name);
      ("question", VStr question); ("updated_at", VTime t)]].
Proof.
  intros Hps Hfresh. pose proof (project_set_in_refs _ _ _ _ _ _ _ Hps) as Hp.
  pose proof (ps_wf _ _ _ _ _ _ _ Hps) as Hwf1.
  set (g' := attached t text emb sid p g1).
  unfold cypher_project_of_summary.
  change (rels g') with (filter (not_old_latest p (match_latest g1 p)) (rels g1)
                         ++ upsert_links p (fresh_ref g1) (match_latest g1 p)).
  rewrite flat_map_app.
  rewrite flat_map_nil.
  2:{ intros e He. apply filter_In in He. destruct He as [He _].
      destruct (wf_closed g1 Hwf1 e He) as [Hs Hd].
      unfold g'. rewrite !find_node_attached_old by assumption.
      destruct (find_node g1 (rel_src e)) as [p0|]; [|reflexivity].
      destruct (find_node g1 (rel_dst e)) as [s0|] eqn:Es; [|reflexivity].
      destruct (is_summary s0) eqn:Esum; [|now rewrite andb_false_r].
      destruct (value_eqb_spec (prop_id s0) (VStr sid)) as [Eid|];
        [|now rewrite andb_false_r].
      exfalso. apply Hfresh. rewrite <- Eid. apply in_map.
      apply (ps_summary _ _ _ _ _ _ _ Hps _ _ Esum) in Es.
      now apply find_node_In in Es. }
  unfold upsert_links. rewrite flat_map_app.
  rewrite (flat_map_nil _ (map _ _)).
  2:{ intros e He. apply in_map_iff in He. destruct He as [o [<- _]].
      cbn [rel_src rel_dst].
      destruct (find_node g' (fresh_ref g1)) as [a|]; [|reflexivity].
      now destruct (find_node g' o). }
  cbn [app flat_map rel_src rel_dst].
  unfold g'. rewrite find_node_attached_new, find_node_attached_old by assumption.
  rewrite (ps_node _ _ _ _ _ _ _ Hps). cbn.
  rewrite String.eqb_refl. reflexivity.
Qed.

(** X2. On a well-formed graph, [upsert_project_tool] followed by
    [get_project_node] on the id of the Summary it created, when no node
    had that id before: the record holds the project's id, the name and
    the question just written, and the time of the upsert. *)
Theorem upsert_then_get_project_node (C : Collaborators)
    (name question summary : string) (project_id : option string) (w : World) :
  wf (graph w) ->
  let pid := fst (chosen_project_id C project_id w) in
  let sid := uuid4_at C (snd (chosen_project_id C project_id w)) in
  ~ In (VStr sid) (map prop_id (nodes (graph w))) ->
  let w' := snd (upsert_project_tool C name question summary project_id w) in
  fst (get_project_node C sid w')
  = Ok (RDict [("project_id", VStr pid); ("project_name", VStr name);
               ("question", VStr question); ("updated_at", VTime (now w))]).
Proof.
  intros Hwf pid sid Hfresh w'.
  destruct (upsert_project_tool_wf C name question summary project_id w Hwf)
    as [g1 [p [Hps Heq]]].
  unfold w'. rewrite Heq. cbn [snd].
  unfold get_project_node, bind, session_run, cypher. cbn [graph].
  fold pid. fold sid.
  now rewrite (cypher_project_of_summary_attached _ _ _ _ _ _ _ _ _ _ Hps Hfresh).
Qed.

Lemma upsert_then_get_project_node_witness :
  wf (graph two_summaries_world)
  /\ ~ In (VStr "u2") (map prop_id (nodes (graph two_summaries_world)))
  /\ fst (get_project_node sample_collaborators "u2"
            (snd (upsert_project_tool sample_collaborators "B" "q3" "s3"
                    (Some "P1") two_summaries_world)))
     = Ok (RDict [("project_id", VStr "P1"); ("project_name", VStr "B");
                  ("question", VStr "q3"); ("updated_at", VTime 2)]).
Proof.
  assert (Hfresh : ~ In (VStr "u2") (map prop_id (nodes (graph two_summaries_world)))).
  { vm_compute. intuition discriminate. }
  split; [exact two_summaries_world_wf|]. split; [exact Hfresh|].
  exact (upsert_then_get_project_node sample_collaborators "B" "q3" "s3"
           (Some "P1") two_summaries_world two_summaries_world_wf Hfresh).
Defined.

(** ** Hydrating the Summary an upsert wrote *)

Lemma cypher_get_data_upserted (t : nat) (pid name question text : string)
    (emb : Embedding) (sid : string) (g : Graph) :
  wf g -> ~ In (VStr sid) (map prop_id (nodes g)) ->
  cypher_get_data [VStr sid] (fst (cypher_upsert t pid name question text emb sid g))
  = [[("id", VStr pid); ("question", VStr question); ("summary", VStr text)]].
Proof.
  intros Hwf Hfresh.
  destruct (cypher_upsert_attached t pid name question text emb sid g Hwf)
    as [g1 [p [Hm [Hps Heq]]]].
  rewrite Heq. clear Heq.
  pose proof (project_set_in_refs _ _ _ _ _ _ _ Hps) as Hp.
  pose proof (ps_wf _ _ _ _ _ _ _ Hps) as Hwf1.
  set (g' := attached t text emb sid p g1).
  unfold cypher_get_data.
  change (rels g') with (filter (not_old_latest p (match_latest g1 p)) (rels g1)
                         ++ upsert_links p (fresh_ref g1) (match_latest g1 p)).
  rewrite flat_map_app.
  rewrite flat_map_nil.
  2:{ intros e He. apply filter_In in He. destruct He as [He _].
      destruct (wf_closed g1 Hwf1 e He) as [Hs Hd].
      unfold g'. rewrite !find_node_attached_old by assumption.
      destruct (find_node g1 (rel_src e)) as [p0|]; [|reflexivity].
      destruct (find_node g1 (rel_dst e)) as [n|] eqn:En; [|reflexivity].
      cbn [existsb]. rewrite orb_false_r.
      destruct (value_eqb_spec (prop_id n) (VStr sid)) as [Eid|];
        [|now rewrite andb_false_r].
      exfalso. apply Hfresh. rewrite <- Eid.
      (* the node at the end of [e] was in [g] already *)
      rewrite (ps_rels _ _ _ _ _ _ _ Hps) in He.
      destruct (wf_closed g Hwf e He) as [_ Hd0].
      unfold refs in Hd0. apply in_map_iff in Hd0. destruct Hd0 as [m [Hmr Hmin]].
      pose proof (find_node_unique g m (wf_refs g Hwf) Hmin) as Hfm. rewrite Hmr in Hfm.
      destruct (is_project_with_id pid m) eqn:Em.
      - (* the Project of [pid], there before: its id is kept *)
        apply is_project_with_id_true in Em. destruct Em as [nm [q [t' Em]]].
        assert (Hmp : In (rel_dst e) (match_project g pid)).
        { unfold match_project. apply in_map_iff. exists m. split; [assumption|].
          apply filter_In. split; [assumption|].
          unfold is_project_with_id. rewrite Em. apply String.eqb_refl. }
        destruct (ps_old _ _ _ _ _ _ _ Hps) as [E|E]; rewrite E in Hmp;
          [contradiction|].
        destruct Hmp as [Hmp|[]]. rewrite <- Hmp, (ps_node _ _ _ _ _ _ _ Hps) in En.
        injection En as <-. apply in_map_iff. exists m. split; [|assumption].
        unfold prop_id. rewrite Em. reflexivity.
      - (* any other node is left alone *)
        assert (Hn1 : find_node g1 (rel_dst e) = Some m).
        { replace g1 with (fst (merge_set_project pid name question t g))
            by now rewrite Hm.
          now apply merge_set_project_other. }
        rewrite Hn1 in En. injection En as <-. now apply in_map. }
  unfold upsert_links. rewrite flat_map_app.
  rewrite (flat_map_nil _ (map _ _)).
  2:{ intros e He. apply in_map_iff in He. destruct He as [o [<- _]].
      cbn [rel_src rel_dst].
      destruct (find_node g' (fresh_ref g1)) as [a|]; [|reflexivity].
      now destruct (find_node g' o). }
  cbn [app flat_map rel_src rel_dst].
  unfold g'. rewrite find_node_attached_new, find_node_attached_old by assumption.
  rewrite (ps_node _ _ _ _ _ _ _ Hps). cbn.
  rewrite String.eqb_refl. reflexivity.
Qed.

(** X3. On a well-formed graph, [upsert_project_tool] followed by
    [get_data_tool] on the id of the Summary it created, when no node had
    that id before: one record, with the project's id, the question just
    written and the summary text. *)
Theorem upsert_then_get_data (C : Collaborators)
    (name question summary : string) (project_id : option string) (w : World) :
  wf (graph w) ->
  let pid := fst (chosen_project_id C project_id w) in
  let sid := uuid4_at C (snd (chosen_project_id C project_id w)) in
  ~ In (VStr sid) (map prop_id (nodes (graph w))) ->
  let w' := snd (upsert_project_tool C name question summary project_id w) in
  fst (get_data_tool C [VStr sid] w')
  = Ok [[("id", VStr pid); ("question", VStr question); ("summary", VStr summary)]].
Proof.
  intros Hwf pid sid Hfresh w'.
  unfold get_data_tool, session_run, cypher. cbn [fst]. f_equal.
  unfold w'. rewrite upsert_project_tool_graph.
  now apply cypher_get_data_upserted.
Qed.

Lemma upsert_then_get_data_witness :
  wf (graph two_summaries_world)
  /\ ~ In (VStr "u2") (map prop_id (nodes (graph two_summaries_world)))
  /\ fst (get_data_tool sample_collaborators [VStr "u2"]
            (snd (upsert_project_tool sample_collaborators "B" "q3" "s3"
                    (Some "P1") two_summaries_world)))
     = Ok [[("id", VStr "P1"); ("question", VStr "q3"); ("summary", VStr "s3")]].
Proof.
  assert (Hfresh : ~ In (VStr "u2") (map prop_id (nodes (graph two_summaries_world)))).
  { vm_compute. intuition discriminate. }
  split; [exact two_summaries_world_wf|]. split; [exact Hfresh|].
  exact (upsert_then_get_data sample_collaborators "B" "q3" "s3"
           (Some "P1") two_summaries_world two_summaries_world_wf Hfresh).
Defined.

(** ** What an upsert answers, and the project id it works on *)

(** X4. On a well-formed graph [upsert_project_tool] returns the message
    that names the project's name, its id and the id of the new Summary,
    after one call of the encoder and one statement.  With a non-empty
    [project_id] it works on that id and draws one UUID, for the Summary;
    with none, or with the empty string, it draws two: the first is the
    project's id, the second the Summary's.  Afterwards one Project node
    has that id, with the name, the question and the time of the call. *)
Theorem upsert_project_tool_message (C : Collaborators)
    (name question summary : string) (project_id : option string) (w : World) :
  wf (graph w) ->
  let r := upsert_project_tool C name question summary project_id w in
  let given := match project_id with Some (String _ _) => true | _ => false end in
  let pid := match project_id with
             | Some (String c s) => String c s
             | _ => uuid4_at C (draws w)
             end in
  let sid := uuid4_at C (if given then draws w else S (draws w)) in
  let text := (question ++ newline ++ summary)%string in
  fst r = Ok ("Saved. Project: " ++ name ++ " (" ++ pid ++ "), Summary: " ++ sid)%string
  /\ draws (snd r) = (if given then 1 else 2) + draws w
  /\ trace (snd r)
     = trace w ++ [EvEncode text;
                   EvRun (QUpsert pid name question summary (encode C text) sid)]
  /\ exists p,
       match_project (graph (snd r)) pid = [p]
       /\ find_node (graph (snd r)) p
          = Some (mkNode p (Project pid name question (now w))).
Proof.
  intros Hwf r given pid sid text.
  destruct (upsert_project_tool_wf C name question summary project_id w Hwf)
    as [g1 [p [Hps Heq]]].
  assert (Hc : chosen_project_id C project_id w
               = (pid, if given then draws w else S (draws w))).
  { unfold chosen_project_id, pid, given. now destruct project_id as [[|c s]|]. }
  rewrite Hc in Hps, Heq. cbn [fst snd] in Hps, Heq.
  unfold r. rewrite Heq. cbn [fst snd draws trace graph].
  split; [reflexivity|]. split; [now destruct given|]. split; [reflexivity|].
  exists p. rewrite match_project_attached.
  split; [exact (ps_match _ _ _ _ _ _ _ Hps)|].
  rewrite find_node_attached_old by exact (project_set_in_refs _ _ _ _ _ _ _ Hps).
  exact (ps_node _ _ _ _ _ _ _ Hps).
Qed.

Lemma upsert_project_tool_message_witness :
  wf (graph initial_world)
  /\ fst (upsert_project_tool sample_collaborators "A" "q" "s" (Some "") initial_world)
     = Ok "Saved. Project: A (u0), Summary: u1"
  /\ fst (upsert_project_tool sample_collaborators "A" "q" "s" (Some "P1") initial_world)
     = Ok "Saved. Project: A (P1), Summary: u0".
Proof.
  split; [exact wf_empty_graph|]. split.
  - exact (proj1 (upsert_project_tool_message sample_collaborators "A" "q" "s"
                    (Some "") initial_world wf_empty_graph)).
  - exact (proj1 (upsert_project_tool_message sample_collaborators "A" "q" "s"
                    (Some "P1") initial_world wf_empty_graph)).
Defined.

(** ** An upsert answers on every graph *)

Lemma merge_set_project_rows (pid name question : string) (t : nat) (g : Graph) :
  snd (merge_set_project pid name question t g) <> [].
Proof.
  unfold merge_set_project. destruct (match_project g pid); cbn [snd]; discriminate.
Qed.

Lemma optional_match_latest_rows (g : Graph) (ps : list nat) :
  ps <> [] -> optional_match_latest g ps <> [].
Proof.
  destruct ps as [|p ps]; [congruence|]. intros _. unfold optional_match_latest.
  cbn [flat_map]. destruct (match_latest g p); cbn; discriminate.
Qed.

Lemma create_summaries_rows (sid text : string) (emb : Embedding) (t : nat)
    (rows : list (nat * option nat)) (g : Graph) :
  List.length (snd (create_summaries sid text emb t rows g)) = List.length rows.
Proof.
  revert g. induction rows as [|[p old] rows IH]; intros g; [reflexivity|].
  cbn [create_summaries].
  specialize (IH (add_node (mkNode (fresh_ref g) (Summary sid text emb t)) g)).
  destruct (create_summaries sid text emb t rows _) as [g' out]. cbn [snd] in *.
  simpl. now rewrite IH.
Qed.

(** The statement yields at least one record, and every record has the
    three keys the message is built from. *)
Lemma cypher_upsert_rows (t : nat) (pid name question text : string)
    (emb : Embedding) (sid : string) (g : Graph) :
  exists record rest,
    snd (cypher_upsert t pid name question text emb sid g) = record :: rest
    /\ lookup "project_name" record <> None
    /\ lookup "project_id" record <> None
    /\ lookup "summary_id" record <> None.
Proof.
  unfold cypher_upsert.
  pose proof (merge_set_project_rows pid name question t g) as Hps.
  destruct (merge_set_project pid name question t g) as [g1 ps]. cbn [snd] in Hps.
  unfold attach_summary.
  pose proof (optional_match_latest_rows g1 ps Hps) as Hrows.
  set (rows := optional_match_latest g1 ps) in *.
  pose proof (create_summaries_rows sid text emb t rows (delete_rels (old_rels rows) g1))
    as Hlen.
  destruct (create_summaries sid text emb t rows _) as [g3 rows']. cbn [snd] in *.
  destruct rows' as [|row rows'].
  - destruct rows; [congruence | discriminate].
  - cbn [map]. eexists. eexists. split; [reflexivity|].
    repeat split; discriminate.
Qed.

(** X5. [upsert_project_tool] returns its message on every graph, also one
    that is not well-formed: its statement always yields a record with the
    three keys the message reads, so [single()] is never empty and no key is
    missing.  The call draws its UUIDs, calls the encoder once and runs one
    statement. *)
Theorem upsert_project_tool_always_answers (C : Collaborators)
    (name question summary : string) (project_id : option string) (w : World) :
  let r := upsert_project_tool C name question summary project_id w in
  let pid := fst (chosen_project_id C project_id w) in
  let sid := uuid4_at C (snd (chosen_project_id C project_id w)) in
  let text := (question ++ newline ++ summary)%string in
  is_ok (fst r) = true
  /\ trace (snd r)
     = trace w ++ [EvEncode text;
                   EvRun (QUpsert pid name question summary (encode C text) sid)]
  /\ draws (snd r) = S (snd (chosen_project_id C project_id w))
  /\ now (snd r) = S (now w).
Proof.
  intros r pid sid text. unfold r, upsert_project_tool, bind.
  assert (Hid : (match project_id with
                 | None => uuid4 C
                 | Some EmptyString => uuid4 C
                 | Some pid0 => ret pid0
                 end) w
                = (Ok pid, mkWorld (graph w) (trace w)
                                   (snd (chosen_project_id C project_id w)) (now w))).
  { unfold pid, chosen_project_id, uuid4, ret.
    destruct project_id as [[|a s]|]; simpl; try reflexivity. now destruct w. }
  rewrite Hid. unfold model_encode, bind, emit, ret, uuid4, session_run, cypher.
  cbn [graph trace draws now]. fold text. fold sid.
  destruct (cypher_upsert_rows (now w) pid name question summary (encode C text) sid
              (graph w)) as [record [rest [Hrows [H1 [H2 H3]]]]].
  destruct (cypher_upsert _ _ _ _ _ _ _ _) as [g' rows]. cbn [snd] in Hrows.
  subst rows. cbn [single hd_error]. unfold getitem.
  destruct (lookup "project_name" record); [|congruence].
  destruct (lookup "project_id" record); [|congruence].
  destruct (lookup "summary_id" record); [|congruence].
  cbn [fst snd is_ok trace draws now]. rewrite <- app_assoc. now repeat split.
Qed.

(** ** An upsert on a project id that is not in the graph *)

Lemma match_latest_fresh (g : Graph) (n : Node) :
  wf g -> node_ref n = fresh_ref g -> match_latest (add_node n g) (fresh_ref g) = [].
Proof.
  intros Hwf Hn. unfold match_latest. cbn [rels add_node].
  rewrite filter_none; [reflexivity|]. intros e He.
  destruct (Nat.eqb_spec (rel_src e) (fresh_ref g)) as [E|];
    [|now rewrite andb_false_r].
  exfalso. destruct (wf_closed g Hwf e He) as [Hs _]. rewrite E in Hs.
  now apply fresh_ref_not_in in Hs.
Qed.

Lemma fresh_ref_add_node (g : Graph) (n : Node) :
  node_ref n = fresh_ref g -> fresh_ref (add_node n g) = S (fresh_ref g).
Proof.
  intros Hn. unfold fresh_ref, refs, add_node. cbn [nodes].
  rewrite map_app, list_max_app. cbn [map list_max fold_right]. rewrite Hn.
  unfold fresh_ref, refs. lia.
Qed.

Lemma cypher_upsert_absent (t : nat) (pid name question text : string)
    (emb : Embedding) (sid : string) (g : Graph) :
  wf g -> match_project g pid = [] ->
  let p := fresh_ref g in
  let s := S (fresh_ref g) in
  fst (cypher_upsert t pid name question text emb sid g)
  = mkGraph (nodes g ++ [mkNode p (Project pid name question t);
                         mkNode s (Summary sid text emb t)])
            (rels g ++ [mkRel HAS_LATEST_SUMMARY p s; mkRel HAS_SUMMARY p s]).
Proof.
  intros Hwf Habs p s.
  destruct (cypher_upsert_attached t pid name question text emb sid g Hwf)
    as [g1 [p' [Hm [_ Heq]]]].
  rewrite Heq. clear Heq. unfold merge_set_project in Hm. rewrite Habs in Hm.
  injection Hm as <- <-. subst p s.
  set (n := mkNode (fresh_ref g) (Project pid name question t)).
  unfold attached.
  rewrite (fresh_ref_add_node g n eq_refl), (match_latest_fresh g n Hwf eq_refl).
  cbn [nodes rels add_node upsert_links map app].
  rewrite filter_all by reflexivity. rewrite <- app_assoc. reflexivity.
Qed.

(** X6. On a well-formed graph that holds no Project with the id, the
    upsert adds one Project node, one Summary node, and the
    HAS_LATEST_SUMMARY and HAS_SUMMARY relationships between them, and
    nothing else.  So it does
    right after [delete_project_tool] on that id: the new Summary gets no
    PREVIOUS_VERSION relationship to the Summaries the deleted project
    had. *)
Theorem upsert_on_absent_project (C : Collaborators)
    (name question summary : string) (project_id : option string) (w : World) :
  wf (graph w) ->
  let added (v : World) :=
    let pid := fst (chosen_project_id C project_id v) in
    let sid := uuid4_at C (snd (chosen_project_id C project_id v)) in
    let p := fresh_ref (graph v) in
    let s := S (fresh_ref (graph v)) in
    graph (snd (upsert_project_tool C name question summary project_id v))
    = mkGraph
        (nodes (graph v)
         ++ [mkNode p (Project pid name question (now v));
             mkNode s (Summary sid summary
                               (encode C (question ++ newline ++ summary)%string)
                               (now v))])
        (rels (graph v)
         ++ [mkRel HAS_LATEST_SUMMARY p s; mkRel HAS_SUMMARY p s]) in
  (match_project (graph w) (fst (chosen_project_id C project_id w)) = [] -> added w)
  /\ (forall pid, project_id = Some pid -> pid <> EmptyString ->
                  added (snd (delete_project_tool C pid w))).
Proof.
  intros Hwf added.
  assert (H : forall v, wf (graph v) ->
                match_project (graph v) (fst (chosen_project_id C project_id v)) = [] ->
                added v).
  { intros v Hv Habs. unfold added. rewrite upsert_project_tool_graph.
    now apply cypher_upsert_absent. }
  split; [now apply H|].
  intros pid -> Hpid. apply H.
  - rewrite delete_project_tool_run. cbn [snd graph]. now apply cypher_delete_wf.
  - rewrite chosen_project_id_some by assumption.
    rewrite delete_project_tool_run. cbn [fst snd graph].
    apply match_project_deleted.
Qed.

Lemma upsert_on_absent_project_witness :
  wf (graph two_summaries_world)
  /\ graph (snd (upsert_project_tool sample_collaborators "B" "q3" "s3" (Some "P1")
                   (snd (delete_project_tool sample_collaborators "P1"
                           two_summaries_world))))
     = mkGraph
         [mkNode 2 (Summary "u0" "s1" (char_codes ("q1" ++ newline ++ "s1")) 0);
          mkNode 3 (Summary "u1" "s2" (char_codes ("q2" ++ newline ++ "s2")) 1);
          mkNode 4 (Project "P1" "B" "q3" 3);
          mkNode 5 (Summary "u2" "s3" (char_codes ("q3" ++ newline ++ "s3")) 3)]
         [mkRel PREVIOUS_VERSION 3 2;
          mkRel HAS_LATEST_SUMMARY 4 5; mkRel HAS_SUMMARY 4 5].
Proof.
  split; [exact two_summaries_world_wf|].
  exact (proj2 (upsert_on_absent_project sample_collaborators "B" "q3" "s3"
                  (Some "P1") two_summaries_world two_summaries_world_wf)
               "P1" eq_refl ltac:(discriminate)).
Defined.

(** ** The chain of versions an upsert extends *)

Lemma previous_of_attached_old (t : nat) (text : string) (emb : Embedding)
    (sid : string) (p : nat) (g1 : Graph) (x : nat) :
  x <> fresh_ref g1 ->
  previous_of (attached t text emb sid p g1) x = previous_of g1 x.
Proof.
  intros Hx. unfold previous_of, attached. cbn [rels]. rewrite filter_app.
  rewrite (filter_none _ (upsert_links _ _ _)).
  2:{ intros e He. unfold upsert_links in He. simpl in He.
      destruct He as [<-|[<-|He]]; try reflexivity.
      apply in_map_iff in He. destruct He as [o [<- _]].
      cbn [is_rel rel_type rel_src reltype_eqb andb].
      now apply Nat.eqb_neq, not_eq_sym. }
  rewrite app_nil_r, filter_filter_and. apply filter_ext_in. intros e _.
  destruct (is_rel PREVIOUS_VERSION e) eqn:E; [|now rewrite andb_false_r].
  replace (not_old_latest p (match_latest g1 p) e) with true; [reflexivity|].
  symmetry. destruct (not_old_latest p (match_latest g1 p) e) eqn:E'; [reflexivity|].
  apply not_old_latest_false in E'. destruct E' as [o [_ ->]]. discriminate.
Qed.

Lemma previous_of_attached_new (t : nat) (text : string) (emb : Embedding)
    (sid : string) (p : nat) (g1 : Graph) :
  wf g1 ->
  previous_of (attached t text emb sid p g1) (fresh_ref g1)
  = map (fun o => mkRel PREVIOUS_VERSION (fresh_ref g1) o) (match_latest g1 p).
Proof.
  intros Hwf. unfold previous_of, attached. cbn [rels]. rewrite filter_app.
  rewrite filter_none.
  2:{ intros e He. apply filter_In in He. destruct He as [He _].
      destruct (wf_closed g1 Hwf e He) as [Hsrc _].
      destruct (Nat.eqb_spec (rel_src e) (fresh_ref g1)) as [E|];
        [|now rewrite andb_false_r].
      exfalso. rewrite E in Hsrc. now apply fresh_ref_not_in in Hsrc. }
  unfold upsert_links. cbn [app filter is_rel rel_type reltype_eqb andb].
  apply filter_all. intros e He. apply in_map_iff in He. destruct He as [o [<- _]].
  cbn [is_rel rel_type rel_src reltype_eqb andb]. apply Nat.eqb_refl.
Qed.

(** A chain stays what it is in a graph that leaves the PREVIOUS_VERSION
    relationships of the old nodes alone; its nodes are old nodes. *)
Lemma version_chain_ext (g g' : Graph) (s : nat) (l : list nat) :
  (forall x, In x (refs g) -> previous_of g' x = previous_of g x) ->
  (forall e, In e (rels g) -> In (rel_dst e) (refs g)) ->
  In s (refs g) -> version_chain g s l ->
  version_chain g' s l /\ Forall (fun x => In x (refs g)) l.
Proof.
  intros Hsame Hclosed Hs Hc. induction Hc as [s Hnone|s o l Hone Hc IH].
  - split; [|now repeat constructor].
    apply version_chain_end. now rewrite Hsame.
  - assert (Ho : In o (refs g)).
    { assert (Hin : In (mkRel PREVIOUS_VERSION s o) (previous_of g s))
        by (rewrite Hone; now left).
      unfold previous_of in Hin. apply filter_In in Hin. destruct Hin as [Hin _].
      exact (Hclosed _ Hin). }
    destruct (IH Ho) as [Hc' Hl]. split; [|now constructor].
    apply version_chain_step with (o := o); [now rewrite Hsame | exact Hc'].
Qed.

Lemma prop_text_merge_set_project (pid name question : string) (t : nat)
    (g : Graph) (x : nat) :
  node_value (fst (merge_set_project pid name question t g)) prop_text x
  = node_value g prop_text x.
Proof.
  unfold merge_set_project, node_value.
  destruct (match_project g pid) as [|p ps]; cbn [fst].
  - unfold add_node. destruct g as [ns es]. cbn [nodes rels]. rewrite find_node_app.
    destruct (find_node (mkGraph ns es) x) as [n|]; [reflexivity|].
    unfold find_node. cbn [nodes find node_ref].
    now destruct (Nat.eqb (fresh_ref (mkGraph ns es)) x).
  - destruct g as [ns es]. cbn [nodes rels]. rewrite find_node_map.
    + destruct (find_node (mkGraph ns es) x) as [n|]; [|reflexivity]. simpl.
      destruct (is_project_with_id pid n) eqn:E; [|reflexivity].
      apply is_project_with_id_true in E. destruct E as [nm [q [t' E]]].
      unfold prop_text. simpl. now rewrite E.
    + intros n. now destruct (is_project_with_id pid n).
Qed.

(** One upsert and the chain of versions of its project. *)
Lemma upsert_chain_step (C : Collaborators) (name question summary : string)
    (project_id : option string) (w : World) :
  wf (graph w) ->
  let pid := fst (chosen_project_id C project_id w) in
  let g' := graph (snd (upsert_project_tool C name question summary project_id w)) in
  exists s,
    latest_summaries g' pid = [s]
    /\ ~ In s (refs (graph w))
    /\ node_value g' prop_text s = VStr summary
    /\ (latest_summaries (graph w) pid = [] -> version_chain g' s [s])
    /\ (forall o l, latest_summaries (graph w) pid = [o] ->
                    version_chain (graph w) o l ->
                    version_chain g' s (s :: l)
                    /\ texts g' l = texts (graph w) l).
Proof.
  intros Hwf pid g'. unfold g'. rewrite upsert_project_tool_graph. fold pid.
  set (sid := uuid4_at C (snd (chosen_project_id C project_id w))).
  set (text := (question ++ newline ++ summary)%string).
  destruct (cypher_upsert_attached (now w) pid name question summary (encode C text)
              sid (graph w) Hwf) as [g1 [p [Hm [Hps Heq]]]].
  rewrite Heq. clear Heq g'.
  set (g := graph w) in *. set (t := now w) in *.
  pose proof (project_set_in_refs _ _ _ _ _ _ _ Hps) as Hp.
  pose proof (ps_wf _ _ _ _ _ _ _ Hps) as Hwf1.
  pose proof (ps_rels _ _ _ _ _ _ _ Hps) as Hrels.
  assert (Hg1 : g1 = fst (merge_set_project pid name question t g)) by now rewrite Hm.
  set (g' := attached t summary (encode C text) sid p g1).
  set (s := fresh_ref g1).
  assert (Hlat : latest_summaries g pid = match_latest g1 p).
  { rewrite (ps_latest _ _ _ _ _ _ _ Hps). unfold latest_summaries.
    destruct (ps_old _ _ _ _ _ _ _ Hps) as [E|E]; rewrite E; simpl.
    - (* the Project is new: nothing leaves it *)
      symmetry. unfold match_latest. rewrite filter_none; [reflexivity|].
      intros e He.
      destruct (Nat.eqb_spec (rel_src e) p) as [Esrc|]; [|now rewrite andb_false_r].
      exfalso. destruct (wf_closed g Hwf e He) as [Hsrc _]. rewrite Esrc in Hsrc.
      unfold merge_set_project in Hm. rewrite E in Hm. injection Hm as _ <-.
      now apply fresh_ref_not_in in Hsrc.
    - apply app_nil_r. }
  assert (Hold : forall x, In x (refs g) -> x <> s /\ In x (refs g1)).
  { intros x Hx. apply (ps_refs _ _ _ _ _ _ _ Hps) in Hx. split; [|assumption].
    intros ->. now apply fresh_ref_not_in in Hx. }
  assert (Hprev : forall x, In x (refs g) -> previous_of g' x = previous_of g x).
  { intros x Hx. unfold g'. rewrite previous_of_attached_old by now apply Hold.
    unfold previous_of. now rewrite Hrels. }
  assert (Htext : forall x, In x (refs g) ->
                            node_value g' prop_text x = node_value g prop_text x).
  { intros x Hx. rewrite <- (prop_text_merge_set_project pid name question t g x).
    rewrite <- Hg1. unfold node_value, g'.
    now rewrite find_node_attached_old by now apply Hold. }
  exists s. split.
  { unfold latest_summaries, g'. rewrite match_project_attached.
    rewrite (ps_match _ _ _ _ _ _ _ Hps). simpl. rewrite app_nil_r.
    now apply match_latest_attached_self. }
  split; [intros H; now apply Hold in H|].
  split.
  { unfold node_value, g', s. now rewrite find_node_attached_new. }
  split.
  - intros Hnone. apply version_chain_end. unfold g', s.
    rewrite previous_of_attached_new by assumption.
    now rewrite <- Hlat, Hnone.
  - intros o l Ho Hc.
    assert (Hin : In o (refs g)).
    { assert (H : In o (latest_summaries g pid)) by (rewrite Ho; now left).
      unfold latest_summaries in H. apply in_flat_map in H.
      destruct H as [p0 [_ H]]. apply match_latest_In in H.
      destruct H as [_ H]. now apply node_at_refs in H. }
    destruct (version_chain_ext g g' o l Hprev
                (fun e He => proj2 (wf_closed g Hwf e He)) Hin Hc) as [Hc' Hl].
    split.
    + apply version_chain_step with (o := o); [|exact Hc'].
      unfold g', s. rewrite previous_of_attached_new by assumption.
      now rewrite <- Hlat, Ho.
    + unfold texts. apply map_ext_in. intros x Hx.
      rewrite Forall_forall in Hl. now apply Htext, Hl.
Qed.

(** X7. The upsert puts the new Summary at the head of the project's
    chain of versions.  On a well-formed graph, after [upsert_project_tool] the
    project's latest Summary [s] is a new node; when the project had no
    latest Summary the chain from [s] is [s] alone, and when its latest
    Summary was [o], with the chain [l] from it, the chain from [s] is [s]
    followed by [l]: the chain from [o] is as it was. *)
Theorem upsert_extends_version_chain (C : Collaborators)
    (name question summary : string) (project_id : option string) (w : World) :
  wf (graph w) ->
  let pid := fst (chosen_project_id C project_id w) in
  let g' := graph (snd (upsert_project_tool C name question summary project_id w)) in
  exists s,
    latest_summaries g' pid = [s]
    /\ ~ In s (refs (graph w))
    /\ (latest_summaries (graph w) pid = [] -> version_chain g' s [s])
    /\ (forall o l, latest_summaries (graph w) pid = [o] ->
                    version_chain (graph w) o l -> version_chain g' s (s :: l)).
Proof.
  intros Hwf pid g'.
  destruct (upsert_chain_step C name question summary project_id w Hwf)
    as [s [H1 [H2 [_ [H3 H4]]]]].
  exists s. split; [exact H1|]. split; [exact H2|]. split; [exact H3|].
  intros o l Ho Hc. exact (proj1 (H4 o l Ho Hc)).
Qed.

Lemma upsert_extends_version_chain_witness :
  wf (graph two_summaries_world)
  /\ latest_summaries (graph two_summaries_world) "P1" = [3]
  /\ version_chain (graph two_summaries_world) 3 [3; 2]
  /\ exists s,
       latest_summaries
         (graph (snd (upsert_project_tool sample_collaborators "B" "q3" "s3"
                        (Some "P1") two_summaries_world))) "P1" = [s]
       /\ version_chain
            (graph (snd (upsert_project_tool sample_collaborators "B" "q3" "s3"
                           (Some "P1") two_summaries_world)))
            s [s; 3; 2].
Proof.
  assert (Hc : version_chain (graph two_summaries_world) 3 [3; 2]).
  { apply version_chain_step with (o := 2); [reflexivity|].
    apply version_chain_end. reflexivity. }
  split; [exact two_summaries_world_wf|]. split; [reflexivity|]. split; [exact Hc|].
  destruct (upsert_extends_version_chain sample_collaborators "B" "q3" "s3"
              (Some "P1") two_summaries_world two_summaries_world_wf)
    as [s [Hs [_ [_ Hstep]]]].
  exists s. split; [exact Hs | exact (Hstep 3 [3; 2] eq_refl Hc)].
Defined.

(** ** The history a sequence of upserts builds *)

Lemma after_upserts_chain (C : Collaborators) (pid : string)
    (calls : list (string * string * string)) :
  pid <> EmptyString ->
  forall (w : World) (o : nat) (l : list nat),
    wf (graph w) -> latest_summaries (graph w) pid = [o] ->
    version_chain (graph w) o l ->
    let g' := graph (after_upserts C pid calls w) in
    exists s l',
      latest_summaries g' pid = [s]
      /\ version_chain g' s l'
      /\ texts g' l'
         = rev (map (fun call => VStr (snd call)) calls) ++ texts (graph w) l.
Proof.
  intros Hpid. induction calls as [|[[name question] summary] rest IH];
    intros w o l Hwf Ho Hc; cbn [after_upserts].
  - exists o, l. now repeat split.
  - pose proof (upsert_chain_step C name question summary (Some pid) w Hwf) as Hstep.
    rewrite (chosen_project_id_some C pid w Hpid) in Hstep. cbn [fst] in Hstep.
    destruct Hstep as [s [Hs [_ [Htxt [_ Hext]]]]].
    destruct (Hext o l Ho Hc) as [Hc' Hl].
    set (w1 := snd (upsert_project_tool C name question summary (Some pid) w)) in *.
    assert (Hwf1 : wf (graph w1)) by now apply upsert_project_tool_keeps_wf.
    destruct (IH w1 s (s :: l) Hwf1 Hs Hc') as [s' [l' [H1 [H2 H3]]]].
    exists s', l'. split; [exact H1|]. split; [exact H2|].
    rewrite H3. cbn [map rev snd texts]. rewrite <- app_assoc. cbn [app].
    fold (texts (graph w1) l). now rewrite Htxt, Hl.
Qed.

(** X8. On a well-formed graph, a sequence of upserts on one project id,
    for a project that has no latest Summary yet, builds the whole
    history: afterwards the chain of PREVIOUS_VERSION relationships from
    the project's latest Summary visits one Summary per call, and their
    texts are the summaries of the calls, the last call first. *)
Theorem upserts_build_the_history (C : Collaborators) (pid : string)
    (calls : list (string * string * string)) (w : World) :
  pid <> EmptyString -> wf (graph w) ->
  latest_summaries (graph w) pid = [] -> calls <> [] ->
  let g' := graph (after_upserts C pid calls w) in
  exists s l,
    latest_summaries g' pid = [s]
    /\ version_chain g' s l
    /\ texts g' l = rev (map (fun call => VStr (snd call)) calls).
Proof.
  intros Hpid Hwf Hnone Hne g'. destruct calls as [|[[name question] summary] rest];
    [congruence|].
  unfold g'. cbn [after_upserts].
  pose proof (upsert_chain_step C name question summary (Some pid) w Hwf) as Hstep.
  rewrite (chosen_project_id_some C pid w Hpid) in Hstep. cbn [fst] in Hstep.
  destruct Hstep as [s [Hs [_ [Htxt [Hfirst _]]]]].
  set (w1 := snd (upsert_project_tool C name question summary (Some pid) w)) in *.
  assert (Hwf1 : wf (graph w1)) by now apply upsert_project_tool_keeps_wf.
  destruct (after_upserts_chain C pid rest Hpid w1 s [s] Hwf1 Hs (Hfirst Hnone))
    as [s' [l' [H1 [H2 H3]]]].
  exists s', l'. split; [exact H1|]. split; [exact H2|].
  rewrite H3. cbn [map rev snd texts]. now rewrite Htxt.
Qed.

Lemma upserts_build_the_history_witness :
  "P1" <> EmptyString /\ wf (graph initial_world)
  /\ latest_summaries (graph initial_world) "P1" = []
  /\ [("A", "q1", "s1"); ("A", "q2", "s2"); ("B", "q3", "s3")] <> []
  /\ exists s l,
       latest_summaries
         (graph (after_upserts sample_collaborators "P1"
                   [("A", "q1", "s1"); ("A", "q2", "s2"); ("B", "q3", "s3")]
                   initial_world)) "P1" = [s]
       /\ version_chain
            (graph (after_upserts sample_collaborators "P1"
                      [("A", "q1", "s1"); ("A", "q2", "s2"); ("B", "q3", "s3")]
                      initial_world)) s l
       /\ texts (graph (after_upserts sample_collaborators "P1"
                          [("A", "q1", "s1"); ("A", "q2", "s2"); ("B", "q3", "s3")]
                          initial_world)) l
          = [VStr "s3"; VStr "s2"; VStr "s1"].
Proof.
  split; [discriminate|]. split; [exact wf_empty_graph|]. split; [reflexivity|].
  split; [discriminate|].
  exact (upserts_build_the_history sample_collaborators "P1"
           [("A", "q1", "s1"); ("A", "q2", "s2"); ("B", "q3", "s3")] initial_world
           ltac:(discriminate) wf_empty_graph eq_refl ltac:(discriminate)).
Defined.

(** ** The project of an older Summary *)

Lemma hd_error_flat_map_rel {A B : Type} (F F' : A -> list B) (P : B -> Prop)
    (b' : B) (l : list A) (b : B) :
  (forall x, In x l -> F x = [] -> F' x = []) ->
  (forall x c rest, In x l -> F x = c :: rest -> P c ->
                    exists rest', F' x = b' :: rest') ->
  hd_error (flat_map F l) = Some b -> P b ->
  hd_error (flat_map F' l) = Some b'.
Proof.
  induction l as [|x l IH]; intros H0 H1 Hb HP; simpl in *; [discriminate|].
  destruct (F x) as [|c rest] eqn:E.
  - rewrite (H0 x (or_introl eq_refl) E). simpl in *.
    apply IH; auto. intros y c rest Hy. apply H1. now right.
  - simpl in Hb. injection Hb as ->.
    destruct (H1 x b rest (or_introl eq_refl) E HP) as [rest' ->]. reflexivity.
Qed.

(** X9. On a well-formed graph, when [get_project_node] answered for a
    Summary id with a project, then after an upsert on that project (one
    whose new Summary id no node had before) it answers for the same
    Summary id with the name, the question and the time of that upsert:
    the Project node carries the latest values only. *)
Theorem upsert_updates_project_of_older_summaries (C : Collaborators)
    (name question summary : string) (project_id : option string)
    (older : string) (d : Dict) (w : World) :
  wf (graph w) ->
  let pid := fst (chosen_project_id C project_id w) in
  let sid := uuid4_at C (snd (chosen_project_id C project_id w)) in
  ~ In (VStr sid) (map prop_id (nodes (graph w))) ->
  fst (get_project_node C older w) = Ok (RDict d) ->
  lookup "project_id" d = Some (VStr pid) ->
  let w' := snd (upsert_project_tool C name question summary project_id w) in
  fst (get_project_node C older w')
  = Ok (RDict [("project_id", VStr pid); ("project_name", VStr name);
               ("question", VStr question); ("updated_at", VTime (now w))]).
Proof.
  intros Hwf pid sid Hfresh Hd Hpid w'.
  unfold get_project_node, bind, session_run, cypher in *. cbn [graph fst] in *.
  destruct (single (cypher_project_of_summary older (graph w))) as [record|] eqn:E;
    [|discriminate].
  cbn in Hd. injection Hd as ->.
  unfold w'. rewrite upsert_project_tool_graph. fold pid. fold sid.
  set (text := (question ++ newline ++ summary)%string).
  destruct (cypher_upsert_attached (now w) pid name question summary (encode C text)
              sid (graph w) Hwf) as [g1 [p [Hm [Hps Heq]]]].
  rewrite Heq. clear Heq.
  set (g := graph w) in *. set (t := now w) in *.
  set (g' := attached t summary (encode C text) sid p g1).
  set (new := [("project_id", VStr pid); ("project_name", VStr name);
               ("question", VStr question); ("updated_at", VTime t)]).
  enough (Hhd : single (cypher_project_of_summary older g') = Some new)
    by now rewrite Hhd.
  pose proof (project_set_in_refs _ _ _ _ _ _ _ Hps) as Hp.
  pose proof (ps_wf _ _ _ _ _ _ _ Hps) as Hwf1.
  pose proof (ps_rels _ _ _ _ _ _ _ Hps) as Hrels.
  assert (Hg1 : g1 = fst (merge_set_project pid name question t g)) by now rewrite Hm.
  (* the Summary asked for is not the new one *)
  assert (Hne : older <> sid).
  { intros ->. apply Hfresh. apply single_In in E.
    apply cypher_project_of_summary_rows in E.
    destruct E as [e [p0 [s0 [_ [_ [_ [_ [Es [_ [Eid _]]]]]]]]]].
    rewrite <- Eid. apply in_map. now apply find_node_In in Es. }
  unfold single, cypher_project_of_summary.
  change (rels g') with (filter (not_old_latest p (match_latest g1 p)) (rels g1)
                         ++ upsert_links p (fresh_ref g1) (match_latest g1 p)).
  rewrite flat_map_app.
  rewrite (flat_map_nil _ (upsert_links _ _ _)).
  2:{ intros e He. unfold upsert_links in He. simpl in He.
      destruct He as [<-|[<-|He]]; cbn [rel_src rel_dst].
      - destruct (find_node g' p) as [a|]; [|reflexivity].
        now destruct (find_node g' (fresh_ref g1)).
      - unfold g'. rewrite find_node_attached_new.
        destruct (find_node _ p) as [a|]; [|reflexivity].
        cbn. destruct (String.eqb_spec sid older); [congruence|].
        now rewrite !andb_false_r.
      - apply in_map_iff in He. destruct He as [o [<- _]]. cbn [rel_src rel_dst].
        destruct (find_node g' (fresh_ref g1)) as [a|]; [|reflexivity].
        now destruct (find_node g' o). }
  rewrite app_nil_r.
  rewrite flat_map_filter_nil.
  2:{ intros e _ He. apply not_old_latest_false in He. destruct He as [o [_ ->]].
      cbn [rel_src rel_dst].
      destruct (find_node g' p) as [a|]; [|reflexivity].
      now destruct (find_node g' o). }
  rewrite Hrels.
  unfold single, cypher_project_of_summary in E.
  refine (hd_error_flat_map_rel _ _
            (fun row => lookup "project_id" row = Some (VStr pid)) new _ d
            _ _ E Hpid).
  - intros e He H0. destruct (wf_closed g Hwf e He) as [Hs Hd0].
    unfold g'.
    rewrite !find_node_attached_old by (apply (ps_refs _ _ _ _ _ _ _ Hps); assumption).
    destruct (find_node g (rel_src e)) as [a|] eqn:Ea.
    2:{ exfalso. apply in_map_iff in Hs. destruct Hs as [m [Hmr Hmin]].
        pose proof (find_node_unique g m (wf_refs g Hwf) Hmin) as Hfm.
        rewrite Hmr in Hfm. congruence. }
    destruct (find_node g (rel_dst e)) as [b|] eqn:Eb.
    2:{ exfalso. apply in_map_iff in Hd0. destruct Hd0 as [m [Hmr Hmin]].
        pose proof (find_node_unique g m (wf_refs g Hwf) Hmin) as Hfm.
        rewrite Hmr in Hfm. congruence. }
    destruct (find_node g1 (rel_src e)) as [a1|] eqn:Ea1; [|reflexivity].
    destruct (find_node g1 (rel_dst e)) as [b1|] eqn:Eb1; [|reflexivity].
    destruct (is_rel HAS_SUMMARY e); [|reflexivity].
    destruct (is_summary b1) eqn:Esum; [|now rewrite andb_false_r].
    apply (ps_summary _ _ _ _ _ _ _ Hps _ _ Esum) in Eb1.
    rewrite Eb in Eb1. injection Eb1 as ->.
    rewrite Esum in H0.
    destruct (value_eqb (prop_id b1) (VStr older)); [|now rewrite !andb_false_r].
    destruct (is_project a) eqn:Epa; [discriminate|].
    (* a node that is no Project stays as it is *)
    assert (Ha1' : find_node g1 (rel_src e) = Some a).
    { rewrite Hg1. apply merge_set_project_other; [assumption|].
      unfold is_project in Epa. unfold is_project_with_id.
      now destruct (node_props a). }
    rewrite Ha1' in Ea1. injection Ea1 as <-. now rewrite Epa.
  - intros e c rest He Hc Hpc. destruct (wf_closed g Hwf e He) as [Hs Hd0].
    unfold g'.
    rewrite !find_node_attached_old by (apply (ps_refs _ _ _ _ _ _ _ Hps); assumption).
    destruct (find_node g (rel_src e)) as [a|] eqn:Ea; [|discriminate].
    destruct (find_node g (rel_dst e)) as [b|] eqn:Eb; [|discriminate].
    destruct (is_rel HAS_SUMMARY e); [|discriminate].
    destruct (is_project a) eqn:Epa; [|discriminate].
    destruct (is_summary b) eqn:Esum; [|discriminate].
    destruct (value_eqb (prop_id b) (VStr older)) eqn:Eid; [|discriminate].
    cbn in Hc. injection Hc as <- <-. cbn in Hpc. injection Hpc as Hpc.
    assert (Hb1 : find_node g1 (rel_dst e) = Some b)
      by now apply (ps_summary _ _ _ _ _ _ _ Hps).
    (* the source is the Project of [pid] *)
    assert (Hida : is_project_with_id pid a = true).
    { unfold is_project in Epa. unfold prop_id in Hpc. unfold is_project_with_id.
      destruct (node_props a); [|discriminate]. injection Hpc as ->.
      apply String.eqb_refl. }
    assert (Hsrc : rel_src e = p).
    { pose proof (find_node_In _ _ _ Ea) as [Hain Haref].
      assert (Hmp : In (rel_src e) (match_project g pid)).
      { unfold match_project. apply in_map_iff. exists a. split; [assumption|].
        apply filter_In. now split. }
      destruct (ps_old _ _ _ _ _ _ _ Hps) as [E0|E0]; rewrite E0 in Hmp;
        [contradiction|].
      destruct Hmp as [Hmp|[]]. now symmetry. }
    rewrite Hsrc, (ps_node _ _ _ _ _ _ _ Hps), Hb1. cbn.
    rewrite Esum, Eid. cbn. now exists [].
Qed.

Lemma upsert_updates_project_of_older_summaries_witness :
  wf (graph two_summaries_world)
  /\ ~ In (VStr "u2") (map prop_id (nodes (graph two_summaries_world)))
  /\ fst (get_project_node sample_collaborators "u0" two_summaries_world)
     = Ok (RDict [("project_id", VStr "P1"); ("project_name", VStr "A");
                  ("question", VStr "q2"); ("updated_at", VTime 1)])
  /\ fst (get_project_node sample_collaborators "u0"
            (snd (upsert_project_tool sample_collaborators "B" "q3" "s3"
                    (Some "P1") two_summaries_world)))
     = Ok (RDict [("project_id", VStr "P1"); ("project_name", VStr "B");
                  ("question", VStr "q3"); ("updated_at", VTime 2)]).
Proof.
  assert (Hfresh : ~ In (VStr "u2") (map prop_id (nodes (graph two_summaries_world)))).
  { vm_compute. intuition discriminate. }
  assert (Hd : fst (get_project_node sample_collaborators "u0" two_summaries_world)
               = Ok (RDict [("project_id", VStr "P1"); ("project_name", VStr "A");
                            ("question", VStr "q2"); ("updated_at", VTime 1)]))
    by reflexivity.
  split; [exact two_summaries_world_wf|]. split; [exact Hfresh|].
  split; [exact Hd|].
  exact (upsert_updates_project_of_older_summaries sample_collaborators "B" "q3" "s3"
           (Some "P1") "u0" _ two_summaries_world two_summaries_world_wf Hfresh
           Hd eq_refl).
Defined.

(** ** The other projects *)

(** X10. On a well-formed graph, [upsert_project_tool] on one project
    leaves the answer of [get_latest_summary_tool] for every other project
    id as it was. *)
Theorem upsert_project_tool_keeps_other_projects (C : Collaborators)
    (name question summary : string) (project_id : option string)
    (other : string) (w : World) :
  wf (graph w) ->
  other <> fst (chosen_project_id C project_id w) ->
  let w' := snd (upsert_project_tool C name question summary project_id w) in
  fst (get_latest_summary_tool C other w') = fst (get_latest_summary_tool C other w).
Proof.
  intros Hwf Hne w'. rewrite !get_latest_summary_tool_run. cbn [fst].
  unfold w'. rewrite upsert_project_tool_graph.
  set (pid := fst (chosen_project_id C project_id w)) in *.
  set (sid := uuid4_at C (snd (chosen_project_id C project_id w))).
  set (text := (question ++ newline ++ summary)%string).
  destruct (cypher_upsert_attached (now w) pid name question summary (encode C text)
              sid (graph w) Hwf) as [g1 [p [Hm [Hps Heq]]]].
  rewrite Heq. clear Heq.
  pose proof (ps_wf _ _ _ _ _ _ _ Hps) as Hwf1.
  pose proof (project_set_in_refs _ _ _ _ _ _ _ Hps) as Hp.
  set (g := graph w) in *. set (g' := attached (now w) summary (encode C text) sid p g1).
  assert (Hg1 : g1 = fst (merge_set_project pid name question (now w) g))
    by now rewrite Hm.
  enough (Hrows : cypher_latest other g' = cypher_latest other g) by now rewrite Hrows.
  unfold cypher_latest.
  assert (Hmp : match_project g' other = match_project g other).
  { unfold g'. rewrite match_project_attached. now apply (ps_other _ _ _ _ _ _ _ Hps). }
  rewrite Hmp. apply flat_map_ext_in. intros p' Hp'.
  destruct (match_project_node g other p' (wf_refs g Hwf) Hp') as [n [Hn Hid]].
  pose proof (is_project_with_id_other pid other n Hne Hid) as Hid'.
  assert (Hn1 : find_node g1 p' = Some n).
  { rewrite Hg1. now apply merge_set_project_other. }
  assert (Hpp : p' <> p).
  { intros ->. rewrite (ps_node _ _ _ _ _ _ _ Hps) in Hn1. injection Hn1 as <-.
    unfold is_project_with_id in Hid'. simpl in Hid'.
    now rewrite String.eqb_refl in Hid'. }
  assert (Hin1 : In p' (refs g1)).
  { apply find_node_In in Hn1. destruct Hn1 as [Hn1 <-]. now apply in_map. }
  assert (Hl : match_latest g' p' = match_latest g p').
  { unfold g'. rewrite match_latest_attached_other by assumption.
    apply (ps_latest _ _ _ _ _ _ _ Hps). }
  rewrite Hl. apply map_ext_in. intros s Hs.
  assert (Hfp : find_node g' p' = find_node g p').
  { unfold g'. rewrite find_node_attached_old by assumption. congruence. }
  assert (Hfs : find_node g' s = find_node g s).
  { apply match_latest_In in Hs. destruct Hs as [_ Hs].
    destruct (node_at_find g is_summary s (wf_refs g Hwf) Hs) as [m [Hm' Hms]].
    assert (Hm1 : find_node g1 s = Some m)
      by now apply (ps_summary _ _ _ _ _ _ _ Hps).
    unfold g'. rewrite find_node_attached_old; [congruence|].
    apply find_node_In in Hm1. destruct Hm1 as [Hm1 <-]. now apply in_map. }
  unfold node_value. now rewrite Hfp, Hfs.
Qed.

Lemma upsert_project_tool_keeps_other_projects_witness :
  wf (graph two_summaries_world)
  /\ "P1" <> fst (chosen_project_id sample_collaborators (Some "P2") two_summaries_world)
  /\ fst (get_latest_summary_tool sample_collaborators "P1"
            (snd (upsert_project_tool sample_collaborators "B" "q3" "s3" (Some "P2")
                    two_summaries_world)))
     = Ok (RDict [("project_id", VStr "P1"); ("project_name", VStr "q2");
                  ("latest_summary", VStr "s2"); ("summary_id", VStr "u1")]).
Proof.
  assert (Hne : "P1" <> fst (chosen_project_id sample_collaborators (Some "P2")
                               two_summaries_world)) by discriminate.
  split; [exact two_summaries_world_wf|]. split; [exact Hne|].
  rewrite (upsert_project_tool_keeps_other_projects sample_collaborators "B" "q3" "s3"
             (Some "P2") "P1" two_summaries_world two_summaries_world_wf Hne).
  reflexivity.
Defined.

(** X11. On a well-formed graph, [delete_project_tool] on one project
    leaves the answer of [get_latest_summary_tool] for every other project
    id as it was. *)
Theorem delete_project_tool_keeps_other_projects (C : Collaborators)
    (pid other : string) (w : World) :
  wf (graph w) -> other <> pid ->
  let w' := snd (delete_project_tool C pid w) in
  fst (get_latest_summary_tool C other w') = fst (get_latest_summary_tool C other w).
Proof.
  intros Hwf Hne w'. unfold w'. rewrite delete_project_tool_run. cbn [snd].
  rewrite !get_latest_summary_tool_run. cbn [fst graph].
  set (g := graph w) in *. pose proof (wf_refs g Hwf) as Hnd.
  enough (Hrows : cypher_latest other (cypher_delete pid g) = cypher_latest other g)
    by now rewrite Hrows.
  unfold cypher_latest.
  assert (Hmp : match_project (cypher_delete pid g) other = match_project g other).
  { unfold match_project, cypher_delete. cbn [nodes]. f_equal.
    apply filter_filter_ext.
    - reflexivity.
    - intros n _ Hn. apply negb_false_iff in Hn.
      destruct (is_project_with_id other n) eqn:E; [|reflexivity].
      apply (is_project_with_id_other pid other n Hne) in E. congruence. }
  rewrite Hmp. apply flat_map_ext_in. intros p' Hp'.
  destruct (match_project_node g other p' Hnd Hp') as [n [Hn Hid]].
  pose proof (is_project_with_id_other pid other n Hne Hid) as Hid'.
  pose proof (find_node_In _ _ _ Hn) as [Hnin Hnref].
  assert (Hmem : mem_ref p' (match_project g pid) = false).
  { rewrite <- Hnref. now rewrite mem_ref_match_project. }
  assert (Hsum : forall s, node_at g is_summary s = true ->
                           mem_ref s (match_project g pid) = false).
  { intros s Hs. destruct (node_at_find g is_summary s Hnd Hs) as [m [Hm Hms]].
    pose proof (find_node_In _ _ _ Hm) as [Hmin Hmref].
    rewrite <- Hmref, mem_ref_match_project by assumption.
    unfold is_summary in Hms. unfold is_project_with_id.
    now destruct (node_props m). }
  assert (Hl : match_latest (cypher_delete pid g) p' = match_latest g p').
  { unfold match_latest. f_equal. unfold cypher_delete at 2. cbn [rels].
    apply filter_filter_ext.
    - intros e _ _. now rewrite node_at_summary_deleted.
    - intros e _ He. apply negb_false_iff in He.
      destruct (is_rel HAS_LATEST_SUMMARY e); [|reflexivity].
      destruct (Nat.eqb_spec (rel_src e) p') as [Hsrc|]; [|reflexivity].
      destruct (node_at g is_summary (rel_dst e)) eqn:Es; [|reflexivity].
      rewrite Hsrc, Hmem, (Hsum _ Es) in He. discriminate. }
  rewrite Hl. apply map_ext_in. intros s Hs.
  apply match_latest_In in Hs. destruct Hs as [_ Hs].
  unfold node_value.
  now rewrite !find_node_deleted by (try assumption; now apply Hsum).
Qed.

Lemma delete_project_tool_keeps_other_projects_witness :
  wf (graph (snd (upsert_project_tool sample_collaborators "B" "q3" "s3" (Some "P2")
                    two_summaries_world)))
  /\ "P1" <> "P2"
  /\ fst (get_latest_summary_tool sample_collaborators "P1"
            (snd (delete_project_tool sample_collaborators "P2"
                    (snd (upsert_project_tool sample_collaborators "B" "q3" "s3"
                            (Some "P2") two_summaries_world)))))
     = Ok (RDict [("project_id", VStr "P1"); ("project_name", VStr "q2");
                  ("latest_summary", VStr "s2"); ("summary_id", VStr "u1")]).
Proof.
  set (w := snd (upsert_project_tool sample_collaborators "B" "q3" "s3" (Some "P2")
                   two_summaries_world)).
  assert (Hwf : wf (graph w))
    by (apply upsert_project_tool_keeps_wf; exact two_summaries_world_wf).
  assert (Hne : "P1" <> "P2") by discriminate.
  split; [exact Hwf|]. split; [exact Hne|].
  rewrite (delete_project_tool_keeps_other_projects sample_collaborators "P2" "P1"
             w Hwf Hne).
  reflexivity.
Defined.

(** ** A deleted project in the answers of the read tools *)

(** X12. After [delete_project_tool(pid)] no read tool answers with that
    project: [get_latest_summary_tool(pid)] returns ["No project found."],
    and no record returned by [get_project_node], [get_data_tool],
    [hybrid_rrf_search] or [hybrid_rerank_search] carries [pid] as its
    project id, whatever they are asked. *)
Theorem deleted_project_is_never_returned (C : Collaborators) (A : Arith)
    (pid : string) (w : World) :
  let w' := snd (delete_project_tool C pid w) in
  fst (get_latest_summary_tool C pid w') = Ok (RStr "No project found.")
  /\ (forall summary_id d,
        fst (get_project_node C summary_id w') = Ok (RDict d) ->
        lookup "project_id" d <> Some (VStr pid))
  /\ (forall node_ids rows row,
        fst (get_data_tool C node_ids w') = Ok rows -> In row rows ->
        lookup "id" row <> Some (VStr pid))
  /\ (forall query_text top_k rrf_k rows row,
        fst (hybrid_rrf_search C A query_text top_k rrf_k w') = Ok rows ->
        In row rows -> lookup "id" row <> Some (VStr pid))
  /\ (forall query_text top_k rrf_k rows row,
        fst (hybrid_rerank_search C A query_text top_k rrf_k w') = Ok rows ->
        In row rows -> lookup "id" row <> Some (VStr pid)).
Proof.
  intros w'. unfold w'. rewrite delete_project_tool_run. cbn [snd].
  set (w1 := mkWorld _ _ _ _).
  assert (Hg : graph w1 = cypher_delete pid (graph w)) by reflexivity.
  assert (Hdata : forall ids row, In row (cypher_get_data ids (graph w1)) ->
                                  lookup "id" row <> Some (VStr pid)).
  { intros ids row H. apply cypher_get_data_rows in H.
    destruct H as [e [p [n [_ [_ [Ep [Hp [_ [_ ->]]]]]]]]].
    apply find_node_In in Ep. destruct Ep as [Ep _]. rewrite Hg in Ep.
    simpl. intros H. injection H as H.
    exact (deleted_project_id _ _ _ Ep Hp H). }
  split; [|split; [|split; [|split]]].
  - rewrite get_latest_summary_tool_run. cbn [fst]. rewrite Hg.
    unfold cypher_latest. now rewrite match_project_deleted.
  - intros sid d. unfold get_project_node, bind, session_run, cypher.
    destruct (single (cypher_project_of_summary sid (graph w1))) as [record|] eqn:E;
      [|discriminate].
    cbn [fst ret]. intros H. injection H as <-.
    apply single_In in E.
    apply cypher_project_of_summary_rows in E.
    destruct E as [e [p [s [_ [_ [Ep [Hp [_ [_ [_ ->]]]]]]]]]].
    apply find_node_In in Ep. destruct Ep as [Ep _]. rewrite Hg in Ep.
    simpl. intros H. injection H as H.
    exact (deleted_project_id _ _ _ Ep Hp H).
  - intros ids rows row. unfold get_data_tool. destruct ids as [|id ids].
    + cbn. intros H. injection H as <-. intros [].
    + unfold session_run, cypher. cbn [fst]. intros H. injection H as <-.
      apply Hdata.
  - intros q k r rows row H Hrow. apply hybrid_rrf_search_ok in H.
    destruct H as [ids ->]. revert Hrow. apply Hdata.
  - intros q k r rows row H Hrow. apply hybrid_rerank_search_ok in H.
    destruct H as [ids H]. destruct (H row Hrow) as [c [Hc ->]].
    unfold scored. rewrite lookup_set_key_other by discriminate.
    revert Hc. apply Hdata.
Qed.

(** ** The Summaries of a deleted project *)

Lemma cypher_project_of_summary_deleted (sid pid : string) (g : Graph) (row : Dict) :
  NoDup (refs g) ->
  In row (cypher_project_of_summary sid (cypher_delete pid g)) ->
  In row (cypher_project_of_summary sid g)
  /\ lookup "project_id" row <> Some (VStr pid).
Proof.
  intros Hnd H. apply cypher_project_of_summary_rows in H.
  destruct H as [e [p [s [He [E1 [Ep [E2 [Es [E3 [E4 ->]]]]]]]]]].
  assert (Hsub : forall r n, find_node (cypher_delete pid g) r = Some n ->
                             find_node g r = Some n).
  { intros r n Hn. apply find_node_In in Hn. destruct Hn as [Hn <-].
    unfold cypher_delete in Hn. cbn [nodes] in Hn. apply filter_In in Hn.
    now apply find_node_unique. }
  split.
  - apply cypher_project_of_summary_rows. exists e, p, s.
    unfold cypher_delete in He. cbn [rels] in He. apply filter_In in He.
    repeat split; try tauto; now apply Hsub.
  - cbn. intros H. injection H as H. apply find_node_In in Ep.
    exact (deleted_project_id _ _ _ (proj1 Ep) E2 H).
Qed.

(** X13. In every world the tools build from the empty store (a new UUID
    for every Summary), once [delete_project_tool] has deleted the project
    that [get_project_node] answered with for a Summary id, it answers
    [None] for that id: the Summary nodes are still in the graph, and no
    project owns that one. *)
Theorem delete_project_tool_orphans_summaries (C : Collaborators)
    (summary_id pid : string) (d : Dict) (w : World) :
  reachable C w ->
  fst (get_project_node C summary_id w) = Ok (RDict d) ->
  lookup "project_id" d = Some (VStr pid) ->
  let w' := snd (delete_project_tool C pid w) in
  fst (get_project_node C summary_id w') = Ok RNone
  /\ forall n, In n (nodes (graph w)) -> is_summary n = true ->
               In n (nodes (graph w')).
Proof.
  intros Hw Hd Hpid w'. pose proof (reachable_wf C w Hw) as Hwf.
  pose proof (reachable_unique_summary_ids C w Hw) as Hu.
  split.
  2:{ intros n Hn Hs. unfold w'. rewrite delete_project_tool_run. cbn [snd graph].
      now apply cypher_delete_keeps_summaries. }
  unfold w'. rewrite delete_project_tool_run. cbn [snd].
  unfold get_project_node, bind, session_run, cypher in *. cbn [graph fst] in *.
  destruct (single (cypher_project_of_summary summary_id (graph w)))
    as [record|] eqn:E; [|discriminate].
  cbn in Hd. injection Hd as ->.
  assert (Hone : cypher_project_of_summary summary_id (graph w) = [d]).
  { pose proof (cypher_project_of_summary_le summary_id (graph w)) as H1.
    pose proof (cypher_get_data_bound [VStr summary_id] (graph w) Hu) as H2.
    destruct (cypher_project_of_summary summary_id (graph w)) as [|x [|y rest]];
      simpl in *; try discriminate; try lia.
    now injection E as ->. }
  destruct (cypher_project_of_summary summary_id (cypher_delete pid (graph w)))
    as [|row rows] eqn:E'; [reflexivity|].
  exfalso.
  destruct (cypher_project_of_summary_deleted summary_id pid (graph w) row
              (wf_refs _ Hwf)) as [Hin Hne].
  { rewrite E'. now left. }
  rewrite Hone in Hin. destruct Hin as [<-|[]]. contradiction.
Qed.

Lemma delete_project_tool_orphans_summaries_witness :
  reachable ranking_collaborators three_summaries_world
  /\ fst (get_project_node ranking_collaborators "u1" three_summaries_world)
     = Ok (RDict [("project_id", VStr "P1"); ("project_name", VStr "A");
                  ("question", VStr "q"); ("updated_at", VTime 2)])
  /\ fst (get_project_node ranking_collaborators "u1"
            (snd (delete_project_tool ranking_collaborators "P1"
                    three_summaries_world)))
     = Ok RNone.
Proof.
  assert (Hd : fst (get_project_node ranking_collaborators "u1" three_summaries_world)
               = Ok (RDict [("project_id", VStr "P1"); ("project_name", VStr "A");
                            ("question", VStr "q"); ("updated_at", VTime 2)]))
    by reflexivity.
  split; [exact three_summaries_world_reachable|]. split; [exact Hd|].
  exact (proj1 (delete_project_tool_orphans_summaries ranking_collaborators "u1" "P1" _
                  three_summaries_world three_summaries_world_reachable Hd eq_refl)).
Defined.

(** ** A delete right after the upsert that created the project *)

(** X14. A delete does not undo the upsert that created a project.  On a
    well-formed graph that holds no Project with the id,
    [upsert_project_tool] followed by [delete_project_tool] on that id
    leaves every node and relationship that was there, and one node more:
    the Summary the upsert created, which no relationship reaches. *)
Theorem delete_after_upsert_leaves_the_summary (C : Collaborators)
    (name question summary : string) (project_id : option string) (w : World) :
  wf (graph w) ->
  let pid := fst (chosen_project_id C project_id w) in
  let sid := uuid4_at C (snd (chosen_project_id C project_id w)) in
  match_project (graph w) pid = [] ->
  let w' := snd (upsert_project_tool C name question summary project_id w) in
  graph (snd (delete_project_tool C pid w'))
  = mkGraph
      (nodes (graph w)
       ++ [mkNode (S (fresh_ref (graph w)))
                  (Summary sid summary
                           (encode C (question ++ newline ++ summary)%string)
                           (now w))])
      (rels (graph w)).
Proof.
  intros Hwf pid sid Habs w'. rewrite delete_project_tool_run. cbn [snd graph].
  unfold w'. rewrite upsert_project_tool_graph. fold pid. fold sid.
  rewrite (cypher_upsert_absent _ _ _ _ _ _ _ _ Hwf Habs).
  set (g := graph w) in *. set (p := fresh_ref g).
  unfold cypher_delete. cbn [nodes rels].
  assert (Hnodes : filter (fun n => negb (is_project_with_id pid n)) (nodes g) = nodes g).
  { apply filter_all. intros n Hn. apply negb_true_iff.
    now apply (proj1 (match_project_nil g pid) Habs). }
  assert (Hmp : match_project
                  (mkGraph (nodes g ++ [mkNode p (Project pid name question (now w));
                                        mkNode (S p) (Summary sid summary
                                          (encode C (question ++ newline ++ summary)%string)
                                          (now w))])
                           (rels g ++ [mkRel HAS_LATEST_SUMMARY p (S p);
                                       mkRel HAS_SUMMARY p (S p)])) pid = [p]).
  { unfold match_project. cbn [nodes]. rewrite filter_app, map_app.
    fold (match_project g pid). rewrite Habs. cbn.
    now rewrite String.eqb_refl. }
  rewrite Hmp. f_equal.
  - rewrite filter_app, Hnodes. cbn. now rewrite String.eqb_refl.
  - rewrite filter_app. cbn [filter rel_src rel_dst mem_ref existsb].
    rewrite Nat.eqb_refl. cbn. rewrite app_nil_r.
    apply filter_all. intros e He. apply negb_true_iff.
    destruct (wf_closed g Hwf e He) as [Hs Hd].
    unfold mem_ref. cbn [existsb]. rewrite !orb_false_r.
    apply orb_false_iff. split; apply Nat.eqb_neq; intros E;
      [rewrite E in Hs | rewrite E in Hd]; now apply fresh_ref_not_in in Hs + now apply fresh_ref_not_in in Hd.
Qed.

Lemma delete_after_upsert_leaves_the_summary_witness :
  wf (graph two_summaries_world)
  /\ match_project (graph two_summaries_world)
       (fst (chosen_project_id sample_collaborators (Some "P2") two_summaries_world))
     = []
  /\ graph (snd (delete_project_tool sample_collaborators "P2"
                   (snd (upsert_project_tool sample_collaborators "B" "q3" "s3"
                           (Some "P2") two_summaries_world))))
     = mkGraph
         (nodes (graph two_summaries_world)
          ++ [mkNode 5 (Summary "u2" "s3" (char_codes ("q3" ++ newline ++ "s3")) 2)])
         (rels (graph two_summaries_world)).
Proof.
  split; [exact two_summaries_world_wf|]. split; [reflexivity|].
  exact (delete_after_upsert_leaves_the_summary sample_collaborators "B" "q3" "s3"
           (Some "P2") two_summaries_world two_summaries_world_wf eq_refl).
Defined.

(** ** What an upsert and a delete leave in place *)

Lemma merge_rels_keeps (es : list Rel) (g : Graph) :
  nodes (merge_rels es g) = nodes g
  /\ forall e, In e (rels g) -> In e (rels (merge_rels es g)).
Proof.
  unfold merge_rels. revert g. induction es as [|x es IH]; intros g; simpl.
  - split; [reflexivity | tauto].
  - destruct (IH (merge_rel x g)) as [Hn Hr]. rewrite Hn.
    unfold merge_rel in *. destruct (existsb (rel_eqb x) (rels g)).
    + split; [reflexivity | exact Hr].
    + split; [reflexivity|]. intros e He. apply Hr. simpl.
      apply in_or_app. now left.
Qed.

Lemma create_summaries_keeps (sid text : string) (emb : Embedding) (t : nat)
    (rows : list (nat * option nat)) (g : Graph) :
  rels (fst (create_summaries sid text emb t rows g)) = rels g
  /\ forall n, In n (nodes g) ->
               In n (nodes (fst (create_summaries sid text emb t rows g))).
Proof.
  revert g. induction rows as [|[p old] rows IH]; intros g; simpl.
  - split; [reflexivity | tauto].
  - destruct (IH (add_node (mkNode (fresh_ref g) (Summary sid text emb t)) g))
      as [Hr Hn].
    destruct (create_summaries sid text emb t rows _) as [g' out]. cbn [fst] in *.
    split; [exact Hr|]. intros n Hin. apply Hn. simpl. apply in_or_app. now left.
Qed.

Lemma old_rels_type (rows : list (nat * option nat)) (e : Rel) :
  In e (old_rels rows) -> rel_type e = HAS_LATEST_SUMMARY.
Proof.
  unfold old_rels. rewrite in_flat_map. intros [[p [o|]] [_ H]]; simpl in H.
  - destruct H as [<-|[]]. reflexivity.
  - contradiction.
Qed.

Lemma attach_summary_keeps (t : nat) (text : string) (emb : Embedding)
    (sid : string) (ps : list nat) (g1 : Graph) :
  let g' := fst (attach_summary t text emb sid ps g1) in
  (forall n, In n (nodes g1) -> In n (nodes g'))
  /\ (forall e, In e (rels g1) -> rel_type e <> HAS_LATEST_SUMMARY -> In e (rels g')).
Proof.
  unfold attach_summary.
  set (rows := optional_match_latest g1 ps).
  set (g2 := delete_rels (old_rels rows) g1).
  pose proof (create_summaries_keeps sid text emb t rows g2) as [Hr3 Hn3].
  destruct (create_summaries sid text emb t rows g2) as [g3 rows'].
  cbn [fst] in *.
  set (l4 := map (fun row => mkRel HAS_LATEST_SUMMARY (fst (fst row)) (snd row)) rows').
  set (l5 := map (fun row => mkRel HAS_SUMMARY (fst (fst row)) (snd row)) rows').
  destruct (merge_rels_keeps l4 g3) as [Hn4 Hr4].
  destruct (merge_rels_keeps l5 (merge_rels l4 g3)) as [Hn5 Hr5].
  destruct (merge_rels_keeps (previous_rels rows') (merge_rels l5 (merge_rels l4 g3)))
    as [Hn6 Hr6].
  split.
  - intros n Hn. rewrite Hn6, Hn5, Hn4. apply Hn3. exact Hn.
  - intros e He Ht. apply Hr6, Hr5, Hr4. rewrite Hr3. unfold g2, delete_rels.
    cbn [rels]. apply filter_In. split; [assumption|].
    apply negb_true_iff. apply existsb_none. intros x Hx.
    destruct (rel_eqb_spec e x) as [->|]; [|reflexivity].
    apply old_rels_type in Hx. contradiction.
Qed.

Lemma merge_set_project_keeps (pid name question : string) (t : nat) (g : Graph) :
  let g1 := fst (merge_set_project pid name question t g) in
  rels g1 = rels g
  /\ forall n, In n (nodes g) -> is_summary n = true -> In n (nodes g1).
Proof.
  unfold merge_set_project. destruct (match_project g pid) as [|p ps]; cbn [fst].
  - split; [reflexivity|]. intros n Hn _. simpl. apply in_or_app. now left.
  - split; [reflexivity|]. intros n Hn Hs. cbn [nodes]. apply in_map_iff.
    exists n. split; [|assumption].
    unfold is_summary in Hs. unfold is_project_with_id.
    now destruct (node_props n).
Qed.

(** X15. Neither an upsert nor a delete removes or changes a Summary
    node, on any graph; and the only relationships an upsert removes are
    HAS_LATEST_SUMMARY ones: every HAS_SUMMARY and PREVIOUS_VERSION
    relationship is still there after it. *)
Theorem history_is_kept (C : Collaborators) (name question summary : string)
    (project_id : option string) (pid : string) (w : World) :
  let upserted := graph (snd (upsert_project_tool C name question summary
                                 project_id w)) in
  let deleted := graph (snd (delete_project_tool C pid w)) in
  (forall n, In n (nodes (graph w)) /\ is_summary n = true ->
             In n (nodes upserted) /\ In n (nodes deleted))
  /\ (forall e, In e (rels (graph w)) /\ rel_type e <> HAS_LATEST_SUMMARY ->
                In e (rels upserted)).
Proof.
  intros upserted deleted. unfold upserted, deleted.
  rewrite upsert_project_tool_graph, delete_project_tool_run. cbn [snd graph].
  unfold cypher_upsert.
  pose proof (merge_set_project_keeps
                (fst (chosen_project_id C project_id w)) name question (now w)
                (graph w)) as [Hr1 Hn1].
  destruct (merge_set_project _ name question (now w) (graph w)) as [g1 ps].
  cbn [fst] in Hr1, Hn1.
  match goal with
  | |- context [attach_summary ?t ?s ?e ?i ps g1] =>
      pose proof (attach_summary_keeps t s e i ps g1) as [Hn2 Hr2]
  end.
  split.
  - intros n [Hn Hs]. split.
    + apply Hn2. now apply Hn1.
    + now apply cypher_delete_keeps_summaries.
  - intros e [He Ht]. apply Hr2; [now rewrite Hr1 | assumption].
Qed.

(** ** The shape of the history in the graphs the tools build *)

Lemma node_at_merge_set_project (pid name question : string) (t : nat)
    (g : Graph) (f : Node -> bool) (r : nat) :
  (forall n n', is_project n = is_project n' -> node_ref n = node_ref n' ->
                is_project n = true -> f n = f n') ->
  node_at g f r = true ->
  node_at (fst (merge_set_project pid name question t g)) f r = true.
Proof.
  intros Hf H. unfold merge_set_project.
  destruct (match_project g pid) as [|p ps]; cbn [fst].
  - unfold add_node. destruct g as [ns es]. cbn [nodes rels].
    rewrite node_at_app. cbn [nodes rels] in H. now rewrite H.
  - apply node_at_In in H. destruct H as [n [Hn [Hr Hfn]]].
    apply node_at_In. cbn [nodes].
    exists (if is_project_with_id pid n
            then mkNode (node_ref n) (Project pid name question t) else n).
    split; [apply in_map_iff; now exists n|].
    destruct (is_project_with_id pid n) eqn:E; [|now split].
    split; [exact Hr|]. rewrite <- Hfn. symmetry.
    apply is_project_with_id_true in E. destruct E as [nm [q [t' E]]].
    apply Hf; unfold is_project; cbn; now rewrite ?E.
Qed.

Lemma node_at_attached_old (t : nat) (text : string) (emb : Embedding)
    (sid : string) (p : nat) (g1 : Graph) (f : Node -> bool) (r : nat) :
  node_at g1 f r = true -> node_at (attached t text emb sid p g1) f r = true.
Proof.
  intros H. unfold node_at, attached in *. cbn [nodes].
  rewrite existsb_app. now rewrite H.
Qed.

Lemma is_project_label (n n' : Node) :
  is_project n = is_project n' -> node_ref n = node_ref n' ->
  is_project n = true -> is_project n = is_project n'.
Proof. tauto. Qed.

Lemma is_summary_label (n n' : Node) :
  is_project n = is_project n' -> node_ref n = node_ref n' ->
  is_project n = true -> is_summary n = is_summary n'.
Proof.
  unfold is_project, is_summary. intros H _ Hn.
  destruct (node_props n), (node_props n'); congruence.
Qed.

Lemma node_at_label_merge (pid name question : string) (t : nat) (g : Graph)
    (e : Rel) (r : nat) :
  node_at g (match rel_type e with
             | PREVIOUS_VERSION => is_summary
             | _ => is_project
             end) r = true ->
  node_at (fst (merge_set_project pid name question t g))
          (match rel_type e with
           | PREVIOUS_VERSION => is_summary
           | _ => is_project
           end) r = true.
Proof.
  apply node_at_merge_set_project.
  destruct (rel_type e); [apply is_project_label .. | apply is_summary_label].
Qed.

(** One upsert statement keeps the shape. *)
Lemma attached_shape (t : nat) (pid name question text : string)
    (emb : Embedding) (sid : string) (g : Graph) :
  wf g -> typed g -> latest_is_linked g -> versions_descend (fun r => r) g ->
  (forall s, List.length (previous_of g s) <= 1) ->
  let g' := fst (cypher_upsert t pid name question text emb sid g) in
  typed g' /\ latest_is_linked g' /\ versions_descend (fun r => r) g'
  /\ forall s, List.length (previous_of g' s) <= 1.
Proof.
  intros Hwf Hty Hll Hvd Hone g'.
  destruct (cypher_upsert_attached t pid name question text emb sid g Hwf)
    as [g1 [p [Hm [Hps Heq]]]].
  unfold g'. rewrite Heq. clear g' Heq.
  assert (Hg1 : g1 = fst (merge_set_project pid name question t g)) by now rewrite Hm.
  pose proof (ps_wf _ _ _ _ _ _ _ Hps) as Hwf1.
  pose proof (ps_rels _ _ _ _ _ _ _ Hps) as Hrels.
  pose proof (project_set_in_refs _ _ _ _ _ _ _ Hps) as Hp.
  set (olds := match_latest g1 p).
  set (s := fresh_ref g1).
  set (g' := attached t text emb sid p g1).
  assert (Hrels' : rels g' = filter (not_old_latest p olds) (rels g1)
                             ++ upsert_links p s olds) by reflexivity.
  assert (Hnew : node_at g' is_summary s = true).
  { unfold g'. rewrite node_at_attached. fold s. now rewrite Nat.eqb_refl, orb_true_r. }
  assert (Hproj : node_at g' is_project p = true).
  { apply node_at_attached_old. apply node_at_In.
    pose proof (ps_node _ _ _ _ _ _ _ Hps) as Hn. apply find_node_In in Hn.
    eexists. split; [apply Hn|]. split; [apply Hn | reflexivity]. }
  assert (Hold : forall o, In o olds -> node_at g' is_summary o = true /\ o < s).
  { intros o Ho. apply match_latest_In in Ho. destruct Ho as [_ Ho]. split.
    - now apply node_at_attached_old.
    - apply fresh_ref_gt. now apply node_at_refs in Ho. }
  assert (Hin : forall e, In e (rels g') ->
                  (In e (rels g) /\ not_old_latest p olds e = true)
                  \/ e = mkRel HAS_LATEST_SUMMARY p s
                  \/ e = mkRel HAS_SUMMARY p s
                  \/ exists o, In o olds /\ e = mkRel PREVIOUS_VERSION s o).
  { intros e He. rewrite Hrels' in He. apply in_app_or in He. destruct He as [He|He].
    - apply filter_In in He. rewrite Hrels in He. now left.
    - right. unfold upsert_links in He. simpl in He.
      destruct He as [<-|[<-|He]]; [now left | now right; left |].
      right. right. apply in_map_iff in He. destruct He as [o [<- Ho]]. now exists o. }
  split; [|split; [|split]].
  - intros e He. destruct (Hin e He) as [[Hg _]|[->|[->|[o [Ho ->]]]]].
    + destruct (Hty e Hg) as [H1 H2]. split.
      * apply node_at_attached_old. rewrite Hg1. now apply node_at_label_merge.
      * apply node_at_attached_old. rewrite Hg1.
        apply node_at_merge_set_project; [apply is_summary_label | assumption].
    + now split.
    + now split.
    + split; [exact Hnew | now apply Hold].
  - intros e He Ht. rewrite Hrels'. apply in_or_app.
    destruct (Hin e He) as [[Hg Hk]|[->|[->|[o [Ho ->]]]]]; try discriminate.
    + left. apply filter_In. split; [rewrite Hrels; now apply Hll|].
      destruct (not_old_latest p olds (mkRel HAS_SUMMARY (rel_src e) (rel_dst e))) eqn:E;
        [reflexivity|].
      apply not_old_latest_false in E. destruct E as [o [_ E]]. discriminate.
    + right. unfold upsert_links. simpl. tauto.
  - intros e He Ht.
    destruct (Hin e He) as [[Hg _]|[->|[->|[o [Ho ->]]]]]; try discriminate.
    + now apply Hvd.
    + simpl. now apply Hold.
  - intros x. unfold previous_of. rewrite Hrels', filter_app, length_app.
    destruct (Nat.eqb_spec x s) as [->|Hx].
    + rewrite filter_none.
      2:{ intros e He. apply filter_In in He. destruct He as [He _].
          destruct (wf_closed g1 Hwf1 e He) as [Hsrc _].
          destruct (Nat.eqb_spec (rel_src e) s) as [E|]; [|now rewrite andb_false_r].
          exfalso. rewrite E in Hsrc. now apply fresh_ref_not_in in Hsrc. }
      unfold upsert_links. cbn [app filter is_rel rel_type reltype_eqb andb].
      simpl List.length.
      pose proof (filter_length_le
                    (fun e => is_rel PREVIOUS_VERSION e && Nat.eqb (rel_src e) s)
                    (fun _ => true)
                    (map (fun o => mkRel PREVIOUS_VERSION s o) olds)
                    (fun _ _ _ => eq_refl)) as Hle.
      rewrite (filter_all (fun _ => true)) in Hle by reflexivity.
      rewrite length_map in Hle.
      pose proof (wf_latest g1 Hwf1 p). fold olds in H. lia.
    + rewrite (filter_none _ (upsert_links p s olds)).
      2:{ intros e He. unfold upsert_links in He. simpl in He.
          destruct He as [<-|[<-|He]]; try reflexivity.
          apply in_map_iff in He. destruct He as [o [<- _]].
          cbn [is_rel rel_type rel_src reltype_eqb andb].
          now apply Nat.eqb_neq, not_eq_sym. }
      simpl List.length. rewrite Nat.add_0_r.
      etransitivity; [|apply (Hone x)]. unfold previous_of. rewrite <- Hrels.
      rewrite filter_filter_and.
      apply filter_length_le. intros e _ H. now apply andb_true_iff in H.
Qed.

(** The delete statement keeps the shape. *)
Lemma cypher_delete_shape (pid : string) (g : Graph) :
  wf g -> typed g -> latest_is_linked g -> versions_descend (fun r => r) g ->
  (forall s, List.length (previous_of g s) <= 1) ->
  let g' := cypher_delete pid g in
  typed g' /\ latest_is_linked g' /\ versions_descend (fun r => r) g'
  /\ forall s, List.length (previous_of g' s) <= 1.
Proof.
  intros Hwf Hty Hll Hvd Hone g'. pose proof (wf_refs g Hwf) as Hnd.
  assert (Hin : forall e, In e (rels g') ->
                  In e (rels g)
                  /\ mem_ref (rel_src e) (match_project g pid) = false
                  /\ mem_ref (rel_dst e) (match_project g pid) = false).
  { intros e He. unfold g', cypher_delete in He. cbn [rels] in He.
    apply filter_In in He. destruct He as [He Hk]. split; [assumption|].
    apply negb_true_iff in Hk. now apply orb_false_iff in Hk. }
  assert (Hkeep : forall f r, node_at g f r = true ->
                    mem_ref r (match_project g pid) = false ->
                    node_at g' f r = true).
  { intros f r H Hm. apply node_at_In in H. destruct H as [n [Hn [Hr Hf]]].
    apply node_at_In. exists n. split; [|now split].
    unfold g', cypher_delete. cbn [nodes]. apply filter_In. split; [assumption|].
    rewrite <- Hr, mem_ref_match_project in Hm by assumption. now rewrite Hm. }
  split; [|split; [|split]].
  - intros e He. destruct (Hin e He) as [Hg [Hs Hd]]. destruct (Hty e Hg) as [H1 H2].
    split; now apply Hkeep.
  - intros e He Ht. destruct (Hin e He) as [Hg [Hs Hd]].
    unfold g', cypher_delete. cbn [rels]. apply filter_In.
    split; [now apply Hll|]. cbn [rel_src rel_dst]. now rewrite Hs, Hd.
  - intros e He Ht. destruct (Hin e He) as [Hg _]. now apply Hvd.
  - intros s. etransitivity; [|apply (Hone s)].
    unfold previous_of, g', cypher_delete. cbn [rels]. rewrite filter_filter_and.
    apply filter_length_le. intros e _ H. now apply andb_true_iff in H.
Qed.

Lemma reachable_shape (C : Collaborators) (w : World) :
  reachable C w ->
  typed (graph w) /\ latest_is_linked (graph w)
  /\ versions_descend (fun r => r) (graph w)
  /\ forall s, List.length (previous_of (graph w) s) <= 1.
Proof.
  induction 1 as [|w name question summary project_id Hw IH Hfresh
                  |w project_id Hw IH].
  - split; [intros e []|]. split; [intros e []|]. split; [intros e []|].
    intros s. simpl. lia.
  - destruct IH as [H1 [H2 [H3 H4]]]. rewrite upsert_project_tool_graph.
    apply attached_shape; try assumption. now apply (reachable_wf C).
  - destruct IH as [H1 [H2 [H3 H4]]]. rewrite delete_project_tool_run. cbn [snd graph].
    apply cypher_delete_shape; try assumption. now apply (reachable_wf C).
Qed.

(** X16. In every world the tools build from the empty store by upserts
    and deletes, with a new UUID for every Summary: node references are
    unique and no relationship dangles; an id names at most one Project
    and a Project has at most one latest Summary, which is one of its
    Summaries; HAS_SUMMARY and HAS_LATEST_SUMMARY go from a Project to a
    Summary and PREVIOUS_VERSION from a Summary to a Summary; no Summary id
    is reached twice by HAS_SUMMARY; a Summary has at most one previous
    version, and the PREVIOUS_VERSION relationships form no cycle. *)
Theorem reachable_graph_shape (C : Collaborators) (w : World) :
  reachable C w ->
  wf (graph w)
  /\ unique_summary_ids (graph w)
  /\ typed (graph w)
  /\ latest_is_linked (graph w)
  /\ (forall s, List.length (previous_of (graph w) s) <= 1)
  /\ exists rank, versions_descend rank (graph w).
Proof.
  intros Hw. destruct (reachable_shape C w Hw) as [H1 [H2 [H3 H4]]].
  split; [now apply (reachable_wf C)|].
  split; [now apply (reachable_unique_summary_ids C)|].
  split; [assumption|]. split; [assumption|]. split; [assumption|].
  now exists (fun r => r).
Qed.

Lemma reachable_graph_shape_witness :
  reachable ranking_collaborators three_summaries_world
  /\ typed (graph three_summaries_world)
  /\ latest_is_linked (graph three_summaries_world)
  /\ previous_of (graph three_summaries_world) 4 = [mkRel PREVIOUS_VERSION 4 3].
Proof.
  split; [exact three_summaries_world_reachable|].
  destruct (reachable_graph_shape ranking_collaborators three_summaries_world
              three_summaries_world_reachable) as [_ [_ [H1 [H2 _]]]].
  split; [exact H1|]. split; [exact H2 | reflexivity].
Defined.

(** ** The records [single()] chooses from *)

Lemma cypher_latest_le (pid : string) (g : Graph) :
  wf g -> List.length (cypher_latest pid g) <= 1.
Proof.
  intros Hwf. unfold cypher_latest.
  destruct (length_le_1 _ (wf_project g Hwf pid)) as [E|[p E]]; rewrite E; simpl;
    [lia|].
  rewrite app_nil_r, length_map. apply (wf_latest g Hwf).
Qed.

(** X17. In every world the tools build from the empty store (a new UUID
    for every Summary), the statements whose result goes through [single()]
    yield at most one record: [get_project_node] and
    [get_latest_summary_tool] never choose among several, and the
    statement of [upsert_project_tool] yields exactly one. *)
Theorem single_chooses_from_one (C : Collaborators) (w : World) :
  reachable C w ->
  (forall summary_id,
     List.length (cypher_project_of_summary summary_id (graph w)) <= 1)
  /\ (forall project_id, List.length (cypher_latest project_id (graph w)) <= 1)
  /\ (forall t project_id name question summary embedding summary_id,
        List.length (snd (cypher_upsert t project_id name question summary
                            embedding summary_id (graph w))) = 1).
Proof.
  intros Hw. pose proof (reachable_wf C w Hw) as Hwf.
  pose proof (reachable_unique_summary_ids C w Hw) as Hu.
  split; [|split].
  - intros sid. etransitivity; [apply cypher_project_of_summary_le|].
    apply (cypher_get_data_bound [VStr sid] (graph w) Hu).
  - intros pid. now apply cypher_latest_le.
  - intros t pid name question summary emb sid.
    destruct (cypher_upsert_wf t pid name question summary emb sid (graph w) Hwf)
      as [g1 [p [_ Heq]]].
    now rewrite Heq.
Qed.

Lemma single_chooses_from_one_witness :
  reachable ranking_collaborators three_summaries_world
  /\ List.length (cypher_project_of_summary "u1" (graph three_summaries_world)) <= 1
  /\ cypher_latest "P1" (graph three_summaries_world)
     = [[("project_id", VStr "P1"); ("project_name", VStr "q");
         ("latest_summary", VStr "c"); ("summary_id", VStr "u2")]].
Proof.
  split; [exact three_summaries_world_reachable|].
  split; [|reflexivity].
  exact (proj1 (single_chooses_from_one ranking_collaborators three_summaries_world
                  three_summaries_world_reachable) "u1").
Defined.

(** ** Tools that only read *)

Lemma keeps_store_ret {A : Type} (a : A) : keeps_store (ret a).
Proof. intros w. split; reflexivity. Qed.

Lemma keeps_store_raise {A : Type} (e : Exn) : keeps_store (@raise A e).
Proof. intros w. split; reflexivity. Qed.

Lemma keeps_store_bind {A B : Type} (c : Tool A) (k : A -> Tool B) :
  keeps_store c -> (forall a, keeps_store (k a)) -> keeps_store (bind c k).
Proof.
  intros Hc Hk w. unfold bind. specialize (Hc w).
  destruct (c w) as [[a|e] w1]; cbn [snd] in *.
  - destruct (Hk a w1) as [H1 H2]. destruct Hc as [H3 H4]. split; congruence.
  - exact Hc.
Qed.

Lemma keeps_store_emit (e : Event) : keeps_store (emit e).
Proof. intros w. split; reflexivity. Qed.

Lemma keeps_store_getitem (d : Dict) (k : string) : keeps_store (getitem d k).
Proof.
  unfold getitem. destruct (lookup k d); [apply keeps_store_ret | apply keeps_store_raise].
Qed.

Lemma keeps_store_mapM {A B : Type} (f : A -> Tool B) (l : list A) :
  (forall x, keeps_store (f x)) -> keeps_store (mapM f l).
Proof.
  intros Hf. induction l as [|x l IH]; simpl; [apply keeps_store_ret|].
  apply keeps_store_bind; [apply Hf|]. intros y.
  apply keeps_store_bind; [exact IH|]. intros ys. apply keeps_store_ret.
Qed.

Lemma keeps_store_session_run (C : Collaborators) (q : Query) :
  reads_only q = true -> keeps_store (session_run C q).
Proof.
  intros Hq w. unfold session_run.
  destruct q; try discriminate; cbn [cypher];
    try (split; reflexivity).
Qed.

Lemma keeps_store_rrf_loop (A : Arith) (rrf_k rank : Z) (results : list Dict)
    (d : list (Value * num A)) :
  keeps_store (rrf_loop A rrf_k rank results d).
Proof. intros w. now rewrite rrf_loop_world. Qed.

Lemma keeps_store_get_data_tool (C : Collaborators) (ids : list Value) :
  keeps_store (get_data_tool C ids).
Proof.
  unfold get_data_tool. destruct ids; [apply keeps_store_ret|].
  now apply keeps_store_session_run.
Qed.

Lemma keeps_store_get_semantic_matches (C : Collaborators) (q : string) (k : Z) (m : Q) :
  keeps_store (get_semantic_matches C q k m).
Proof.
  unfold get_semantic_matches, model_encode.
  apply keeps_store_bind.
  - apply keeps_store_bind; [apply keeps_store_emit|]. intros _. apply keeps_store_ret.
  - intros emb. now apply keeps_store_session_run.
Qed.

Lemma keeps_store_hybrid_rrf_search (C : Collaborators) (A : Arith) (q : string)
    (k r : Z) : keeps_store (hybrid_rrf_search C A q k r).
Proof.
  unfold hybrid_rrf_search.
  apply keeps_store_bind; [apply keeps_store_get_semantic_matches|]. intros sem.
  apply keeps_store_bind; [now apply keeps_store_session_run|]. intros bm.
  apply keeps_store_bind; [apply keeps_store_rrf_loop|]. intros d1.
  apply keeps_store_bind; [apply keeps_store_rrf_loop|]. intros d2.
  apply keeps_store_get_data_tool.
Qed.

Lemma keeps_store_rerank (C : Collaborators) (q : string) (cands : list Dict)
    (k : Z) : keeps_store (rerank C q cands k).
Proof.
  unfold rerank. destruct cands as [|c rest]; [apply keeps_store_ret|].
  apply keeps_store_bind.
  { apply keeps_store_mapM. intros x.
    apply keeps_store_bind; [apply keeps_store_getitem|]. intros s. apply keeps_store_ret. }
  intros pairs. apply keeps_store_bind.
  { unfold cross_encoder_predict.
    apply keeps_store_bind; [apply keeps_store_emit|]. intros _. apply keeps_store_ret. }
  intros scores. apply keeps_store_bind; [|intros keyed; apply keeps_store_ret].
  apply keeps_store_mapM. intros x.
  apply keeps_store_bind; [apply keeps_store_getitem|]. intros v.
  apply keeps_store_bind; [|intros n; apply keeps_store_ret].
  unfold as_number. destruct v; try apply keeps_store_raise. apply keeps_store_ret.
Qed.

(** X18. The read and search tools never write.  Whatever
    [get_project_node], [get_latest_summary_tool], [get_data_tool], the two searches, the
    fusion and the reranking search are called with, and whether they
    return or raise, the graph and the count of UUIDs drawn are those they
    started from. *)
Theorem read_tools_keep_store (C : Collaborators) (A : Arith) :
  (forall summary_id, keeps_store (get_project_node C summary_id))
  /\ (forall project_id, keeps_store (get_latest_summary_tool C project_id))
  /\ (forall node_ids, keeps_store (get_data_tool C node_ids))
  /\ (forall query_text top_k min_score,
        keeps_store (get_semantic_matches C query_text top_k min_score))
  /\ (forall query_text top_k min_score,
        keeps_store (get_bm25_matches C query_text top_k min_score))
  /\ (forall query_text top_k rrf_k,
        keeps_store (hybrid_rrf_search C A query_text top_k rrf_k))
  /\ (forall query_text top_k rrf_k,
        keeps_store (hybrid_rerank_search C A query_text top_k rrf_k)).
Proof.
  repeat match goal with |- _ /\ _ => split end; intros.
  - unfold get_project_node. apply keeps_store_bind;
      [now apply keeps_store_session_run|].
    intros rows. destruct (single rows); apply keeps_store_ret.
  - unfold get_latest_summary_tool. apply keeps_store_bind;
      [now apply keeps_store_session_run|].
    intros rows. destruct (single rows); apply keeps_store_ret.
  - apply keeps_store_get_data_tool.
  - apply keeps_store_get_semantic_matches.
  - unfold get_bm25_matches. now apply keeps_store_session_run.
  - apply keeps_store_hybrid_rrf_search.
  - unfold hybrid_rerank_search. apply keeps_store_bind;
      [apply keeps_store_hybrid_rrf_search | intros c; apply keeps_store_rerank].
Qed.

(** ** A zero denominator in the fusion *)

(** A loop over items that all carry a node id raises when one of its
    ranks cancels [rrf_k]. *)
Lemma rrf_loop_raises (A : Arith) (rrf_k rank : Z) (results : list Dict)
    (d : list (Value * num A)) (w : World) (i : Z) :
  Forall (fun item => lookup "node_id" item <> None) results ->
  (0 <= i < Z.of_nat (List.length results))%Z ->
  (rrf_k + (rank + i) = 0)%Z ->
  rrf_loop A rrf_k rank results d w = (Raise ZeroDivisionError, w).
Proof.
  revert rank d i. induction results as [|item rest IH]; intros rank d i Hid Hi Hz.
  - simpl in Hi. lia.
  - inversion Hid as [|? ? Hitem Hrest]; subst.
    destruct (Z.eq_dec (rrf_k + rank) 0) as [E0|E0].
    + now apply rrf_loop_zero_division.
    + simpl. unfold bind, getitem.
      destruct (lookup "node_id" item) as [v|]; [|congruence].
      unfold ret at 1. cbn beta iota.
      destruct (Z.eqb_spec (rrf_k + rank) 0) as [E1|_]; [contradiction|].
      apply (IH (rank + 1)%Z _ (i - 1)%Z Hrest).
      * assert (i <> 0)%Z by (intros ->; apply E0; lia).
        cbn [List.length] in Hi. lia.
      * lia.
Qed.

(** X19. [hybrid_rrf_search] and the division [1 / (rrf_k + rank)], for
    [top_k > 0].  When [- rrf_k] is one of the ranks [1 .. n], [n] being
    the length of the longer of the two result lists, the call raises
    [ZeroDivisionError] after the two searches and before any hydration;
    for every other [rrf_k], and so for every [rrf_k >= 0], it returns. *)
Theorem hybrid_rrf_search_zero_division (C : Collaborators) (A : Arith)
    (query_text : string) (top_k rrf_k : Z) (w : World) :
  (0 < top_k)%Z ->
  let sem := cypher_vector C (top_k * 2) (encode C query_text) 0 (graph w) in
  let bm := fulltext_rows C query_text (top_k * 2) 0 (graph w) in
  let n := Nat.max (List.length sem) (List.length bm) in
  let r := hybrid_rrf_search C A query_text top_k rrf_k w in
  ((1 <= - rrf_k <= Z.of_nat n)%Z ->
   fst r = Raise ZeroDivisionError
   /\ trace (snd r)
      = trace w ++ [EvEncode query_text;
                    EvRun (QVector (top_k * 2) (encode C query_text) 0);
                    EvRun (QFulltext query_text (top_k * 2) 0)])
  /\ (~ (1 <= - rrf_k <= Z.of_nat n)%Z -> is_ok (fst r) = true)
  /\ ((0 <= rrf_k)%Z -> is_ok (fst r) = true).
Proof.
  intros Hpos sem bm n r.
  assert (Hk : (0 <= top_k)%Z) by lia.
  assert (Hok : ~ (1 <= - rrf_k <= Z.of_nat n)%Z -> is_ok (fst r) = true).
  { intros Hn. unfold r.
    rewrite (hybrid_rrf_search_run C A query_text top_k rrf_k w Hk);
      [reflexivity | |]; intros rank Hr; fold sem in Hr; fold bm in Hr;
      unfold n in Hn; lia. }
  split; [|split; [exact Hok | intros H; apply Hok; lia]].
  intros Hz. unfold r, hybrid_rrf_search, bind at 1.
  unfold get_semantic_matches, model_encode, bind, emit, ret, session_run, cypher.
  cbn [graph trace draws now]. fold sem.
  unfold get_bm25_matches, session_run, cypher, cypher_fulltext.
  cbn [graph trace draws now].
  destruct (Z.ltb_spec (top_k * 2) 0) as [Hneg|_]; [lia|]. fold bm.
  rewrite <- !app_assoc. cbn [app].
  destruct (Z_le_gt_dec (- rrf_k) (Z.of_nat (List.length sem))) as [Hs|Hs].
  - rewrite (rrf_loop_raises A rrf_k 1 sem [] _ (- rrf_k - 1)%Z);
      [split; reflexivity | apply has_node_id_vector | lia | lia].
  - rewrite (rrf_loop_accumulate A rrf_k 1 sem []);
      [| apply has_node_id_vector | intros i Hi; lia].
    rewrite (rrf_loop_raises A rrf_k 1 bm _ _ (- rrf_k - 1)%Z);
      [split; reflexivity | apply has_node_id_fulltext | unfold n in Hz; lia | lia].
Qed.

Lemma hybrid_rrf_search_zero_division_witness :
  (0 < 3)%Z
  /\ fst (hybrid_rrf_search ranking_collaborators binary64 "x" 3 (-2)
            three_summaries_world)
     = Raise ZeroDivisionError
  /\ is_ok (fst (hybrid_rrf_search ranking_collaborators binary64 "x" 3 (-3)
                   three_summaries_world)) = true.
Proof.
  split; [lia|]. split.
  - refine (proj1 (proj1 (hybrid_rrf_search_zero_division ranking_collaborators
                            binary64 "x" 3 (-2) three_summaries_world _) _)).
    + lia.
    + vm_compute. split; discriminate.
  - refine (proj1 (proj2 (hybrid_rrf_search_zero_division ranking_collaborators
                            binary64 "x" 3 (-3) three_summaries_world _)) _).
    + lia.
    + intros [_ H]. vm_compute in H. now apply H.
Defined.

(** ** The ids handed to the hydration *)

Lemma NoDup_firstn {A : Type} (n : nat) (l : list A) : NoDup l -> NoDup (firstn n l).
Proof.
  revert n. induction l as [|x l IH]; intros [|n] H; simpl; try constructor.
  - inversion H as [|? ? Hx Hl]; subst. intros Hin. apply Hx.
    rewrite <- (firstn_skipn n l). apply in_or_app. now left.
  - inversion H; subst. now apply IH.
Qed.

Lemma NoDup_slice_to {A : Type} (k : Z) (l : list A) : NoDup l -> NoDup (slice_to k l).
Proof. unfold slice_to. destruct (0 <=? k)%Z; apply NoDup_firstn. Qed.

Lemma fuse_distinct (A : Arith) (rrf_k top_k : Z)
    (first second : list Value) :
  let ids := fuse A rrf_k top_k first second in
  NoDup ids
  /\ (forall id, In id ids -> In id first \/ In id second)
  /\ ((Z.of_nat (List.length (first_seen [] (first ++ second))) <= top_k)%Z ->
      forall id, In id first \/ In id second -> In id ids).
Proof.
  intros ids. unfold ids, fuse, top_ranked.
  set (d := rrf_accumulate A rrf_k 1 second (rrf_accumulate A rrf_k 1 first [])).
  pose proof (sorted_desc_perm (ltb A) snd d) as Hperm.
  assert (Hkeys : Permutation (map fst (sorted_desc (ltb A) snd d)) (map fst d))
    by now apply Permutation_map.
  split; [|split].
  - rewrite slice_to_map. apply NoDup_slice_to.
    apply (Permutation_NoDup (Permutation_sym Hkeys)). apply keys_fused_NoDup.
  - intros id Hin. rewrite slice_to_map in Hin. apply slice_to_In in Hin.
    apply (Permutation_in _ Hkeys) in Hin. now apply keys_fused_In in Hin.
  - intros Hlen id Hin. apply keys_fused_In with (A := A) (rrf_k := rrf_k) in Hin.
    fold d in Hin. apply (Permutation_in _ (Permutation_sym Hkeys)) in Hin.
    rewrite slice_to_map. unfold slice_to.
    assert (Hd : List.length (map fst (sorted_desc (ltb A) snd d))
                 = List.length (first_seen [] (first ++ second))).
    { rewrite (Permutation_length Hkeys). unfold d.
      now rewrite !keys_rrf_accumulate, first_seen_app. }
    destruct (Z.leb_spec 0 top_k) as [_|Hneg]; [|lia].
    rewrite firstn_all2; [assumption | lia].
Qed.

(** X20. For [top_k > 0] and no zero denominator, whatever the arithmetic,
    the ids [hybrid_rrf_search] sends to the hydration are ids of the two
    result lists, each once: an id found by both searches is looked up
    once.  With no id at all there is no hydration statement.  When
    [top_k] is at least the number of distinct ids, every id of either
    list is sent. *)
Theorem hybrid_rrf_search_ids_distinct (C : Collaborators) (A : Arith)
    (query_text : string) (top_k rrf_k : Z) (w : World) :
  (0 < top_k)%Z ->
  let sem := cypher_vector C (top_k * 2) (encode C query_text) 0 (graph w) in
  let bm := fulltext_rows C query_text (top_k * 2) 0 (graph w) in
  no_zero_division rrf_k (List.length sem) ->
  no_zero_division rrf_k (List.length bm) ->
  let r := hybrid_rrf_search C A query_text top_k rrf_k w in
  exists ids,
    trace (snd r)
    = trace w
      ++ [EvEncode query_text;
          EvRun (QVector (top_k * 2) (encode C query_text) 0);
          EvRun (QFulltext query_text (top_k * 2) 0)]
      ++ match ids with [] => [] | _ => [EvRun (QGetData ids)] end
    /\ fst r = Ok (cypher_get_data ids (graph w))
    /\ NoDup ids
    /\ (forall id, In id ids -> In id (node_ids sem) \/ In id (node_ids bm))
    /\ ((Z.of_nat (List.length (first_seen [] (node_ids sem ++ node_ids bm)))
         <= top_k)%Z ->
        forall id, In id (node_ids sem) \/ In id (node_ids bm) -> In id ids).
Proof.
  intros Hpos sem bm Hz1 Hz2 r.
  assert (Hk : (0 <= top_k)%Z) by lia.
  exists (fuse A rrf_k top_k (node_ids sem) (node_ids bm)).
  unfold r. rewrite (hybrid_rrf_search_run C A query_text top_k rrf_k w Hk Hz1 Hz2).
  fold sem bm. cbn [fst snd]. split; [|split; [reflexivity | apply fuse_distinct]].
  unfold after_hybrid.
  destruct (fuse A rrf_k top_k (node_ids sem) (node_ids bm));
    cbn [trace]; [now rewrite app_nil_r | reflexivity].
Qed.

Lemma hybrid_rrf_search_ids_distinct_witness :
  (0 < 3)%Z
  /\ exists ids,
       trace (snd (hybrid_rrf_search ranking_collaborators binary64 "x" 3 60
                     three_summaries_world))
       = trace three_summaries_world
         ++ [EvEncode "x";
             EvRun (QVector (3 * 2) (char_codes "x") 0);
             EvRun (QFulltext "x" (3 * 2) 0)]
         ++ match ids with [] => [] | _ => [EvRun (QGetData ids)] end
       /\ NoDup ids.
Proof.
  assert (Hz : forall n, no_zero_division 60 n) by (intros n rank H; lia).
  split; [lia|].
  destruct (hybrid_rrf_search_ids_distinct ranking_collaborators binary64 "x" 3 60
              three_summaries_world ltac:(lia) (Hz _) (Hz _))
    as [ids [Ht [_ [Hnd _]]]].
  exists ids. split; [exact Ht | exact Hnd].
Defined.

(** ** An item that does better in the lists does better in the fusion *)

Lemma rrf_contribution_nth (rrf_k : Z) (ids : list Value) (x : Value) (i : nat) :
  NoDup ids -> nth_error ids i = Some x ->
  (rrf_contribution rrf_k 1 ids x == 1 / inject_Z (rrf_k + (1 + Z.of_nat i)))%Q.
Proof.
  intros Hnd Hi. unfold rrf_contribution. rewrite (ranks_from_nth 1 ids x i Hnd Hi).
  unfold Qsum. cbn [map fold_right]. apply Qplus_0_r.
Qed.

Lemma rrf_contribution_absent (rrf_k : Z) (ids : list Value) (x : Value) :
  ~ In x ids -> (rrf_contribution rrf_k 1 ids x == 0)%Q.
Proof.
  intros H. unfold rrf_contribution. now rewrite (ranks_from_absent 1 ids x H).
Qed.

Lemma Value_eq_dec (a b : Value) : {a = b} + {a <> b}.
Proof. exact (reflect_dec _ _ (value_eqb_spec a b)). Qed.

Lemma rrf_contribution_above (rrf_k : Z) (ids : list Value) (x y : Value) :
  (0 <= rrf_k)%Z -> NoDup ids -> ranked_above ids x y ->
  (rrf_contribution rrf_k 1 ids y < rrf_contribution rrf_k 1 ids x)%Q.
Proof.
  intros Hk Hnd [i [Hi Hy]]. rewrite (rrf_contribution_nth rrf_k ids x i Hnd Hi).
  destruct (in_dec Value_eq_dec y ids) as [Hin|Hout].
  - apply In_nth_error in Hin. destruct Hin as [j Hj].
    rewrite (rrf_contribution_nth rrf_k ids y j Hnd Hj).
    specialize (Hy j Hj). apply one_over_lt; lia.
  - rewrite (rrf_contribution_absent rrf_k ids y Hout). apply one_over_pos. lia.
Qed.

Lemma rrf_contribution_not_below (rrf_k : Z) (ids : list Value) (x y : Value) :
  (0 <= rrf_k)%Z -> NoDup ids -> not_ranked_below ids x y ->
  (rrf_contribution rrf_k 1 ids y <= rrf_contribution rrf_k 1 ids x)%Q.
Proof.
  intros Hk Hnd [H|[Hx Hy]].
  - apply Qlt_le_weak. now apply rrf_contribution_above.
  - rewrite (rrf_contribution_absent rrf_k ids x Hx),
            (rrf_contribution_absent rrf_k ids y Hy).
    apply Qle_refl.
Qed.

Lemma StronglySorted_after {A : Type} (R : A -> A -> Prop) (l1 l2 : list A) (y x : A) :
  StronglySorted R (l1 ++ y :: l2) -> In x l2 -> R y x.
Proof.
  induction l1 as [|a l1 IH]; simpl; intros H Hx.
  - apply StronglySorted_inv in H. destruct H as [_ H].
    rewrite Forall_forall in H. now apply H.
  - apply StronglySorted_inv in H. destruct H as [H _]. now apply IH.
Qed.

Lemma slice_to_prefix {A : Type} (k : Z) (l : list A) :
  exists rest, l = slice_to k l ++ rest.
Proof.
  unfold slice_to. destruct (0 <=? k)%Z; eexists; symmetry; apply firstn_skipn.
Qed.

(** The ids of the dict by their score, descending. *)
Lemma ranked_ids_sorted (d : list (Value * Q)) :
  NoDup (map fst d) ->
  StronglySorted (fun a b => (score_of d b <= score_of d a)%Q)
                 (map fst (sorted_desc Qltb snd d)).
Proof.
  intros Hnd. destruct (ranked_by_score d) as [Hperm [Hsorted _]].
  apply StronglySorted_map. revert Hsorted. apply StronglySorted_In.
  intros [a va] [b vb] Ha Hb H. cbn [fst snd] in *.
  apply (Permutation_in _ Hperm) in Ha, Hb.
  now rewrite (score_of_In d a va Hnd Ha), (score_of_In d b vb Hnd Hb).
Qed.

Lemma fuse_dominance (rrf_k : Z) (first second : list Value) (x y : Value) :
  (0 <= rrf_k)%Z -> NoDup first -> NoDup second ->
  (ranked_above first x y /\ not_ranked_below second x y)
  \/ (not_ranked_below first x y /\ ranked_above second x y) ->
  let scores := rrf_accumulate exact rrf_k 1 second
                  (rrf_accumulate exact rrf_k 1 first []) in
  (score_of scores y < score_of scores x)%Q
  /\ forall top_k before after,
       fuse exact rrf_k top_k first second = before ++ y :: after ->
       In x before.
Proof.
  intros Hk Hnd1 Hnd2 Hdom scores.
  assert (Hlt : (score_of scores y < score_of scores x)%Q).
  { unfold scores. rewrite !score_of_fused. unfold spec_rrf_score.
    destruct Hdom as [[H1 H2]|[H1 H2]].
    - apply Qplus_lt_le_compat;
        [now apply rrf_contribution_above | now apply rrf_contribution_not_below].
    - rewrite (Qplus_comm (rrf_contribution rrf_k 1 first y)),
              (Qplus_comm (rrf_contribution rrf_k 1 first x)).
      apply Qplus_lt_le_compat;
        [now apply rrf_contribution_above | now apply rrf_contribution_not_below]. }
  split; [exact Hlt|].
  intros top_k before after Hf.
  assert (Hkeys : NoDup (map fst scores)) by apply keys_fused_NoDup.
  pose proof (ranked_ids_sorted scores Hkeys) as Hsorted.
  assert (Hx : In x (map fst (sorted_desc Qltb snd scores))).
  { apply (Permutation_in (l := map fst scores)).
    - apply Permutation_map, Permutation_sym, sorted_desc_perm.
    - apply keys_fused_In.
      destruct Hdom as [[[i [Hi _]] _]|[_ [i [Hi _]]]];
        [left | right]; eapply nth_error_In; eassumption. }
  unfold fuse, top_ranked in Hf. rewrite slice_to_map in Hf.
  change (slice_to top_k (map fst (sorted_desc Qltb snd scores))
          = before ++ y :: after) in Hf.
  remember (map fst (sorted_desc Qltb snd scores)) as ids eqn:Eids.
  destruct (slice_to_prefix top_k ids) as [rest Hrest].
  rewrite Hf, <- app_assoc in Hrest. cbn [app] in Hrest.
  rewrite Hrest in Hx, Hsorted.
  apply in_app_or in Hx. destruct Hx as [Hx|[Hx|Hx]]; [assumption | |].
  - subst. exfalso. revert Hlt. apply Qlt_irrefl.
  - exfalso. pose proof (StronglySorted_after _ _ _ _ _ Hsorted Hx) as Hle.
    cbn beta in Hle. apply (Qlt_irrefl (score_of scores y)).
    eapply Qlt_le_trans; eassumption.
Qed.

(** X21. The two scoring loops and the ranking of [hybrid_rrf_search], in
    exact arithmetic, for [rrf_k >= 0] and result lists in which no node id
    comes twice.  When [x] is ranked above [y] in one of the two lists and
    does no worse than [y] in the other, the loops give [x] a score
    strictly above that of [y], and whenever [y] is among the ids kept,
    [x] stands before it, whatever [top_k]. *)
Theorem rrf_dominance (rrf_k : Z) (semantic_results bm25_results : list Dict)
    (x y : Value) (w : World) :
  (0 <= rrf_k)%Z ->
  Forall (fun item => lookup "node_id" item <> None) semantic_results ->
  Forall (fun item => lookup "node_id" item <> None) bm25_results ->
  let first := node_ids semantic_results in
  let second := node_ids bm25_results in
  NoDup first -> NoDup second ->
  (ranked_above first x y /\ not_ranked_below second x y)
  \/ (not_ranked_below first x y /\ ranked_above second x y) ->
  exists rrf_scores,
    (rrf_scores <- rrf_loop exact rrf_k 1 semantic_results [] ;;
     rrf_loop exact rrf_k 1 bm25_results rrf_scores) w
    = (Ok rrf_scores, w)
    /\ (score_of rrf_scores y < score_of rrf_scores x)%Q
    /\ forall top_k before after,
         top_ranked exact top_k rrf_scores = before ++ y :: after ->
         In x before.
Proof.
  intros Hk Hid1 Hid2 first second Hnd1 Hnd2 Hdom.
  exists (rrf_accumulate exact rrf_k 1 second (rrf_accumulate exact rrf_k 1 first [])).
  split.
  - unfold bind.
    rewrite (rrf_loop_accumulate exact rrf_k 1 semantic_results [] w Hid1)
      by (intros i Hi; lia).
    now rewrite (rrf_loop_accumulate exact rrf_k 1 bm25_results _ w Hid2)
      by (intros i Hi; lia).
  - exact (fuse_dominance rrf_k first second x y Hk Hnd1 Hnd2 Hdom).
Qed.

Lemma rrf_dominance_witness :
  (0 <= 60)%Z
  /\ NoDup (node_ids [[("node_id", VStr "u1")]; [("node_id", VStr "u2")]])
  /\ NoDup (node_ids [[("node_id", VStr "u0")]; [("node_id", VStr "u1")]])
  /\ ranked_above (node_ids [[("node_id", VStr "u1")]; [("node_id", VStr "u2")]])
                  (VStr "u1") (VStr "u2")
  /\ not_ranked_below (node_ids [[("node_id", VStr "u0")]; [("node_id", VStr "u1")]])
                      (VStr "u1") (VStr "u2")
  /\ exists rrf_scores,
       (rrf_scores <- rrf_loop exact 60 1
                        [[("node_id", VStr "u1")]; [("node_id", VStr "u2")]] [] ;;
        rrf_loop exact 60 1 [[("node_id", VStr "u0")]; [("node_id", VStr "u1")]]
                 rrf_scores) initial_world
       = (Ok rrf_scores, initial_world)
       /\ (score_of rrf_scores (VStr "u2") < score_of rrf_scores (VStr "u1"))%Q.
Proof.
  set (sem := [[("node_id", VStr "u1")]; [("node_id", VStr "u2")]]).
  set (bm := [[("node_id", VStr "u0")]; [("node_id", VStr "u1")]]).
  assert (Hnd1 : NoDup (node_ids sem)).
  { repeat constructor; simpl; intuition discriminate. }
  assert (Hnd2 : NoDup (node_ids bm)).
  { repeat constructor; simpl; intuition discriminate. }
  assert (Ha : ranked_above (node_ids sem) (VStr "u1") (VStr "u2")).
  { exists 0. split; [reflexivity|].
    intros j Hj.
    do 3 (try (destruct j as [|j]; simpl in Hj; try discriminate; try lia)). }
  assert (Hb : not_ranked_below (node_ids bm) (VStr "u1") (VStr "u2")).
  { left. exists 1. split; [reflexivity|].
    intros j Hj.
    do 3 (try (destruct j as [|j]; simpl in Hj; try discriminate; try lia)). }
  assert (Hid1 : Forall (fun item => lookup "node_id" item <> None) sem)
    by (repeat constructor; discriminate).
  assert (Hid2 : Forall (fun item => lookup "node_id" item <> None) bm)
    by (repeat constructor; discriminate).
  split; [lia|]. split; [exact Hnd1|]. split; [exact Hnd2|].
  split; [exact Ha|]. split; [exact Hb|].
  destruct (rrf_dominance 60 sem bm (VStr "u1") (VStr "u2") initial_world
              ltac:(lia) Hid1 Hid2 Hnd1 Hnd2 (or_introl (conj Ha Hb)))
    as [d [H1 [H2 _]]].
  exists d. split; [exact H1 | exact H2].
Defined.

(** ** The reranking search, end to end *)

(** Candidates by their cross-encoder score, descending. *)
Lemma rerank_sorted (cands : list Dict) :
  StronglySorted (fun a b => (cross_score_of b <= cross_score_of a)%Q)
    (map snd (sorted_desc Qltb fst (map (fun c => (cross_score_of c, c)) cands))).
Proof.
  set (keyed := map (fun c => (cross_score_of c, c)) cands).
  destruct (sorted_desc_by_Q fst keyed) as [Hperm [Hsorted _]].
  apply StronglySorted_map. revert Hsorted. apply StronglySorted_In.
  assert (Hkey : forall x, In x (sorted_desc Qltb fst keyed) ->
                           fst x = cross_score_of (snd x)).
  { intros x Hx. apply (Permutation_in _ Hperm) in Hx. unfold keyed in Hx.
    apply in_map_iff in Hx. destruct Hx as [c0 [<- _]]. reflexivity. }
  intros x y Hx Hy H. now rewrite <- (Hkey x Hx), <- (Hkey y Hy).
Qed.

(** X22. [hybrid_rerank_search] for [top_k > 0] and no zero denominator,
    whatever the arithmetic.  It asks each of the two searches for
    [top_k * 3 * 2] items, hydrates at most [3 * top_k] fused ids in one
    statement (none when there is no id), and calls the cross-encoder once
    on the pairs (query, summary) of the hydrated records (not at all when
    there is none).  It returns at most [top_k] of these records, each with
    the score of its pair under [cross_score], by that score, descending. *)
Theorem hybrid_rerank_search_end_to_end (C : Collaborators) (A : Arith)
    (query_text : string) (top_k rrf_k : Z) (w : World) :
  (0 < top_k)%Z ->
  let sem := cypher_vector C (top_k * 3 * 2) (encode C query_text) 0 (graph w) in
  let bm := fulltext_rows C query_text (top_k * 3 * 2) 0 (graph w) in
  no_zero_division rrf_k (List.length sem) ->
  no_zero_division rrf_k (List.length bm) ->
  let r := hybrid_rerank_search C A query_text top_k rrf_k w in
  exists ids rows,
    let candidates := cypher_get_data ids (graph w) in
    List.length ids <= 3 * Z.to_nat top_k
    /\ trace (snd r)
       = trace w
         ++ [EvEncode query_text;
             EvRun (QVector (top_k * 3 * 2) (encode C query_text) 0);
             EvRun (QFulltext query_text (top_k * 3 * 2) 0)]
         ++ match ids with [] => [] | _ => [EvRun (QGetData ids)] end
         ++ match candidates with
            | [] => []
            | _ => [EvPredict (map (fun c => (query_text, summary_of c)) candidates)]
            end
    /\ fst r = Ok rows
    /\ List.length rows <= Z.to_nat top_k
    /\ (forall row, In row rows ->
          exists c, In c candidates
                    /\ row = set_key "cross_score"
                               (VNum (score_pair C query_text (summary_of c))) c)
    /\ StronglySorted (fun a b => (cross_score_of b <= cross_score_of a)%Q) rows.
Proof.
  intros Hpos sem bm Hz1 Hz2 r.
  assert (Hk : (0 <= top_k)%Z) by lia.
  set (ids := fuse A rrf_k (top_k * 3) (node_ids sem) (node_ids bm)).
  set (candidates := cypher_get_data ids (graph w)).
  assert (Hk3 : (0 <= top_k * 3)%Z) by lia.
  assert (Hrun : hybrid_rrf_search C A query_text (top_k * 3) rrf_k w
                 = (Ok candidates, after_hybrid C query_text (top_k * 3) ids w))
    by exact (hybrid_rrf_search_run C A query_text (top_k * 3) rrf_k w Hk3 Hz1 Hz2).
  assert (Hlen : List.length ids <= 3 * Z.to_nat top_k).
  { pose proof (top_ranked_length A (top_k * 3)
                  (rrf_accumulate A rrf_k 1 (node_ids bm)
                     (rrf_accumulate A rrf_k 1 (node_ids sem) [])) Hk3) as H.
    fold (fuse A rrf_k (top_k * 3) (node_ids sem) (node_ids bm)) in H. fold ids in H.
    lia. }
  assert (Htr : trace (after_hybrid C query_text (top_k * 3) ids w)
                = trace w
                  ++ [EvEncode query_text;
                      EvRun (QVector (top_k * 3 * 2) (encode C query_text) 0);
                      EvRun (QFulltext query_text (top_k * 3 * 2) 0)]
                  ++ match ids with [] => [] | _ => [EvRun (QGetData ids)] end).
  { unfold after_hybrid. destruct ids; cbn [trace]; [now rewrite app_nil_r | reflexivity]. }
  exists ids.
  unfold r, hybrid_rerank_search, bind. rewrite Hrun.
  destruct candidates as [|c rest] eqn:E.
  - exists []. fold candidates. rewrite E. cbn [rerank ret fst snd].
    rewrite Htr. rewrite !app_nil_r.
    split; [exact Hlen|]. split; [reflexivity|]. split; [reflexivity|].
    split; [simpl; lia|]. split; [intros row [] | constructor].
  - rewrite <- E.
    assert (Hne : candidates <> []) by (rewrite E; discriminate).
    assert (Hsum : Forall (fun c => lookup "summary" c <> None) candidates)
      by apply has_summary_get_data.
    rewrite (rerank_run C query_text candidates top_k _ Hne Hsum).
    eexists. fold candidates. cbn [fst snd trace]. rewrite Htr.
    split; [exact Hlen|]. split.
    { rewrite E at 2. rewrite <- !app_assoc. reflexivity. }
    split; [reflexivity|]. split; [now apply slice_to_length|]. split.
    + intros row Hrow. apply slice_to_In in Hrow. apply in_map_iff in Hrow.
      destruct Hrow as [[s row'] [<- Hrow]].
      apply (Permutation_in _ (sorted_desc_perm Qltb fst _)) in Hrow.
      apply in_map_iff in Hrow. destruct Hrow as [c0 [Heq Hc0]].
      injection Heq as _ <-. apply in_map_iff in Hc0.
      destruct Hc0 as [c1 [<- Hc1]]. now exists c1.
    + rewrite slice_to_firstn by assumption.
      apply StronglySorted_firstn, rerank_sorted.
Qed.

Lemma hybrid_rerank_search_end_to_end_witness :
  (0 < 2)%Z
  /\ fst (hybrid_rerank_search ranking_collaborators binary64 "x" 2 60
            three_summaries_world)
     = Ok [[("id", VStr "P1"); ("question", VStr "q"); ("summary", VStr "c");
            ("cross_score", VNum 99)];
           [("id", VStr "P1"); ("question", VStr "q"); ("summary", VStr "b");
            ("cross_score", VNum 98)]]
  /\ exists (ids : list Value) (rows : list Dict),
       List.length ids <= 3 * Z.to_nat 2
       /\ fst (hybrid_rerank_search ranking_collaborators binary64 "x" 2 60
                 three_summaries_world) = Ok rows
       /\ List.length rows <= Z.to_nat 2.
Proof.
  assert (Hz : forall n, no_zero_division 60 n) by (intros n rank H; lia).
  split; [lia|]. split; [vm_compute; reflexivity|].
  destruct (hybrid_rerank_search_end_to_end ranking_collaborators binary64 "x" 2 60
              three_summaries_world ltac:(lia) (Hz _) (Hz _))
    as [ids [rows [H1 [_ [H2 [H3 _]]]]]].
  exists ids, rows. split; [exact H1|]. split; [exact H2 | exact H3].
Defined.

(** ** The rows of the full-text search *)

(** X23. [get_bm25_matches] for [top_k >= 0] runs one statement and
    returns at most [top_k] rows, one per hit of the full-text index whose
    score is at least [min_score], by score, descending: rank 1 is a best
    hit.  When [top_k] is at least the number of such hits, every one of
    them has its row. *)
Theorem get_bm25_matches_rows (C : Collaborators) (query_text : string)
    (top_k : Z) (min_score : Q) (w : World) :
  (0 <= top_k)%Z ->
  let r := get_bm25_matches C query_text top_k min_score w in
  let hits := filter (fun hit => Qle_bool min_score (snd hit))
                     (fulltext_index C (graph w) query_text) in
  exists rows,
    fst r = Ok rows
    /\ trace (snd r) = trace w ++ [EvRun (QFulltext query_text top_k min_score)]
    /\ List.length rows <= Z.to_nat top_k
    /\ (forall row, In row rows ->
          exists hit, In hit (fulltext_index C (graph w) query_text)
                      /\ (min_score <= snd hit)%Q /\ row = hit_row hit)
    /\ StronglySorted (fun a b => (row_score b <= row_score a)%Q) rows
    /\ (List.length hits <= Z.to_nat top_k ->
        forall hit, In hit hits -> In (hit_row hit) rows).
Proof.
  intros Hk r hits. unfold r, get_bm25_matches, session_run, cypher, cypher_fulltext.
  destruct (Z.ltb_spec top_k 0) as [Hneg|_]; [lia|].
  eexists. cbn [fst snd trace]. split; [reflexivity|]. split; [reflexivity|].
  unfold fulltext_rows. fold hits. fold hit_row.
  change (fun hit : Node * Q =>
            [("node_id", prop_id (fst hit)); ("summary", prop_text (fst hit));
             ("score", VNum (snd hit))]) with hit_row.
  destruct (sorted_desc_by_Q snd hits) as [Hperm [Hsorted _]].
  split.
  { rewrite length_map, length_firstn. lia. }
  split.
  { intros row Hrow. apply in_map_iff in Hrow. destruct Hrow as [hit [<- Hhit]].
    exists hit.
    assert (Hin : In hit hits).
    { apply (Permutation_in _ Hperm).
      rewrite <- (firstn_skipn (Z.to_nat top_k) (sorted_desc Qltb snd hits)).
      apply in_or_app. now left. }
    unfold hits in Hin. apply filter_In in Hin. destruct Hin as [Hin Hs].
    apply Qle_bool_iff in Hs. now repeat split. }
  split.
  { apply StronglySorted_map. apply StronglySorted_firstn. exact Hsorted. }
  intros Hlen hit Hhit. apply in_map.
  rewrite firstn_all2 by (rewrite (Permutation_length Hperm); lia).
  now apply (Permutation_in _ (Permutation_sym Hperm)).
Qed.

Lemma get_bm25_matches_rows_witness :
  (0 <= 1)%Z
  /\ fst (get_bm25_matches ranking_collaborators "x" 1 0 three_summaries_world)
     = Ok [[("node_id", VStr "u0"); ("summary", VStr "a"); ("score", VNum 3)]]
  /\ exists rows,
       fst (get_bm25_matches ranking_collaborators "x" 1 0 three_summaries_world)
       = Ok rows
       /\ List.length rows <= Z.to_nat 1.
Proof.
  split; [lia|]. split; [vm_compute; reflexivity|].
  destruct (get_bm25_matches_rows ranking_collaborators "x" 1 0 three_summaries_world
              ltac:(lia)) as [rows [H1 [_ [H2 _]]]].
  exists rows. split; [exact H1 | exact H2].
Defined.
